(** * 1D Burgers' equation, explicit finite differences

    A shallow embedding of [steps/04_burgers_equation.ipynb]: the
    analytical solution of cells 2-4, the grid and parameter setup of cell
    5 and the time-marching loop of cell 6.

    - The notebook computes on numpy [float64] arrays and Python [float]s.
      The embedding is generic in the arithmetic: a carrier [F] with the
      operations the notebook uses and no algebraic law.  What is proved in
      the generic sections holds for IEEE binary64 ([float_arith]) as well
      as for exact real arithmetic ([real_arith]).
    - The arrays [u] and [un] live in a store that the code mutates in
      place.  Array accesses follow Python's indexing (a negative index
      counts from the end, an index out of range raises [IndexError]) and
      are recorded in a ghost trace, which nothing reads.
    - Exceptions are the ones Python and numpy raise on the notebook's
      path: [IndexError], [ZeroDivisionError], [OverflowError] (from
      [**] and from the conversion of an [int] too large for a float),
      [ValueError], and what numpy raises when it cannot build an array.
      Whether numpy can build an array of a given size depends on the
      machine: it is a parameter of the setup.  An array that exists can
      be copied.
    - The end-to-end scenario of cell 5 is settled in real arithmetic, with
      interval arithmetic on fixed-point numbers that is proved to enclose
      the real-valued fields. *)

From Stdlib Require Import ZArith Lia Reals Lra.
From Stdlib Require Import PrimFloat Uint63 SpecFloat FloatOps.
From Bignums Require Import BigZ.
From stdpp Require Import base tactics option list.

(** ** Arithmetic *)

(** The operations of the update formula.  [pow2 x] is [x**2] and [of_int]
    the conversion of a Python [int] operand ([2 * un[i]],
    [2 * np.pi / (nx - 1)], [nt * dt]).  The four operations and [pow2]
    are total, as numpy's are on [float64] (a division by zero gives an
    infinity or a NaN).  On two Python [float]s, division raises
    [ZeroDivisionError] when the divisor is zero and [**] raises
    [OverflowError] when a finite operand overflows: [is_zero] and
    [pow2_overflows] are these two tests.  The conversion of an [int] that
    is an operand of a Python [float] raises [OverflowError] when the
    [int] is too large: [int_overflows] is this test. *)
Class Arith (F : Type) : Type := {
  add : F -> F -> F;
  sub : F -> F -> F;
  mul : F -> F -> F;
  div : F -> F -> F;
  pow2 : F -> F;
  of_int : Z -> F;
  is_zero : F -> bool;
  pow2_overflows : F -> bool;
  int_overflows : Z -> bool
}.

Declare Scope arith_scope.
Delimit Scope arith_scope with A.
Infix "+" := add : arith_scope.
Infix "-" := sub : arith_scope.
Infix "*" := mul : arith_scope.
Infix "/" := div : arith_scope.

(** The conversion of an integer to binary64, rounded to nearest with
    ties to even, as Python and numpy convert an [int]; an integer beyond
    the range of binary64 gives an infinity. *)
Definition float_of_int (z : Z) : float :=
  SF2Prim (binary_normalize FloatOps.prec FloatOps.emax z 0 false).

(** Python raises [OverflowError] ("int too large to convert to float")
    when the rounded integer is beyond the range of binary64, from
    [2^1024 - 2^970] on in absolute value. *)
Definition float_int_overflows (z : Z) : bool :=
  match binary_normalize FloatOps.prec FloatOps.emax z 0 false with
  | S754_infinity _ => true
  | _ => false
  end.

(** IEEE binary64, the arithmetic of numpy's [float64] and of Python's
    [float].  Python computes [x ** 2] with the [pow] of the C library,
    which is close to the square but need not be its correctly rounded
    value: [libm_pow2] is this function. *)
Definition float_arith_with (libm_pow2 : float -> float) : Arith float := {|
  add := PrimFloat.add;
  sub := PrimFloat.sub;
  mul := PrimFloat.mul;
  div := PrimFloat.div;
  pow2 := libm_pow2;
  of_int := float_of_int;
  is_zero := PrimFloat.is_zero;
  pow2_overflows := fun x =>
    PrimFloat.is_infinity (libm_pow2 x) && negb (PrimFloat.is_infinity x);
  int_overflows := float_int_overflows
|}.

(** Binary64 with a C library whose [pow(x, 2.0)] is the correctly rounded
    square, as every C library gives it where the square is exact. *)
#[export] Instance float_arith : Arith float :=
  float_arith_with (fun x => PrimFloat.mul x x).

(** Exact real arithmetic. *)
#[export] Instance real_arith : Arith R := {
  add := Rplus;
  sub := Rminus;
  mul := Rmult;
  div := Rdiv;
  pow2 := fun x => (x ^ 2)%R;
  of_int := IZR;
  is_zero := fun x => if Req_dec_T x 0 then true else false;
  pow2_overflows := fun _ => false;
  int_overflows := fun _ => false
}.

(** Exact integer arithmetic with floor division, used to run the model on
    small inputs. *)
#[export] Instance int_arith : Arith Z := {
  add := Z.add;
  sub := Z.sub;
  mul := Z.mul;
  div := Z.div;
  pow2 := fun x => (x * x)%Z;
  of_int := fun z => z;
  is_zero := Z.eqb 0;
  pow2_overflows := fun _ => false;
  int_overflows := fun _ => false
}.

(** ** Exceptions, store and the state-and-error monad *)

Inductive exn : Set :=
| IndexError
| ZeroDivisionError
| OverflowError
| ValueError
| MemoryError.

Inductive result (A : Type) : Type :=
| Ok (a : A)
| Raise (e : exn).
Arguments Ok {A} a.
Arguments Raise {A} e.

(** The two arrays of the notebook. *)
Inductive array : Set := U | UN.

(** Ghost events: one per array access, one per [u.copy()]. *)
Inductive event : Set :=
| Copy
| Read (a : array) (k : nat)
| Write (a : array) (k : nat).

#[export] Instance array_eq_dec : EqDecision array.
Proof. solve_decision. Defined.
#[export] Instance event_eq_dec : EqDecision event.
Proof. solve_decision. Defined.

Section Program.
Context {F : Type} `{Arith F}.
Local Open Scope arith_scope.

(** The globals of cell 5 that the loop only reads. *)
Record params : Type := Params {
  nx : Z;
  nt : Z;
  dx : F;
  nu : F;
  dt : F
}.

(** The globals the loop assigns, and the ghost trace. *)
Record store : Type := Store {
  u : list F;
  un : list F;
  trace : list event
}.

Definition M (A : Type) : Type := store -> result (A * store).

Definition ret {A} (a : A) : M A := fun s => Ok (a, s).

Definition bind {A B} (m : M A) (k : A -> M B) : M B :=
  fun s => match m s with
           | Ok (a, s') => k a s'
           | Raise e => Raise e
           end.

Definition raise {A} (e : exn) : M A := fun _ => Raise e.

Notation "x <- m ;; k" := (bind m (fun x => k))
  (at level 100, m at next level, right associativity).
Notation "m ;; k" := (bind m (fun _ => k))
  (at level 100, right associativity).

Definition sel (a : array) (s : store) : list F :=
  match a with U => u s | UN => un s end.

Definition upd (a : array) (l : list F) (s : store) : store :=
  match a with
  | U => Store l (un s) (trace s)
  | UN => Store (u s) l (trace s)
  end.

Definition log (e : event) (s : store) : store :=
  Store (u s) (un s) (trace s ++ [e]).

(** Python's index resolution on a sequence of length [len]: a negative
    index counts from the end; what is still out of range has no position. *)
Definition resolve (len : nat) (i : Z) : option nat :=
  let j := if (i <? 0)%Z then (i + Z.of_nat len)%Z else i in
  if ((0 <=? j)%Z && (j <? Z.of_nat len)%Z)%bool then Some (Z.to_nat j) else None.

(** [a[i]] *)
Definition getitem (a : array) (i : Z) : M F := fun s =>
  match resolve (length (sel a s)) i with
  | Some k =>
      match sel a s !! k with
      | Some v => Ok (v, log (Read a k) s)
      | None => Raise IndexError
      end
  | None => Raise IndexError
  end.

(** [a[i] = v] *)
Definition setitem (a : array) (i : Z) (v : F) : M unit := fun s =>
  match resolve (length (sel a s)) i with
  | Some k => Ok (tt, log (Write a k) (upd a (<[k:=v]> (sel a s)) s))
  | None => Raise IndexError
  end.

(** [un = u.copy()] *)
Definition copy : M unit := fun s =>
  Ok (tt, log Copy (upd UN (u s) s)).

(** [x ** 2] on a Python [float]. *)
Definition py_pow2 (x : F) : M F :=
  if pow2_overflows x then raise OverflowError else ret (pow2 x).

(** [x / y] on two Python [float]s. *)
Definition py_div (x y : F) : M F :=
  if is_zero y then raise ZeroDivisionError else ret (x / y).

(** [range(a, b)] *)
Definition range (a b : Z) : list Z := seqZ a (b - a).

(** [for x in l: body(x)] *)
Fixpoint for_ {A} (l : list A) (body : A -> M unit) : M unit :=
  match l with
  | [] => ret tt
  | x :: l' => body x ;; for_ l' body
  end.

Variable p : params.

Notation "2" := (of_int 2) : arith_scope.

(** Line 147:
    [u[i] = un[i] - un[i] * dt / dx *(un[i] - un[i-1])
            + nu * dt / dx**2 * (un[i+1] - 2 * un[i] + un[i-1])].
    The operands are evaluated left to right, then the target is written.
    [nu], [dt] and [dx] are Python [float]s (cell 5) and the entries of
    [un] are [float64]: [nu * dt / dx**2] is computed on Python [float]s,
    after the reads of the convection term and before those of the
    diffusion term, and everything else on [float64]. *)
Definition interior (i : Z) : M unit :=
  a <- getitem UN i ;;
  b <- getitem UN i ;;
  c <- getitem UN i ;;
  d <- getitem UN (i - 1) ;;
  q <- py_pow2 (dx p) ;;
  k <- py_div (nu p * dt p) q ;;
  e <- getitem UN (i + 1) ;;
  f <- getitem UN i ;;
  g <- getitem UN (i - 1) ;;
  setitem U i (a - b * dt p / dx p * (c - d) + k * (e - 2 * f + g)).

(** Line 149:
    [u[0] = un[0] - un[0] * dt / dx * (un[0] - un[-2])
            + nu * dt / dx**2 * (un[1] - 2 * un[0] + un[-2])]. *)
Definition boundary : M unit :=
  a <- getitem UN 0 ;;
  b <- getitem UN 0 ;;
  c <- getitem UN 0 ;;
  d <- getitem UN (-2) ;;
  q <- py_pow2 (dx p) ;;
  k <- py_div (nu p * dt p) q ;;
  e <- getitem UN 1 ;;
  f <- getitem UN 0 ;;
  g <- getitem UN (-2) ;;
  setitem U 0 (a - b * dt p / dx p * (c - d) + k * (e - 2 * f + g)).

(** Line 150: [u[-1] = u[0]]. *)
Definition wrap : M unit :=
  v <- getitem U 0 ;;
  setitem U (-1) v.

(** The interior sweep over an arbitrary list of indices; the notebook's
    sweep (line 146) is [sweep (range 1 (nx - 1))]. *)
Definition sweep (order : list Z) : M unit := for_ order interior.

(** The body of the time loop (lines 145-150), with the order of the
    interior sweep as a parameter. *)
Definition time_step_in (order : list Z) : M unit :=
  copy ;;
  sweep order ;;
  boundary ;;
  wrap.

Definition time_step : M unit := time_step_in (range 1 (nx p - 1)).

(** [for n in range(k): <body>]; the notebook's loop (line 143) is
    [march], the loop with [k = nt]. *)
Definition run (k : Z) : M unit := for_ (range 0 k) (fun _ => time_step).

Definition march : M unit := run (nt p).

End Program.

Arguments params F : clear implicits.
Arguments store F : clear implicits.
Arguments M F A : clear implicits.

(** ** The step as a function of the snapshot *)

Section Pure.
Context {F : Type} `{Arith F}.
Local Open Scope arith_scope.
Variable p : params F.

Notation "2" := (of_int 2) : arith_scope.

#[local] Instance arith_inhabited : Inhabited F := populate (of_int 0).

(** The spacing is not degenerate: [dx**2] neither overflows nor is zero,
    so that [nu * dt / dx**2] raises nothing. *)
Definition valid_spacing : Prop :=
  pow2_overflows (dx p) = false /\ is_zero (pow2 (dx p)) = false.

(** The right-hand side of lines 147 and 149 at a centre value [c] with
    left neighbour [l] and right neighbour [r]. *)
Definition burgers (l c r : F) : F :=
  c - c * dt p / dx p * (c - l) + nu p * dt p / pow2 (dx p) * (r - 2 * c + l).

(** The interior value at position [i], from the snapshot [w]. *)
Definition interior_value (w : list F) (i : nat) : F :=
  burgers (w !!! (i - 1)%nat) (w !!! i) (w !!! (i + 1)%nat).

(** The boundary value, from the snapshot [w]: the left neighbour of
    position 0 is the last-but-one entry. *)
Definition boundary_value (w : list F) : F :=
  burgers (w !!! (length w - 2)%nat) (w !!! 0%nat) (w !!! 1%nat).

(** The field after one time step, as a function of the snapshot. *)
Definition next_field (w : list F) : list F :=
  boundary_value w
    :: (interior_value w <$> seq 1 (length w - 2)) ++ [boundary_value w].

(** The accesses of one execution of line 147 at position [i]. *)
Definition interior_trace (i : nat) : list event :=
  [Read UN i; Read UN i; Read UN i; Read UN (i - 1); Read UN (i + 1);
   Read UN i; Read UN (i - 1); Write U i].

(** The accesses of line 149 on arrays of length [n]. *)
Definition boundary_trace (n : nat) : list event :=
  [Read UN 0; Read UN 0; Read UN 0; Read UN (n - 2); Read UN 1;
   Read UN 0; Read UN (n - 2); Write U 0].

(** The accesses of line 150 on arrays of length [n]. *)
Definition wrap_trace (n : nat) : list event :=
  [Read U 0; Write U (n - 1)].

Definition sweep_trace (order : list Z) : list event :=
  order ≫= (fun i => interior_trace (Z.to_nat i)).

(** The accesses of one time step on arrays of length [n]. *)
Definition step_trace (n : nat) : list event :=
  Copy :: sweep_trace (range 1 (Z.of_nat n - 1)) ++ boundary_trace n ++ wrap_trace n.

(** The array [v] after the assignments of a sweep in the given order,
    all reading the snapshot [w]. *)
Definition swept (w : list F) (order : list Z) (v : list F) : list F :=
  foldl (fun acc i => <[Z.to_nat i := interior_value w (Z.to_nat i)]> acc) v order.

(** The field after [k] time steps. *)
Definition field_after (k : nat) (w : list F) : list F :=
  Nat.iter k next_field w.

(** [order] lists the interior positions of an array of length [n], each at
    least once, in any order. *)
Definition covers (n : nat) (order : list Z) : Prop :=
  forall i : Z, i ∈ order <-> (1 <= i <= Z.of_nat n - 2)%Z.

(** Two stores hold the same arrays (their traces may differ). *)
Definition agree (s1 s2 : store F) : Prop :=
  u s1 = u s2 /\ un s1 = un s2.

(** Two executions end alike: with the same exception, or with the same
    value and the same arrays. *)
Definition same_outcome {A} (r1 r2 : result (A * store F)) : Prop :=
  match r1, r2 with
  | Ok (a1, s1), Ok (a2, s2) => a1 = a2 /\ agree s1 s2
  | Raise e1, Raise e2 => e1 = e2
  | _, _ => False
  end.

(** A computation whose outcome depends on the arrays only. *)
Definition oblivious {A} (m : M F A) : Prop :=
  forall s1 s2, agree s1 s2 -> same_outcome (m s1) (m s2).

End Pure.

(** The position an event touches. *)
Definition position (e : event) : option nat :=
  match e with
  | Copy => None
  | Read _ k | Write _ k => Some k
  end.

(** The array an event reads. *)
Definition read_of (e : event) : option array :=
  match e with
  | Read a _ => Some a
  | _ => None
  end.

(** The number of [u.copy()] events of a trace: one per executed
    iteration of the time loop. *)
Definition iterations (tr : list event) : nat :=
  length (filter (fun e => e = Copy) tr).

(** The array an event writes. *)
Definition written_by (e : event) : option array :=
  match e with
  | Write a _ => Some a
  | _ => None
  end.

(** ** Cell 5: grid and parameter setup *)

Section Setup.
Context {F : Type} `{Arith F}.
Local Open Scope arith_scope.

Notation "2" := (of_int 2) : arith_scope.

(** What cell 5 takes from numpy and sympy: the constant [np.pi], the
    content of a fresh [np.empty(n)] array (unspecified by numpy), the
    lambdified analytical solution [ufunc(t, x, nu)], and the outcome of
    building an array of [n] entries on the machine at hand: [None] when
    numpy can build it, and otherwise the exception numpy raises
    ([MemoryError], or [ValueError] beyond the largest array size). *)
Variable np_pi : F.
Variable np_empty : nat -> list F.
Variable ufunc : F -> F -> F -> F.
Variable np_alloc : Z -> option exn.

(** The samples of [np.linspace(start, stop, num)] for [num >= 2]:
    [k * step + start] with [step = (stop - start) / (num - 1)] for
    [k < num - 1], then [stop] itself. *)
Definition samples (start stop : F) (num : Z) : list F :=
  let step := (stop - start) / of_int (num - 1) in
  ((fun k => of_int k * step + start) <$> seqZ 0 (num - 1)) ++ [stop].

(** [np.linspace(start, stop, num)] (endpoint included): [ValueError] on a
    negative [num], then the array is built; no sample for 0, one for
    1. *)
Definition linspace (start stop : F) (num : Z) : result (list F) :=
  if (num <? 0)%Z then Raise ValueError
  else
    match np_alloc num with
    | Some e => Raise e
    | None =>
        if (num =? 0)%Z then Ok []
        else if (num =? 1)%Z then Ok [of_int 0 * (stop - start) + start]
        else Ok (samples start stop num)
    end.

(** [np.empty(n)]: [ValueError] on a negative [n], then the array is
    built. *)
Definition empty (n : Z) : result (list F) :=
  if (n <? 0)%Z then Raise ValueError
  else
    match np_alloc n with
    | Some e => Raise e
    | None => Ok (np_empty (Z.to_nat n))
    end.

(** Cell 5, lines 124-134, for a point count [points], a step count
    [steps] and a viscosity [visc] (the notebook has [nx = 101],
    [nt = 100] and [nu = 0.07]): [dx = 2 * np.pi / (nx - 1)] divides a
    float by an [int]; it raises [OverflowError] when [nx - 1] is too
    large to convert and [ZeroDivisionError] when it is zero.  The
    arrays [x] and [un] are built by numpy; the list and the array of
    line 134 have the size of [x], which numpy has built by then.  The
    result is the globals the loop reads, the coordinates [x], and the
    two arrays. *)
Definition setup (points steps : Z) (visc : F)
  : result (params F * list F * store F) :=
  if int_overflows (points - 1) then Raise OverflowError
  else if (points - 1 =? 0)%Z then Raise ZeroDivisionError
  else
    let dx := 2 * np_pi / of_int (points - 1) in
    let dt := dx * visc in
    match linspace (of_int 0) (2 * np_pi) points with
    | Raise e => Raise e
    | Ok x =>
        match empty points with
        | Raise e => Raise e
        | Ok un =>
            let t := of_int 0 in
            Ok (Params points steps dx visc dt, x,
                Store ((fun x0 => ufunc t x0 visc) <$> x) un [])
        end
    end.

(** The values of line 152, [ufunc(nt * dt, xi, nu)] for [xi] in [x]. *)
Definition analytical_values (p : params F) (x : list F) : list F :=
  (fun xi => ufunc (of_int (nt p) * dt p) xi (nu p)) <$> x.

(** Line 152: [u_analytical = [ufunc(nt * dt, xi, nu) for xi in x]].  The
    product [nt * dt] of an [int] and a float is evaluated for every
    entry of [x], and the first evaluation raises [OverflowError] when
    [nt] is too large to convert; with an empty [x] nothing is
    evaluated. *)
Definition u_analytical (p : params F) (x : list F) : result (list F) :=
  match x with
  | [] => Ok []
  | _ :: _ =>
      if int_overflows (nt p) then Raise OverflowError
      else Ok (analytical_values p x)
  end.

(** What cells 5 and 6 compute for at least two points, without the
    store: the coordinates, the field after [steps] time steps from the
    analytical profile at [t = 0], and the analytical field. *)
Definition fields (points steps : Z) (visc : F) : list F * list F * list F :=
  let dx := 2 * np_pi / of_int (points - 1) in
  let p := Params points steps dx visc (dx * visc) in
  let x := samples (of_int 0) (2 * np_pi) points in
  (x,
   field_after p (Z.to_nat steps) ((fun x0 => ufunc (of_int 0) x0 visc) <$> x),
   analytical_values p x).

(** Cells 5 and 6: setup, time loop, and the analytical field.  The result
    is the coordinates, the computed field and the analytical field. *)
Definition notebook (points steps : Z) (visc : F)
  : result (list F * list F * list F) :=
  match setup points steps visc with
  | Raise e => Raise e
  | Ok (p, x, s) =>
      match march p s with
      | Raise e => Raise e
      | Ok (_, s') =>
          match u_analytical p x with
          | Raise e => Raise e
          | Ok ua => Ok (x, u s', ua)
          end
      end
  end.

End Setup.

(** ** Cells 2-4: the analytical solution *)

(** What the analytical solution needs beyond [Arith]: unary minus, the
    exponential and the constant pi. *)
Class Analytic (F : Type) : Type := {
  neg : F -> F;
  exp : F -> F;
  pi : F
}.

#[export] Instance real_analytic : Analytic R := {
  neg := Ropp;
  exp := Rtrigo_def.exp;
  pi := PI
}.

Section AnalyticalSolution.
Context {F : Type} `{Arith F} `{Analytic F}.
Local Open Scope arith_scope.

Notation "- x" := (neg x) : arith_scope.
Notation "2" := (of_int 2) : arith_scope.
Notation "4" := (of_int 4) : arith_scope.
Notation "-8" := (of_int (-8)) : arith_scope.

(** Cell 2:
    [phi = exp(-(x - 4*t)**2 / (4*nu*(t + 1)))
         + exp(-(x - 4*t - 2*pi)**2 / (4*nu*(t + 1)))]. *)
Definition phi (t x nu : F) : F :=
  exp (- pow2 (x - 4 * t) / (4 * nu * (t + of_int 1)))
  + exp (- pow2 (x - 4 * t - 2 * pi) / (4 * nu * (t + of_int 1))).

(** Cell 3, [phiprime = phi.diff(x)], as the notebook displays it:
    [-(-8*t + 2*x)*exp(-(-4*t + x)**2/(4*nu*(t + 1)))/(4*nu*(t + 1))
     - (-8*t + 2*x - 4*pi)*exp(-(-4*t + x - 2*pi)**2/(4*nu*(t + 1)))
       /(4*nu*(t + 1))]. *)
Definition phiprime (t x nu : F) : F :=
  - (-8 * t + 2 * x)
    * exp (- pow2 (of_int (-4) * t + x) / (4 * nu * (t + of_int 1)))
    / (4 * nu * (t + of_int 1))
  - (-8 * t + 2 * x - 4 * pi)
    * exp (- pow2 (of_int (-4) * t + x - 2 * pi) / (4 * nu * (t + of_int 1)))
    / (4 * nu * (t + of_int 1)).

(** Cell 4: [u = -2 * nu * (phiprime / phi) + 4], lambdified to
    [ufunc(t, x, nu)]. *)
Definition analytical (t x nu : F) : F :=
  of_int (-2) * nu * (phiprime t x nu / phi t x nu) + 4.

End AnalyticalSolution.

(** The notebook in exact real arithmetic, on a machine that can build
    every array.  The content of [np.empty] is arbitrary; zeros stand for
    it. *)
Definition real_setup : Z -> Z -> R -> result (params R * list R * store R) :=
  setup PI (fun n => replicate n 0%R) analytical (fun _ => None).

Definition real_notebook : Z -> Z -> R -> result (list R * list R * list R) :=
  notebook PI (fun n => replicate n 0%R) analytical (fun _ => None).

(** The term of [phi] centred at [4 * t + a], in real arithmetic; [phi] is
    the sum of the terms with [a = 0] and [a = 2 * pi]. *)
Definition gaussian (a t x v : R) : R :=
  Rtrigo_def.exp (- (x - 4 * t - a) ^ 2 / (4 * v * (t + 1)))%R.

(** ** Interval arithmetic, to bound the notebook's numbers

    Closed intervals with fixed-point endpoints: the integer [z] stands for
    the real number [z / 2^320].  Every operation rounds its lower endpoint
    down and its upper endpoint up, so the interval computed for an
    expression contains the real number the expression denotes. *)

Definition prec : bigZ := 320%bigZ.
Definition scale : Z := (2 ^ 320)%Z.

(** The number of halvings of the argument in the bounds of [exp]. *)
Definition halvings : nat := 160.

Definition val (z : bigZ) : R := (IZR (BigZ.to_Z z) / IZR scale)%R.

(** The integer [z] read at scale [scale^2]. *)
Definition val2 (z : bigZ) : R := (IZR (BigZ.to_Z z) / IZR scale / IZR scale)%R.

Inductive itv : Type :=
| Top
| Bnd (lo hi : bigZ).

Definition contains (I : itv) (x : R) : Prop :=
  match I with
  | Top => True
  | Bnd lo hi => (val lo <= x <= val hi)%R
  end.

(** [z / 2^320] rounded down and up, and [z * 2^320]. *)
Definition down (z : bigZ) : bigZ := BigZ.shiftr z prec.
Definition up (z : bigZ) : bigZ := BigZ.opp (BigZ.shiftr (BigZ.opp z) prec).
Definition lift (z : bigZ) : bigZ := BigZ.shiftl z prec.

(** [x / y] rounded down and up, for [0 < y]. *)
Definition fdiv (x y : bigZ) : bigZ := BigZ.div x y.
Definition cdiv (x y : bigZ) : bigZ := BigZ.opp (BigZ.div (BigZ.opp x) y).

Definition min4 (a b c d : bigZ) : bigZ := BigZ.min (BigZ.min a b) (BigZ.min c d).
Definition max4 (a b c d : bigZ) : bigZ := BigZ.max (BigZ.max a b) (BigZ.max c d).

Definition iadd (I J : itv) : itv :=
  match I, J with
  | Bnd a b, Bnd c d => Bnd (BigZ.add a c) (BigZ.add b d)
  | _, _ => Top
  end.

Definition isub (I J : itv) : itv :=
  match I, J with
  | Bnd a b, Bnd c d => Bnd (BigZ.sub a d) (BigZ.sub b c)
  | _, _ => Top
  end.

Definition ineg (I : itv) : itv :=
  match I with
  | Bnd a b => Bnd (BigZ.opp b) (BigZ.opp a)
  | Top => Top
  end.

Definition imul (I J : itv) : itv :=
  match I, J with
  | Bnd a b, Bnd c d =>
      let ac := BigZ.mul a c in
      let ad := BigZ.mul a d in
      let bc := BigZ.mul b c in
      let bd := BigZ.mul b d in
      Bnd (down (min4 ac ad bc bd)) (up (max4 ac ad bc bd))
  | _, _ => Top
  end.

(** Division by an interval of positive numbers; [Top] otherwise. *)
Definition idiv (I J : itv) : itv :=
  match I, J with
  | Bnd a b, Bnd c d =>
      if BigZ.ltb 0 c then
        Bnd (fdiv (lift a) (if BigZ.leb 0 a then d else c))
            (cdiv (lift b) (if BigZ.leb 0 b then c else d))
      else Top
  | _, _ => Top
  end.

Definition isqr (I : itv) : itv :=
  match I with
  | Bnd a b =>
      if BigZ.leb 0 a then Bnd (down (BigZ.square a)) (up (BigZ.square b))
      else if BigZ.leb b 0 then Bnd (down (BigZ.square b)) (up (BigZ.square a))
      else Bnd 0%bigZ (up (BigZ.max (BigZ.square a) (BigZ.square b)))
  | Top => Top
  end.

Definition iof_int (z : Z) : itv :=
  let b := lift (BigZ.of_Z z) in Bnd b b.

(** [k] squarings, each rounded down. *)
Fixpoint square_down (k : nat) (b : bigZ) : bigZ :=
  match k with
  | O => b
  | S k' => square_down k' (down (BigZ.square b))
  end.

(** [x / 2^halvings], rounded down. *)
Definition halve (x : bigZ) : bigZ :=
  BigZ.shiftr x (BigZ.of_Z (Z.of_nat halvings)).

(** A lower bound of [exp t] for [a <= t]: [(1 + a/2^k)^(2^k)], or 0. *)
Definition exp_lower (a : bigZ) : bigZ :=
  let b := BigZ.add (lift 1%bigZ) (halve a) in
  if BigZ.ltb b 0 then 0%bigZ else square_down halvings b.

(** An upper bound of [exp t] for [t <= b <= 0]:
    [1 / (1 - b/2^k)^(2^k)]. *)
Definition exp_upper (b : bigZ) : bigZ :=
  cdiv (lift (lift 1%bigZ))
       (square_down halvings (BigZ.add (lift 1%bigZ) (halve (BigZ.opp b)))).

(** The exponential of an interval of non-positive numbers; [Top]
    otherwise. *)
Definition iexp (I : itv) : itv :=
  match I with
  | Bnd a b => if BigZ.leb b 0 then Bnd (exp_lower a) (exp_upper b) else Top
  | Top => Top
  end.

#[export] Instance itv_arith : Arith itv := {
  add := iadd;
  sub := isub;
  mul := imul;
  div := idiv;
  pow2 := isqr;
  of_int := iof_int;
  is_zero := fun I =>
    match I with
    | Bnd a b => negb (BigZ.ltb 0 a || BigZ.ltb b 0)
    | Top => true
    end;
  pow2_overflows := fun _ => false;
  int_overflows := fun _ => false
}.

(** The term of index [i] of the series
    [pi / 4 = 2 * atan (1/3) + atan (1/7)], without its sign:
    [2 / (3^n * n) + 1 / (7^n * n)] with [n = 2 * i + 1]. *)
Definition pi_term (i : nat) : itv :=
  let n := Z.of_nat (2 * i + 1) in
  iadd (idiv (iof_int 2) (iof_int (3 ^ n * n)))
       (idiv (iof_int 1) (iof_int (7 ^ n * n))).

(** The partial sum up to index [n] of the alternating series. *)
Fixpoint pi_sum (n : nat) : itv :=
  match n with
  | O => pi_term 0
  | S n' =>
      if Nat.even n then iadd (pi_sum n') (pi_term n)
      else isub (pi_sum n') (pi_term n)
  end.

(** From the lower end of [I] to the upper end of [J]. *)
Definition from_to (I J : itv) : itv :=
  match I, J with
  | Bnd l _, Bnd _ h => Bnd l h
  | _, _ => Top
  end.

(** [pi], between four times an odd partial sum and four times the even
    partial sum before it. *)
Definition pi_bounds : itv :=
  imul (iof_int 4) (from_to (pi_sum 105) (pi_sum 104)).

Definition ipi : itv := Eval vm_compute in pi_bounds.

#[export] Instance itv_analytic : Analytic itv := {
  neg := ineg;
  exp := iexp;
  pi := ipi
}.

(** The notebook on intervals: enclosures of the coordinates, of the
    computed field and of the analytical field, for the configuration of
    cell 5. *)
Definition itv_fields : list itv * list itv * list itv :=
  fields ipi analytical 101 100 (idiv (iof_int 7) (iof_int 100)).

(** [|x - y| < num / den] for all [x] in [I] and [y] in [J]. *)
Definition closer_than (num den : Z) (I J : itv) : bool :=
  match isub I J, idiv (iof_int num) (iof_int den) with
  | Bnd l h, Bnd q _ => BigZ.ltb (BigZ.opp q) l && BigZ.ltb h q
  | _, _ => false
  end.

(** [num / den < |x - y|] for all [x] in [I] and [y] in [J]. *)
Definition farther_than (num den : Z) (I J : itv) : bool :=
  match isub I J, idiv (iof_int num) (iof_int den) with
  | Bnd l h, Bnd _ q => BigZ.ltb q l || BigZ.ltb h (BigZ.opp q)
  | _, _ => false
  end.

(** [f i a b] for the entries [a] and [b] at every position [i] of two
    lists of the same length, counting from [i0]. *)
Fixpoint all2_from {A B} (f : nat -> A -> B -> bool) (i0 : nat)
    (l : list A) (k : list B) : bool :=
  match l, k with
  | [], [] => true
  | a :: l', b :: k' => f i0 a b && all2_from f (S i0) l' k'
  | _, _ => false
  end.

(** The grid points at the shock of the computed field. *)
Definition at_shock (i : nat) : bool := (72 <=? i)%nat && (i <=? 79)%nat.

(** What is checked at grid point [i] on the enclosures of the computed
    and of the analytical value: off the shock they are closer than 0.5;
    at the shock they are farther apart than 0.5 and closer than 3.76, and
    at grid point 76 farther apart than 3.75. *)
Definition tolerance_at (i : nat) (I J : itv) : bool :=
  if at_shock i then
    farther_than 50 100 I J && closer_than 376 100 I J
    && (if (i =? 76)%nat then farther_than 375 100 I J else true)
  else closer_than 50 100 I J.

(** The check at every grid point, on two fields of 101 entries. *)
Definition verdict (r : list itv * list itv * list itv) : bool :=
  (length r.1.2 =? 101)%nat && (length r.2 =? 101)%nat
  && all2_from tolerance_at 0 r.1.2 r.2.

(** The deviation the claim asks for off the shock, and what holds at the
    shock instead, for the computed value [a] and the analytical value
    [b] at grid point [i]. *)
Definition deviation_at (i : nat) (a b : R) : Prop :=
  ((i < 72 \/ 79 < i)%nat -> (Rabs (a - b) < 1 / 2)%R) /\
  ((72 <= i <= 79)%nat -> (1 / 2 < Rabs (a - b) < 376 / 100)%R) /\
  (i = 76%nat -> (375 / 100 < Rabs (a - b))%R).

(** ** A small binary64 instance, to run the model *)

Definition demo_params : params float :=
  Params 5 3 0.5%float 0.25%float 0.125%float.

Definition demo_store : store float :=
  Store [1%float; 2%float; 4%float; 2%float; 1%float] [] [].

(** ** A small instance in real arithmetic *)

Definition real_demo_params : params R :=
  Params 3 2 1%R (1 / 4)%R (1 / 4)%R.

Definition real_demo_store : store R :=
  Store [1%R; 2%R; 1%R] [] [].

(** ** Relating two arithmetics

    A relation between two carriers that every operation preserves; the
    notebook, being built from the operations alone, then maps related
    inputs to related outputs.  The instance used below relates an
    interval to the real numbers it contains. *)

Class ArithRel {F G : Type} `{Arith F} `{Arith G} (rel : F -> G -> Prop) : Prop := {
  rel_add : forall a a' b b', rel a a' -> rel b b' -> rel (add a b) (add a' b');
  rel_sub : forall a a' b b', rel a a' -> rel b b' -> rel (sub a b) (sub a' b');
  rel_mul : forall a a' b b', rel a a' -> rel b b' -> rel (mul a b) (mul a' b');
  rel_div : forall a a' b b', rel a a' -> rel b b' -> rel (div a b) (div a' b');
  rel_pow2 : forall a a', rel a a' -> rel (pow2 a) (pow2 a');
  rel_of_int : forall z, rel (of_int z) (of_int z)
}.

Class AnalyticRel {F G : Type} `{Analytic F} `{Analytic G} (rel : F -> G -> Prop) : Prop := {
  rel_neg : forall a a', rel a a' -> rel (neg a) (neg a');
  rel_exp : forall a a', rel a a' -> rel (exp a) (exp a');
  rel_pi : rel pi pi
}.

Definition params_rel {F G : Type} (rel : F -> G -> Prop)
    (p : params F) (q : params G) : Prop :=
  nx p = nx q /\ nt p = nt q /\
  rel (dx p) (dx q) /\ rel (nu p) (nu q) /\ rel (dt p) (dt q).

(** ** The periodic ring *)

Section Ring.
Context {F : Type} `{Arith F}.
Variable p : params F.

#[local] Existing Instance arith_inhabited.

(** A periodic field stores the first of its values once more at the end
    (line 150).  [closed v] is the field of the values [v] around the
    ring, and [ring w] the values of the field [w]. *)
Definition closed (v : list F) : list F := v ++ take 1 v.

Definition ring (w : list F) : list F := take (length w - 1) w.

(** The field [w] with its seam moved [k] grid points along the ring. *)
Definition reseam (k : nat) (w : list F) : list F := closed (rotate k (ring w)).

(** The stencil of lines 147 and 149 at every point of the ring, with the
    neighbours taken around it. *)
Definition ring_step (v : list F) : list F :=
  (fun i => burgers p (v !!! ((i + length v - 1) mod length v)%nat)
                      (v !!! i)
                      (v !!! ((i + 1) mod length v)%nat))
    <$> seq 0 (length v).

End Ring.

(** The sum of the entries of a list of reals. *)
Definition total (l : list R) : R := foldr Rplus 0%R l.

(** * Properties of the time-marching loop *)

Section CoreFacts.
Context {F : Type} `{Arith F}.
Local Open Scope arith_scope.
Variable p : params F.

#[local] Existing Instance arith_inhabited.

Lemma resolve_nonneg (len : nat) (i : Z) :
  (0 <= i < Z.of_nat len)%Z -> resolve len i = Some (Z.to_nat i).
Proof.
  intros Hi. unfold resolve.
  destruct (Z.ltb_spec i 0); [lia|].
  destruct (Z.leb_spec 0 i); [|lia].
  destruct (Z.ltb_spec i (Z.of_nat len)); [|lia]. reflexivity.
Qed.

Lemma resolve_neg (len : nat) (i : Z) :
  (- Z.of_nat len <= i < 0)%Z ->
  resolve len i = Some (Z.to_nat (i + Z.of_nat len)).
Proof.
  intros Hi. unfold resolve.
  destruct (Z.ltb_spec i 0); [|lia].
  destruct (Z.leb_spec 0 (i + Z.of_nat len)); [|lia].
  destruct (Z.ltb_spec (i + Z.of_nat len) (Z.of_nat len)); [|lia]. reflexivity.
Qed.

Lemma resolve_lt (len : nat) (i : Z) (k : nat) :
  resolve len i = Some k -> (k < len)%nat.
Proof.
  unfold resolve. intros Hr.
  destruct (Z.ltb_spec i 0);
    repeat case_match; simplify_eq; lia.
Qed.

Lemma getitem_ok (a : array) (i : Z) (k : nat) (s : store F) :
  resolve (length (sel a s)) i = Some k ->
  getitem a i s = Ok (sel a s !!! k, log (Read a k) s).
Proof.
  intros Hr. unfold getitem. rewrite Hr.
  rewrite (list_lookup_lookup_total_lt (sel a s) k) by (eapply resolve_lt; eauto).
  reflexivity.
Qed.

Lemma getitem_raise (a : array) (i : Z) (s : store F) :
  resolve (length (sel a s)) i = None -> getitem a i s = Raise IndexError.
Proof. intros Hr. unfold getitem. rewrite Hr. reflexivity. Qed.

Lemma setitem_ok (a : array) (i : Z) (k : nat) (v : F) (s : store F) :
  resolve (length (sel a s)) i = Some k ->
  setitem a i v s = Ok (tt, log (Write a k) (upd a (<[k:=v]> (sel a s)) s)).
Proof. intros Hr. unfold setitem. rewrite Hr. reflexivity. Qed.

Lemma bind_ok {A B} (m : M F A) (k : A -> M F B) (s s' : store F) (a : A) :
  m s = Ok (a, s') -> bind m k s = k a s'.
Proof. intros Hm. unfold bind. rewrite Hm. reflexivity. Qed.

Lemma bind_raise {A B} (m : M F A) (k : A -> M F B) (s : store F) (e : exn) :
  m s = Raise e -> bind m k s = Raise e.
Proof. intros Hm. unfold bind. rewrite Hm. reflexivity. Qed.

(** With a valid spacing, [nu * dt / dx**2] raises nothing. *)
Lemma py_coefficient_ok {A} (k : F -> M F A) (s : store F) :
  valid_spacing p ->
  bind (py_pow2 (dx p)) (fun q => bind (py_div (nu p * dt p) q) k) s
  = k (nu p * dt p / pow2 (dx p)) s.
Proof.
  intros [Hov Hz]. unfold bind, py_pow2, py_div. rewrite Hov. cbn.
  rewrite Hz. reflexivity.
Qed.

(** With a degenerate spacing it raises. *)
Lemma py_coefficient_raise {A} (k : F -> M F A) (s : store F) :
  ~ valid_spacing p ->
  exists e : exn,
    bind (py_pow2 (dx p)) (fun q => bind (py_div (nu p * dt p) q) k) s = Raise e /\
    (e = OverflowError \/ e = ZeroDivisionError).
Proof.
  intros Hv. unfold valid_spacing in Hv. unfold bind, py_pow2, py_div.
  destruct (pow2_overflows (dx p)) eqn:Hov.
  - exists OverflowError. split; [reflexivity|left; reflexivity].
  - cbn. destruct (is_zero (pow2 (dx p))) eqn:Hz.
    + exists ZeroDivisionError. split; [reflexivity|right; reflexivity].
    + exfalso. apply Hv. split; reflexivity.
Qed.

Ltac read_ok pos :=
  erewrite bind_ok by (apply (getitem_ok _ _ pos); cbn [sel log un u];
                       first [ apply resolve_nonneg; lia
                             | rewrite resolve_neg by lia; f_equal; lia ]);
  cbn [sel log un u].

(** One execution of line 147 at an interior position. *)
Lemma interior_ok (i : Z) (s : store F) :
  valid_spacing p ->
  (1 <= i)%Z -> (i + 1 < Z.of_nat (length (un s)))%Z ->
  (i < Z.of_nat (length (u s)))%Z ->
  interior p i s =
    Ok (tt, Store (<[Z.to_nat i := interior_value p (un s) (Z.to_nat i)]> (u s))
                  (un s)
                  (trace s ++ interior_trace (Z.to_nat i))).
Proof.
  intros Hv H1 H2 H3. unfold interior.
  read_ok (Z.to_nat i). read_ok (Z.to_nat i). read_ok (Z.to_nat i).
  read_ok (Z.to_nat (i - 1)).
  rewrite py_coefficient_ok by exact Hv.
  read_ok (Z.to_nat (i + 1)). read_ok (Z.to_nat i). read_ok (Z.to_nat (i - 1)).
  rewrite setitem_ok with (k := Z.to_nat i)
    by (apply resolve_nonneg; cbn [sel u log]; lia).
  unfold log, upd; cbn [sel u un trace].
  unfold interior_value, burgers, interior_trace.
  replace (Z.to_nat (i - 1)) with (Z.to_nat i - 1)%nat by lia.
  replace (Z.to_nat (i + 1)) with (Z.to_nat i + 1)%nat by lia.
  rewrite <- !app_assoc. reflexivity.
Qed.

(** Line 149 on arrays with at least two entries. *)
Lemma boundary_ok (s : store F) :
  valid_spacing p ->
  (2 <= length (un s))%nat -> (1 <= length (u s))%nat ->
  boundary p s =
    Ok (tt, Store (<[0%nat := boundary_value p (un s)]> (u s))
                  (un s)
                  (trace s ++ boundary_trace (length (un s)))).
Proof.
  intros Hv H1 H2. unfold boundary.
  read_ok 0%nat. read_ok 0%nat. read_ok 0%nat.
  read_ok (length (un s) - 2)%nat.
  rewrite py_coefficient_ok by exact Hv.
  read_ok 1%nat. read_ok 0%nat. read_ok (length (un s) - 2)%nat.
  rewrite setitem_ok with (k := 0%nat)
    by (apply (resolve_nonneg _ 0); cbn [sel u log]; lia).
  unfold log, upd; cbn [sel u un trace].
  unfold boundary_value, burgers, boundary_trace.
  rewrite <- !app_assoc. reflexivity.
Qed.

(** With a degenerate spacing lines 147 and 149 raise after the reads of
    the convection term, none of them out of bounds. *)
Lemma interior_degenerate (i : Z) (s : store F) :
  ~ valid_spacing p ->
  (1 <= i)%Z -> (i < Z.of_nat (length (un s)))%Z ->
  exists e : exn,
    interior p i s = Raise e /\ (e = OverflowError \/ e = ZeroDivisionError).
Proof.
  intros Hv H1 H2. unfold interior.
  read_ok (Z.to_nat i). read_ok (Z.to_nat i). read_ok (Z.to_nat i).
  read_ok (Z.to_nat (i - 1)).
  apply py_coefficient_raise. exact Hv.
Qed.

Lemma boundary_degenerate (s : store F) :
  ~ valid_spacing p ->
  (2 <= length (un s))%nat ->
  exists e : exn,
    boundary p s = Raise e /\ (e = OverflowError \/ e = ZeroDivisionError).
Proof.
  intros Hv H1. unfold boundary.
  read_ok 0%nat. read_ok 0%nat. read_ok 0%nat.
  read_ok (length (un s) - 2)%nat.
  apply py_coefficient_raise. exact Hv.
Qed.

(** Line 150 on a non-empty array. *)
Lemma wrap_ok (s : store F) :
  (1 <= length (u s))%nat ->
  wrap s =
    Ok (tt, Store (<[(length (u s) - 1)%nat := u s !!! 0%nat]> (u s))
                  (un s)
                  (trace s ++ wrap_trace (length (u s)))).
Proof.
  intros H1. unfold wrap, bind.
  rewrite getitem_ok with (k := 0%nat)
    by (apply (resolve_nonneg _ 0); simpl; lia); simpl.
  rewrite setitem_ok with (k := (length (u s) - 1)%nat)
    by (simpl; rewrite resolve_neg by lia; f_equal; lia).
  unfold log, upd; simpl. unfold wrap_trace.
  rewrite <- !app_assoc. reflexivity.
Qed.

Lemma swept_snoc (w : list F) (order : list Z) (i : Z) (v : list F) :
  swept p w (order ++ [i]) v =
  <[Z.to_nat i := interior_value p w (Z.to_nat i)]> (swept p w order v).
Proof. unfold swept. rewrite foldl_app. reflexivity. Qed.

Lemma swept_length (w : list F) (order : list Z) (v : list F) :
  length (swept p w order v) = length v.
Proof.
  revert v. induction order as [|i order IH]; intros v; [reflexivity|].
  simpl. rewrite IH. apply length_insert.
Qed.

Lemma swept_lookup_in (w : list F) (order : list Z) (v : list F) (k : nat) :
  Forall (fun i => (0 <= i)%Z) order ->
  Z.of_nat k ∈ order -> (k < length v)%nat ->
  swept p w order v !! k = Some (interior_value p w k).
Proof.
  induction order as [|i order IH] using rev_ind; intros Hpos Hin Hk.
  - inversion Hin.
  - rewrite swept_snoc. apply Forall_app in Hpos as [Hpos Hi].
    apply Forall_inv in Hi. cbv beta in Hi.
    destruct (decide (Z.to_nat i = k)) as [<-|Hne].
    + apply list_lookup_insert_eq. rewrite swept_length.
      exact Hk.
    + rewrite list_lookup_insert_ne by exact Hne.
      apply IH; [exact Hpos| |exact Hk].
      apply elem_of_app in Hin as [Hin|Hin]; [exact Hin|].
      apply list_elem_of_singleton in Hin. lia.
Qed.

Lemma swept_lookup_notin (w : list F) (order : list Z) (v : list F) (k : nat) :
  Forall (fun i => (0 <= i)%Z) order ->
  Z.of_nat k ∉ order ->
  swept p w order v !! k = v !! k.
Proof.
  induction order as [|i order IH] using rev_ind; intros Hpos Hin.
  - reflexivity.
  - rewrite swept_snoc. apply Forall_app in Hpos as [Hpos Hi].
    apply Forall_inv in Hi. cbv beta in Hi.
    rewrite not_elem_of_app in Hin. destruct Hin as [Hin Hi'].
    rewrite list_lookup_insert_ne.
    + apply IH; assumption.
    + intros <-. apply Hi'. apply list_elem_of_singleton. lia.
Qed.

(** The sweep over any list of interior positions succeeds; every
    assignment reads the snapshot. *)
Lemma sweep_ok (order : list Z) (s : store F) :
  valid_spacing p ->
  Forall (fun i => (1 <= i)%Z /\ (i + 1 < Z.of_nat (length (un s)))%Z) order ->
  length (u s) = length (un s) ->
  sweep p order s =
    Ok (tt, Store (swept p (un s) order (u s)) (un s)
                  (trace s ++ sweep_trace order)).
Proof.
  intros Hv. revert s. induction order as [|i order IH]; intros s Hall Hlen.
  - unfold sweep, sweep_trace. simpl. unfold ret. rewrite app_nil_r.
    destruct s; reflexivity.
  - apply Forall_cons in Hall as [[Hi1 Hi2] Hall].
    unfold sweep in *. simpl. unfold bind at 1.
    rewrite interior_ok by (assumption || lia).
    rewrite IH; simpl.
    + unfold sweep_trace. simpl. rewrite <- app_assoc. reflexivity.
    + exact Hall.
    + rewrite length_insert. exact Hlen.
Qed.

Lemma next_field_length (w : list F) :
  (2 <= length w)%nat -> length (next_field p w) = length w.
Proof.
  intros Hn. unfold next_field. simpl.
  rewrite length_app, length_fmap, length_seq. simpl. lia.
Qed.

Lemma next_field_lookup_0 (w : list F) :
  next_field p w !! 0%nat = Some (boundary_value p w).
Proof. reflexivity. Qed.

Lemma next_field_lookup_interior (w : list F) (k : nat) :
  (1 <= k)%nat -> (k + 2 <= length w)%nat ->
  next_field p w !! k = Some (interior_value p w k).
Proof.
  intros H1 H2. unfold next_field.
  destruct k as [|k]; [lia|]. simpl.
  rewrite lookup_app_l by (rewrite length_fmap, length_seq; lia).
  rewrite list_lookup_fmap, lookup_seq_lt by lia. reflexivity.
Qed.

Lemma next_field_lookup_last (w : list F) :
  (2 <= length w)%nat ->
  next_field p w !! (length w - 1)%nat = Some (boundary_value p w).
Proof.
  intros Hn. unfold next_field.
  destruct (length w - 1)%nat as [|k] eqn:Hk; [lia|]. simpl.
  rewrite lookup_app_r by (rewrite length_fmap, length_seq; lia).
  rewrite length_fmap, length_seq.
  replace (k - (length w - 2))%nat with 0%nat by lia. reflexivity.
Qed.

Lemma covers_range (n : nat) : covers n (range 1 (Z.of_nat n - 1)).
Proof.
  intros i. unfold range. rewrite elem_of_seqZ. lia.
Qed.

Lemma covers_perm (n : nat) (order : list Z) :
  order ≡ₚ range 1 (Z.of_nat n - 1) -> covers n order.
Proof.
  intros Hp i. rewrite Hp. apply covers_range.
Qed.

Lemma covers_interior (n : nat) (order : list Z) :
  covers n order ->
  Forall (fun i => (1 <= i)%Z /\ (i + 1 < Z.of_nat n)%Z) order.
Proof.
  intros Hc. apply Forall_forall. intros i Hi. apply Hc in Hi. lia.
Qed.

(** After a sweep that covers the interior, the boundary update and the
    wrap, the array is [next_field] of the snapshot. *)
Lemma stepped_next_field (w : list F) (order : list Z) :
  (2 <= length w)%nat -> covers (length w) order ->
  <[(length w - 1)%nat := boundary_value p w]>
    (<[0%nat := boundary_value p w]> (swept p w order w)) = next_field p w.
Proof.
  intros Hn Hc.
  assert (Hpos : Forall (fun i => (0 <= i)%Z) order).
  { apply Forall_forall. intros i Hi. apply Hc in Hi. lia. }
  apply list_eq. intros k.
  destruct (decide (k = length w - 1)%nat) as [->|Hlast].
  { rewrite list_lookup_insert_eq
      by (rewrite length_insert, swept_length; lia).
    symmetry. apply next_field_lookup_last. exact Hn. }
  rewrite list_lookup_insert_ne by congruence.
  destruct (decide (k = 0)%nat) as [->|Hfirst].
  { rewrite list_lookup_insert_eq by (rewrite swept_length; lia).
    reflexivity. }
  rewrite list_lookup_insert_ne by congruence.
  destruct (decide (k < length w)%nat) as [Hlt|Hge].
  - rewrite swept_lookup_in; [|exact Hpos| |exact Hlt].
    + symmetry. apply next_field_lookup_interior; lia.
    + apply Hc. lia.
  - rewrite swept_lookup_notin; [|exact Hpos|].
    + rewrite (lookup_ge_None_2 w) by lia. symmetry.
      apply lookup_ge_None_2. rewrite next_field_length; lia.
    + intros Hin. apply Hc in Hin. lia.
Qed.

(** One time step whose sweep covers the interior, on a field with at
    least two entries: no exception, the new field is [next_field] of the
    old one, [un] holds the old one. *)
Lemma time_step_in_ok (order : list Z) (s : store F) :
  valid_spacing p ->
  (2 <= length (u s))%nat -> covers (length (u s)) order ->
  time_step_in p order s =
    Ok (tt, Store (next_field p (u s)) (u s)
              (trace s ++ Copy :: sweep_trace order
                 ++ boundary_trace (length (u s)) ++ wrap_trace (length (u s)))).
Proof.
  intros Hv Hn Hc. unfold time_step_in, bind, copy. simpl.
  rewrite sweep_ok; simpl; [|exact Hv| |reflexivity].
  2:{ apply covers_interior. exact Hc. }
  rewrite boundary_ok; simpl; [|exact Hv| lia | rewrite swept_length; lia].
  rewrite wrap_ok; simpl; [| rewrite length_insert, swept_length; lia].
  rewrite length_insert, swept_length.
  rewrite list_lookup_total_insert_eq by (rewrite swept_length; lia).
  rewrite stepped_next_field by assumption.
  rewrite <- !app_assoc. reflexivity.
Qed.

Lemma time_step_ok (s : store F) :
  valid_spacing p ->
  (2 <= length (u s))%nat -> nx p = Z.of_nat (length (u s)) ->
  time_step p s =
    Ok (tt, Store (next_field p (u s)) (u s)
              (trace s ++ step_trace (length (u s)))).
Proof.
  intros Hv Hn Hnx. unfold time_step. rewrite Hnx.
  rewrite time_step_in_ok; [reflexivity|exact Hv|exact Hn|apply covers_range].
Qed.

(** One time step with a degenerate spacing raises [OverflowError] or
    [ZeroDivisionError], not [IndexError]. *)
Lemma time_step_degenerate (s : store F) :
  ~ valid_spacing p ->
  (2 <= length (u s))%nat -> nx p = Z.of_nat (length (u s)) ->
  exists e : exn,
    time_step p s = Raise e /\ (e = OverflowError \/ e = ZeroDivisionError).
Proof.
  intros Hv Hn Hnx. unfold time_step, time_step_in.
  rewrite (bind_ok copy _ s (log Copy (upd UN (u s) s)) tt) by reflexivity.
  set (s1 := log Copy (upd UN (u s) s)).
  assert (Hun : un s1 = u s) by reflexivity.
  unfold sweep. destruct (range 1 (nx p - 1)) as [|i l] eqn:Hr; cbn [for_].
  - rewrite (bind_ok (ret tt) _ s1 s1 tt) by reflexivity.
    destruct (boundary_degenerate s1 Hv) as (e & He & Hcase);
      [rewrite Hun; exact Hn|].
    exists e. split; [|exact Hcase]. apply bind_raise. exact He.
  - assert (Hi : i ∈ range 1 (nx p - 1)) by (rewrite Hr; left).
    unfold range in Hi. apply elem_of_seqZ in Hi.
    destruct (interior_degenerate i s1 Hv) as (e & He & Hcase);
      [lia|rewrite Hun; lia|].
    exists e. split; [|exact Hcase]. apply bind_raise, bind_raise. exact He.
Qed.

Lemma field_after_succ_r (k : nat) (w : list F) :
  field_after p k (next_field p w) = field_after p (S k) w.
Proof. unfold field_after. symmetry. apply Nat.iter_succ_r. Qed.

Lemma field_after_length (k : nat) (w : list F) :
  (2 <= length w)%nat -> length (field_after p k w) = length w.
Proof.
  intros Hn. induction k as [|k IH]; [reflexivity|].
  change (length (next_field p (field_after p k w)) = length w).
  rewrite next_field_length; lia.
Qed.

(** [k] executions of the loop body, whatever the loop variable ranges
    over: the field is advanced [k] times and the trace grows by [k] full
    step traces. *)
Lemma for_time_step_ok {A} (l : list A) (s : store F) :
  valid_spacing p ->
  (2 <= length (u s))%nat -> nx p = Z.of_nat (length (u s)) ->
  for_ l (fun _ => time_step p) s =
    Ok (tt, Store (field_after p (length l) (u s))
              (match length l with
               | O => un s
               | S k => field_after p k (u s)
               end)
              (trace s ++ mjoin (replicate (length l) (step_trace (length (u s)))))).
Proof.
  intros Hv. revert s. induction l as [|x l IH]; intros s Hn Hnx.
  - simpl. unfold ret. rewrite app_nil_r. destruct s; reflexivity.
  - simpl. unfold bind. rewrite time_step_ok by assumption.
    rewrite IH; cbn [u un trace];
      [| rewrite next_field_length; lia
       | rewrite next_field_length; [exact Hnx|lia] ].
    rewrite next_field_length by lia. cbn [length].
    rewrite field_after_succ_r, <- app_assoc.
    destruct (length l) as [|k]; [reflexivity|].
    rewrite field_after_succ_r. reflexivity.
Qed.

Lemma range_length (a b : Z) : length (range a b) = Z.to_nat (b - a).
Proof. unfold range. apply length_seqZ. Qed.

Lemma run_ok (k : Z) (s : store F) :
  valid_spacing p ->
  (2 <= length (u s))%nat -> nx p = Z.of_nat (length (u s)) ->
  run p k s =
    Ok (tt, Store (field_after p (Z.to_nat k) (u s))
              (match Z.to_nat k with
               | O => un s
               | S k' => field_after p k' (u s)
               end)
              (trace s ++ mjoin (replicate (Z.to_nat k) (step_trace (length (u s)))))).
Proof.
  intros Hv Hn Hnx. unfold run. rewrite for_time_step_ok by assumption.
  rewrite range_length. replace (Z.to_nat (k - 0)) with (Z.to_nat k) by lia.
  reflexivity.
Qed.

Lemma for_app {A} (l1 l2 : list A) (body : A -> M F unit) (s : store F) :
  for_ (l1 ++ l2) body s = bind (for_ l1 body) (fun _ => for_ l2 body) s.
Proof.
  revert s. induction l1 as [|x l1 IH]; intros s; [reflexivity|].
  simpl. unfold bind. destruct (body x s) as [[[] s']|e]; [|reflexivity].
  rewrite IH. reflexivity.
Qed.

Lemma range_split (a k b : Z) :
  (a <= k <= b)%Z -> range a b = range a k ++ range k b.
Proof.
  intros Hk. unfold range.
  replace (b - a)%Z with ((k - a) + (b - k))%Z by lia.
  rewrite seqZ_app by lia. do 2 f_equal. lia.
Qed.

(** The loop over [range(n)] is the loop over [range(k)] followed by the
    iterations [k, ..., n-1]. *)
Lemma run_split (k n : Z) (s : store F) :
  (0 <= k <= n)%Z ->
  run p n s = bind (run p k) (fun _ => for_ (range k n) (fun _ => time_step p)) s.
Proof.
  intros Hk. unfold run. rewrite (range_split 0 k n) by lia. apply for_app.
Qed.


Lemma run_succ (k : Z) (s : store F) :
  (0 <= k)%Z -> run p (k + 1) s = bind (run p k) (fun _ => time_step p) s.
Proof.
  intros Hk. rewrite (run_split k (k + 1)) by lia. unfold bind.
  destruct (run p k s) as [[[] s']|e]; [|reflexivity].
  unfold range. replace (k + 1 - k)%Z with 1%Z by lia. simpl.
  unfold bind, ret. destruct (time_step p s') as [[[] s'']|e]; reflexivity.
Qed.

(** The [(k+1)]-th time step of a run on a field with at least two
    entries, as a step from the store after [k] steps. *)
Lemma step_of_run (s0 : store F) (k : nat) :
  valid_spacing p ->
  nx p = Z.of_nat (length (u s0)) -> (2 <= nx p)%Z ->
  exists s s' : store F,
    run p (Z.of_nat k) s0 = Ok (tt, s) /\
    time_step p s = Ok (tt, s') /\
    run p (Z.of_nat k + 1) s0 = Ok (tt, s') /\
    length (u s) = length (u s0) /\
    un s' = u s /\
    u s' = next_field p (u s) /\
    trace s' = trace s ++ step_trace (length (u s0)).
Proof.
  intros Hv Hnx Hn.
  assert (Hlen : (2 <= length (u s0))%nat) by lia.
  pose proof (run_ok (Z.of_nat k) s0 Hv Hlen Hnx) as Hrun.
  set (s := Store _ _ _) in Hrun.
  assert (Hs : length (u s) = length (u s0)).
  { subst s. cbn [u]. apply field_after_length. exact Hlen. }
  pose proof (time_step_ok s) as Hstep.
  rewrite Hs in Hstep. specialize (Hstep Hv Hlen Hnx).
  eexists s, _. split; [exact Hrun|]. split; [exact Hstep|].
  split; [|cbn [u un trace]; rewrite ?Hs; auto].
  rewrite run_succ by lia. unfold bind. rewrite Hrun. exact Hstep.
Qed.

(** *** The outcome does not depend on the trace *)

Lemma oblivious_ret {A} (a : A) : oblivious (ret (F := F) a).
Proof. intros s1 s2 Hs. simpl. auto. Qed.

Lemma oblivious_raise {A} (e : exn) : oblivious (raise (F := F) (A := A) e).
Proof. intros s1 s2 Hs. reflexivity. Qed.

Lemma oblivious_bind {A B} (m : M F A) (k : A -> M F B) :
  oblivious m -> (forall a, oblivious (k a)) -> oblivious (bind m k).
Proof.
  intros Hm Hk s1 s2 Hs. unfold bind. specialize (Hm s1 s2 Hs).
  destruct (m s1) as [[a1 s1']|e1], (m s2) as [[a2 s2']|e2];
    simpl in Hm; try contradiction; [|exact Hm].
  destruct Hm as [<- Hs']. apply Hk. exact Hs'.
Qed.

Lemma agree_sel (a : array) (s1 s2 : store F) :
  agree s1 s2 -> sel a s1 = sel a s2.
Proof. intros [Hu Hun]. destruct a; assumption. Qed.

Lemma oblivious_getitem (a : array) (i : Z) : oblivious (getitem (F := F) a i).
Proof.
  intros s1 s2 Hs. unfold getitem. rewrite (agree_sel a s1 s2 Hs).
  destruct (resolve _ i) as [k|]; [|reflexivity].
  destruct (sel a s2 !! k); [|reflexivity].
  simpl. split; [reflexivity|]. exact Hs.
Qed.

Lemma oblivious_setitem (a : array) (i : Z) (v : F) : oblivious (setitem (F := F) a i v).
Proof.
  intros s1 s2 Hs. unfold setitem. rewrite (agree_sel a s1 s2 Hs).
  destruct (resolve _ i) as [k|]; [|reflexivity].
  simpl. split; [reflexivity|].
  destruct Hs as [Hu Hun]. destruct a; split; simpl; congruence.
Qed.

Lemma oblivious_py_pow2 (x : F) : oblivious (py_pow2 x).
Proof.
  unfold py_pow2. destruct (pow2_overflows x);
    [apply oblivious_raise|apply oblivious_ret].
Qed.

Lemma oblivious_py_div (x y : F) : oblivious (py_div x y).
Proof.
  unfold py_div. destruct (is_zero y);
    [apply oblivious_raise|apply oblivious_ret].
Qed.

Lemma oblivious_for {A} (l : list A) (body : A -> M F unit) :
  (forall x, oblivious (body x)) -> oblivious (for_ l body).
Proof.
  intros Hb. induction l as [|x l IH]; simpl.
  - apply oblivious_ret.
  - apply oblivious_bind; [apply Hb|]. intros _. exact IH.
Qed.

Lemma oblivious_interior (i : Z) : oblivious (interior p i).
Proof.
  unfold interior.
  repeat (apply oblivious_bind;
            [first [apply oblivious_getitem|apply oblivious_py_pow2
                   |apply oblivious_py_div]|intros ?]).
  apply oblivious_setitem.
Qed.

Lemma oblivious_boundary : oblivious (boundary p).
Proof.
  unfold boundary.
  repeat (apply oblivious_bind;
            [first [apply oblivious_getitem|apply oblivious_py_pow2
                   |apply oblivious_py_div]|intros ?]).
  apply oblivious_setitem.
Qed.

Lemma oblivious_wrap : oblivious (wrap (F := F)).
Proof.
  unfold wrap. apply oblivious_bind; [apply oblivious_getitem|intros ?].
  apply oblivious_setitem.
Qed.

Lemma oblivious_after_copy (order : list Z) :
  oblivious (bind (sweep p order) (fun _ => bind (boundary p) (fun _ => wrap))).
Proof.
  apply oblivious_bind; [apply oblivious_for; apply oblivious_interior|intros _].
  apply oblivious_bind; [apply oblivious_boundary|intros _].
  apply oblivious_wrap.
Qed.

(** A time step overwrites [un] before it reads it: its outcome depends
    on [u] only. *)
Lemma time_step_in_same (order : list Z) (s1 s2 : store F) :
  u s1 = u s2 ->
  same_outcome (time_step_in p order s1) (time_step_in p order s2).
Proof.
  intros Hu.
  apply (oblivious_after_copy order
           (log Copy (upd UN (u s1) s1)) (log Copy (upd UN (u s2) s2))).
  split; simpl; exact Hu.
Qed.

Lemma for_time_step_same {A} (l : list A) (s1 s2 : store F) :
  u s1 = u s2 ->
  match for_ l (fun _ => time_step p) s1, for_ l (fun _ => time_step p) s2 with
  | Ok (_, s1'), Ok (_, s2') => u s1' = u s2'
  | Raise e1, Raise e2 => e1 = e2
  | _, _ => False
  end.
Proof.
  revert s1 s2. induction l as [|x l IH]; intros s1 s2 Hu; [exact Hu|].
  simpl. unfold bind. pose proof (time_step_in_same (range 1 (nx p - 1)) s1 s2 Hu) as Hstep.
  fold (time_step p) in Hstep.
  destruct (time_step p s1) as [[[] s1']|e1], (time_step p s2) as [[[] s2']|e2];
    simpl in Hstep; try contradiction; [|exact Hstep].
  apply IH. apply Hstep.
Qed.

End CoreFacts.

(** * The claims about the time-marching loop *)

Section CoreClaims.
Context {F : Type} `{Arith F}.
Local Open Scope arith_scope.
Variable p : params F.

#[local] Existing Instance arith_inhabited.

Notation "2" := (of_int 2) : arith_scope.

(** C1.  In every time step of a run (the step after [k] earlier ones) and
    at every interior index [i] with [1 <= i <= nx - 2], the new value
    [u[i]] is the explicit Burgers' update of the previous-step snapshot
    [un]: the centre value, minus the backward-difference convection term
    scaled by the centre value, plus the central-difference diffusion term
    scaled by the viscosity.  In every arithmetic the value is the
    expression of line 147 with Python's left-to-right grouping,
    [(un[i] * dt) / dx] and [(nu * dt) / dx**2]; where division is exact
    ([a * b / d = a * (b / d)], as in real arithmetic) it is the same with
    the factors [dt / dx] and [dt / dx**2] grouped.  The spacing is
    assumed valid: otherwise [nu * dt / dx**2] raises. *)
Theorem interior_update_formula (s0 : store F) (k i : nat) :
  valid_spacing p ->
  nx p = Z.of_nat (length (u s0)) ->
  (1 <= Z.of_nat i <= nx p - 2)%Z ->
  exists s s' : store F,
    run p (Z.of_nat k) s0 = Ok (tt, s) /\
    time_step p s = Ok (tt, s') /\
    run p (Z.of_nat k + 1) s0 = Ok (tt, s') /\
    un s' = u s /\
    exists l c r : F,
      un s' !! (i - 1)%nat = Some l /\
      un s' !! i = Some c /\
      un s' !! (i + 1)%nat = Some r /\
      u s' !! i =
        Some (c - c * dt p / dx p * (c - l)
              + nu p * dt p / pow2 (dx p) * (r - 2 * c + l)) /\
      ((forall a b d : F, a * b / d = a * (b / d)) ->
       u s' !! i =
         Some (c - c * (dt p / dx p) * (c - l)
               + nu p * (dt p / pow2 (dx p)) * (r - 2 * c + l))).
Proof.
  intros Hv Hnx Hi.
  destruct (step_of_run p s0 k Hv Hnx ltac:(lia))
    as (s & s' & Hrun & Hstep & Hrun' & Hlen & Hun & Hu & _).
  exists s, s'. repeat (split; [assumption|]).
  exists (u s !!! (i - 1)%nat), (u s !!! i), (u s !!! (i + 1)%nat).
  rewrite Hun, Hu.
  rewrite !list_lookup_lookup_total_lt by lia.
  repeat (split; [reflexivity|]).
  rewrite next_field_lookup_interior by lia.
  split; [reflexivity|].
  intros Hassoc. unfold interior_value, burgers. rewrite !Hassoc. reflexivity.
Qed.

(** C2.  In every time step on a periodic field with at least two entries,
    index 0 of the new field is computed from the snapshot's index 0, with
    the snapshot's last-but-one entry as the wraparound left neighbour and
    its index 1 as the right neighbour, and the final index of the new
    field holds the newly computed index-0 value.  The grouping of the
    factors is as in C1. *)
Theorem periodic_boundary_update (s0 : store F) (k : nat) :
  valid_spacing p ->
  nx p = Z.of_nat (length (u s0)) ->
  (2 <= nx p)%Z ->
  exists s s' : store F,
    run p (Z.of_nat k) s0 = Ok (tt, s) /\
    time_step p s = Ok (tt, s') /\
    run p (Z.of_nat k + 1) s0 = Ok (tt, s') /\
    un s' = u s /\
    exists a b c : F,
      un s' !! 0%nat = Some a /\
      un s' !! 1%nat = Some b /\
      un s' !! Z.to_nat (nx p - 2) = Some c /\
      u s' !! 0%nat =
        Some (a - a * dt p / dx p * (a - c)
              + nu p * dt p / pow2 (dx p) * (b - 2 * a + c)) /\
      ((forall x y z : F, x * y / z = x * (y / z)) ->
       u s' !! 0%nat =
         Some (a - a * (dt p / dx p) * (a - c)
               + nu p * (dt p / pow2 (dx p)) * (b - 2 * a + c))) /\
      u s' !! Z.to_nat (nx p - 1) = u s' !! 0%nat.
Proof.
  intros Hv Hnx Hn.
  destruct (step_of_run p s0 k Hv Hnx Hn)
    as (s & s' & Hrun & Hstep & Hrun' & Hlen & Hun & Hu & _).
  exists s, s'. repeat (split; [assumption|]).
  exists (u s !!! 0%nat), (u s !!! 1%nat), (u s !!! (length (u s) - 2)%nat).
  rewrite Hun, Hu.
  replace (Z.to_nat (nx p - 2)) with (length (u s) - 2)%nat by lia.
  replace (Z.to_nat (nx p - 1)) with (length (u s) - 1)%nat by lia.
  rewrite !list_lookup_lookup_total_lt by lia.
  repeat (split; [reflexivity|]).
  split.
  - intros Hassoc. rewrite next_field_lookup_0.
    unfold boundary_value, burgers. rewrite !Hassoc. reflexivity.
  - rewrite next_field_lookup_last by lia. reflexivity.
Qed.

(** C3.  From every initial field with at least two entries and for every
    number of steps [n >= 1], the field after each of the [n] steps (after
    [k] steps, [1 <= k <= n]; the run of [n] steps passes through it) has
    its first entry equal to its last entry. *)
Theorem periodic_ends_equal (s0 : store F) (n k : nat) :
  valid_spacing p ->
  nx p = Z.of_nat (length (u s0)) ->
  (2 <= nx p)%Z ->
  (1 <= k <= n)%nat ->
  exists (s : store F) (v : F),
    run p (Z.of_nat k) s0 = Ok (tt, s) /\
    run p (Z.of_nat n) s0
      = for_ (range (Z.of_nat k) (Z.of_nat n)) (fun _ => time_step p) s /\
    head (u s) = Some v /\
    last (u s) = Some v.
Proof.
  intros Hv Hnx Hn Hk.
  destruct k as [|k]; [lia|].
  destruct (step_of_run p s0 k Hv Hnx Hn)
    as (s1 & s & Hrun1 & Hstep & Hrun & Hlen & Hun & Hu & _).
  replace (Z.of_nat k + 1)%Z with (Z.of_nat (S k)) in Hrun by lia.
  exists s, (boundary_value p (u s1)).
  split; [exact Hrun|]. split.
  - rewrite (run_split p (Z.of_nat (S k)) (Z.of_nat n)) by lia.
    unfold bind. rewrite Hrun. reflexivity.
  - rewrite Hu. split; [reflexivity|].
    unfold next_field. rewrite app_comm_cons. apply last_snoc.
Qed.

(** C5.  On a valid grid and for every step count [nt >= 0], the time loop
    terminates without exception after exactly [nt] iterations: the trace
    it appends is [nt] full step traces, one after the other (a snapshot,
    the whole interior sweep, the boundary update and the wrap each time),
    and the field is the [nt]-fold image of the initial field. *)
Theorem march_runs_nt_full_iterations (s0 : store F) :
  valid_spacing p ->
  nx p = Z.of_nat (length (u s0)) ->
  (2 <= nx p)%Z ->
  (0 <= nt p)%Z ->
  exists s : store F,
    march p s0 = Ok (tt, s) /\
    trace s =
      trace s0
        ++ mjoin (replicate (Z.to_nat (nt p)) (step_trace (length (u s0)))) /\
    Z.of_nat (iterations (drop (length (trace s0)) (trace s))) = nt p /\
    u s = field_after p (Z.to_nat (nt p)) (u s0).
Proof.
  intros Hv Hnx Hn Hnt. unfold march.
  rewrite run_ok by (assumption || lia). eexists. split; [reflexivity|]. cbn [u un trace].
  split; [reflexivity|]. split; [|reflexivity].
  rewrite drop_app_length.
  assert (Hone : forall m, iterations (step_trace m) = 1%nat).
  { intros m. unfold step_trace, iterations. rewrite filter_cons_True by reflexivity.
    cbn [length]. f_equal. rewrite filter_app, length_app.
    replace (length (filter (fun e => e = Copy)
              (boundary_trace m ++ wrap_trace m))) with 0%nat by reflexivity.
    rewrite Nat.add_0_r. unfold sweep_trace.
    induction (range 1 (Z.of_nat m - 1)) as [|j l IH]; [reflexivity|].
    cbn [mbind list_bind]. rewrite filter_app, length_app, IH. reflexivity. }
  assert (Hall : forall m j,
    iterations (mjoin (replicate j (step_trace m))) = j).
  { intros m j. induction j as [|j IH]; [reflexivity|].
    change (mjoin (replicate (S j) (step_trace m)))
      with (step_trace m ++ mjoin (replicate j (step_trace m))).
    specialize (Hone m). unfold iterations in *.
    rewrite filter_app, length_app, IH, Hone. reflexivity. }
  rewrite Hall. lia.
Qed.

(** C6.  With a step count of zero the time integrator returns the store
    it was given: the field is the initial field, unchanged (and so are
    [un] and the trace: nothing was executed). *)
Theorem zero_steps_identity (s0 : store F) :
  nt p = 0%Z -> march p s0 = Ok (tt, s0).
Proof.
  intros Hnt. unfold march. rewrite Hnt. reflexivity.
Qed.

(** C4.  Within a time step the stencil evaluations (lines 147 and 149,
    the wraparound read [un[-2]] included) read the snapshot [un] only and
    write [u] only; the one read of [u] is the copy [u[-1] = u[0]] of line
    150, made after them.  The new field is a function of the snapshot,
    and sweeping the interior indices in any other order gives the same
    arrays. *)
Theorem reads_previous_level_only (s : store F) (order : list Z) :
  valid_spacing p ->
  nx p = Z.of_nat (length (u s)) ->
  (2 <= nx p)%Z ->
  order ≡ₚ range 1 (nx p - 1) ->
  exists (s' s'' : store F) (stencil : list event),
    time_step p s = Ok (tt, s') /\
    trace s' = trace s ++ Copy :: stencil ++ wrap_trace (length (u s)) /\
    Forall (fun e => read_of e <> Some U /\ written_by e <> Some UN) stencil /\
    un s' = u s /\
    u s' = next_field p (un s') /\
    time_step_in p order s = Ok (tt, s'') /\
    u s'' = u s' /\
    un s'' = un s'.
Proof.
  intros Hv Hnx Hn Hperm.
  assert (Hlen : (2 <= length (u s))%nat) by lia.
  rewrite Hnx in Hperm.
  exists (Store (next_field p (u s)) (u s) (trace s ++ step_trace (length (u s)))).
  eexists.
  exists (sweep_trace (range 1 (Z.of_nat (length (u s)) - 1))
            ++ boundary_trace (length (u s))).
  split; [apply time_step_ok; assumption|].
  split; [cbn [trace]; unfold step_trace; rewrite <- app_assoc; reflexivity|].
  split.
  { apply Forall_app. split.
    - unfold sweep_trace. apply Forall_bind, Forall_forall. intros i _.
      unfold interior_trace. repeat constructor; discriminate.
    - unfold boundary_trace. repeat constructor; discriminate. }
  split; [reflexivity|]. split; [reflexivity|].
  split; [apply time_step_in_ok;
            [exact Hv|exact Hlen|apply covers_perm; exact Hperm]|].
  split; reflexivity.
Qed.

(** C7.  Two runs with the same parameters and the same initial field end
    alike, whatever the previous content of [un] (left uninitialised by
    the setup) and whatever happened before: with the same final field,
    or with the same exception. *)
Theorem march_deterministic (u0 un1 un2 : list F) (tr1 tr2 : list event) :
  match march p (Store u0 un1 tr1), march p (Store u0 un2 tr2) with
  | Ok (_, s1), Ok (_, s2) => u s1 = u s2
  | Raise e1, Raise e2 => e1 = e2
  | _, _ => False
  end.
Proof.
  unfold march, run. apply for_time_step_same. reflexivity.
Qed.

(** C10.  On a field of length [nx >= 3] one time step raises no
    [IndexError], whatever the parameters; with a valid spacing it raises
    nothing and accesses, in this order, positions [i-1], [i], [i+1] for
    the interior indices [1 <= i <= nx-2] of the sweep, then positions 0,
    1, [nx-2] and [nx-1] for the boundary update, all below [nx]. *)
Theorem time_step_in_bounds (s : store F) :
  nx p = Z.of_nat (length (u s)) ->
  (3 <= nx p)%Z ->
  time_step p s <> Raise IndexError /\
  (valid_spacing p ->
   exists (s' : store F) (sw bd : list event),
     time_step p s = Ok (tt, s') /\
     trace s' = trace s ++ Copy :: sw ++ bd /\
     sw = sweep_trace (range 1 (nx p - 1)) /\
     bd = boundary_trace (length (u s)) ++ wrap_trace (length (u s)) /\
     Forall (fun e => exists (i : Z) (k : nat),
               (1 <= i <= nx p - 2)%Z /\ position e = Some k /\
               (Z.of_nat k = i - 1 \/ Z.of_nat k = i \/ Z.of_nat k = i + 1)%Z /\
               (Z.of_nat k < nx p)%Z) sw /\
     Forall (fun e => exists k : nat,
               position e = Some k /\
               (Z.of_nat k = 0 \/ Z.of_nat k = 1 \/
                Z.of_nat k = nx p - 2 \/ Z.of_nat k = nx p - 1)%Z /\
               (Z.of_nat k < nx p)%Z) bd).
Proof.
  intros Hnx Hn.
  assert (Hlen : (2 <= length (u s))%nat) by lia.
  assert (Hok : valid_spacing p -> exists s', time_step p s = Ok (tt, s')).
  { intros Hv. eexists. apply time_step_ok; assumption. }
  split.
  - assert (Hdec : valid_spacing p \/ ~ valid_spacing p).
    { unfold valid_spacing.
      destruct (pow2_overflows (dx p)); [right; intros [? _]; discriminate|].
      destruct (is_zero (pow2 (dx p))); [right; intros [_ ?]; discriminate|].
      left. split; reflexivity. }
    destruct Hdec as [Hv|Hv].
    + destruct (Hok Hv) as [s' Hs']. rewrite Hs'. discriminate.
    + destruct (time_step_degenerate p s Hv Hlen Hnx) as (e & He & [-> | ->]);
        rewrite He; discriminate.
  - intros Hv. eexists _, _, _.
    split; [apply time_step_ok; assumption|].
    split; [cbn [trace]; unfold step_trace; rewrite <- Hnx; reflexivity|].
    split; [reflexivity|]. split; [reflexivity|]. split.
    + unfold sweep_trace. apply Forall_bind, Forall_forall. intros i Hi.
      unfold range in Hi. apply elem_of_seqZ in Hi.
      unfold interior_trace.
      repeat (apply Forall_cons; split;
              [exists i; eexists; split; [lia|split; [reflexivity|lia]]|]).
      apply Forall_nil_2.
    + unfold boundary_trace, wrap_trace.
      repeat (apply Forall_cons; split;
              [eexists; split; [reflexivity|lia]|]).
      apply Forall_nil_2.
Qed.

End CoreClaims.

(** * The claims about the setup *)

Section SetupFacts.
Context {F : Type} `{Arith F}.
Local Open Scope arith_scope.

Notation "2" := (of_int 2) : arith_scope.

Variable np_pi : F.
Variable np_empty : nat -> list F.
Variable ufunc : F -> F -> F -> F.
Variable np_alloc : Z -> option exn.

Lemma linspace_negative (start stop : F) (num : Z) :
  (num < 0)%Z -> linspace np_alloc start stop num = Raise ValueError.
Proof.
  intros Hn. unfold linspace. destruct (Z.ltb_spec num 0); [reflexivity|lia].
Qed.

Lemma linspace_ok (start stop : F) (num : Z) :
  (2 <= num)%Z -> np_alloc num = None ->
  linspace np_alloc start stop num = Ok (samples start stop num).
Proof.
  intros Hn Ha. unfold linspace. rewrite Ha.
  destruct (Z.ltb_spec num 0); [lia|].
  destruct (Z.eqb_spec num 0); [lia|].
  destruct (Z.eqb_spec num 1); [lia|]. reflexivity.
Qed.

Lemma linspace_refused (start stop : F) (num : Z) (e : exn) :
  (0 <= num)%Z -> np_alloc num = Some e ->
  linspace np_alloc start stop num = Raise e.
Proof.
  intros Hn Ha. unfold linspace. rewrite Ha.
  destruct (Z.ltb_spec num 0); [lia|reflexivity].
Qed.

Lemma samples_length (start stop : F) (num : Z) :
  (2 <= num)%Z -> length (samples start stop num) = Z.to_nat num.
Proof.
  intros Hn. unfold samples.
  rewrite length_app, length_fmap, length_seqZ. cbn [length]. lia.
Qed.

(** The setup for at least two points, in full. *)
Lemma setup_ok (points steps : Z) (visc : F) :
  (2 <= points)%Z ->
  int_overflows (points - 1) = false ->
  np_alloc points = None ->
  setup np_pi np_empty ufunc np_alloc points steps visc =
    Ok (Params points steps
          (2 * np_pi / of_int (points - 1)) visc
          (2 * np_pi / of_int (points - 1) * visc),
        samples (of_int 0) (2 * np_pi) points,
        Store ((fun x0 => ufunc (of_int 0) x0 visc)
                 <$> samples (of_int 0) (2 * np_pi) points)
              (np_empty (Z.to_nat points)) []).
Proof.
  intros Hn Hov Ha. unfold setup. rewrite Hov.
  destruct (Z.eqb_spec (points - 1) 0); [lia|].
  rewrite linspace_ok by (lia || exact Ha). unfold empty. rewrite Ha.
  destruct (Z.ltb_spec points 0); [lia|]. reflexivity.
Qed.

(** Line 152 on a grid that is not empty. *)
Lemma u_analytical_ok (p : params F) (x : list F) :
  (1 <= length x)%nat -> int_overflows (nt p) = false ->
  u_analytical ufunc p x = Ok (analytical_values ufunc p x).
Proof.
  intros Hx Hov. unfold u_analytical. rewrite Hov.
  destruct x; [simpl in Hx; lia|reflexivity].
Qed.

Lemma u_analytical_overflow (p : params F) (x : list F) :
  (1 <= length x)%nat -> int_overflows (nt p) = true ->
  u_analytical ufunc p x = Raise OverflowError.
Proof.
  intros Hx Hov. unfold u_analytical. rewrite Hov.
  destruct x; [simpl in Hx; lia|reflexivity].
Qed.

Lemma resolve_empty (i : Z) : resolve 0 i = None.
Proof.
  unfold resolve. change (Z.of_nat 0) with 0%Z.
  destruct (Z.ltb_spec i 0) as [Hneg|Hpos].
  - rewrite Z.add_0_r. destruct (Z.leb_spec 0 i); [lia|reflexivity].
  - destruct (Z.leb_spec 0 i); [|lia].
    destruct (Z.ltb_spec i 0); [lia|reflexivity].
Qed.

Lemma getitem_empty (a : array) (i : Z) (s : store F) :
  sel a s = [] -> getitem a i s = Raise IndexError.
Proof.
  intros Hs. apply getitem_raise. rewrite Hs. apply resolve_empty.
Qed.

(** The first time step on an empty field raises [IndexError]. *)
Lemma time_step_empty_field (p : params F) (s : store F) :
  u s = [] -> time_step p s = Raise IndexError.
Proof.
  intros Hu. unfold time_step, time_step_in.
  rewrite (bind_ok copy _ s (log Copy (upd UN (u s) s)) tt) by reflexivity.
  set (s1 := log Copy (upd UN (u s) s)).
  assert (Hun : sel UN s1 = []) by exact Hu.
  unfold sweep. destruct (range 1 (nx p - 1)) as [|i l]; cbn [for_].
  - rewrite (bind_ok (ret tt) _ s1 s1 tt) by reflexivity.
    apply bind_raise. unfold boundary. apply bind_raise.
    apply getitem_empty. exact Hun.
  - apply bind_raise. apply bind_raise. unfold interior. apply bind_raise.
    apply getitem_empty. exact Hun.
Qed.

Lemma march_empty_field (p : params F) (s : store F) :
  u s = [] -> (1 <= nt p)%Z -> march p s = Raise IndexError.
Proof.
  intros Hu Hnt. unfold march, run, range.
  rewrite seqZ_cons by lia. cbn [for_]. unfold bind at 1.
  rewrite time_step_empty_field by exact Hu. reflexivity.
Qed.

(** The notebook up to line 150: for at least two points that numpy can
    hold and a valid spacing, setup and loop raise nothing, and what
    remains is line 152. *)
Lemma notebook_to_line_152 (points steps : Z) (visc : F) :
  (2 <= points)%Z ->
  int_overflows (points - 1) = false ->
  np_alloc points = None ->
  pow2_overflows (2 * np_pi / of_int (points - 1)) = false ->
  is_zero (pow2 (2 * np_pi / of_int (points - 1))) = false ->
  (int_overflows steps = false ->
   notebook np_pi np_empty ufunc np_alloc points steps visc
     = Ok (fields np_pi ufunc points steps visc)) /\
  (int_overflows steps = true ->
   notebook np_pi np_empty ufunc np_alloc points steps visc
     = Raise OverflowError).
Proof.
  intros Hn Hpts Ha Hov Hz.
  assert (Hrun : forall k,
            k = match u_analytical ufunc
                        (Params points steps
                           (2 * np_pi / of_int (points - 1)) visc
                           (2 * np_pi / of_int (points - 1) * visc))
                        (samples (of_int 0) (2 * np_pi) points) with
                | Raise e => Raise e
                | Ok ua =>
                    Ok (samples (of_int 0) (2 * np_pi) points,
                        field_after
                          (Params points steps
                             (2 * np_pi / of_int (points - 1)) visc
                             (2 * np_pi / of_int (points - 1) * visc))
                          (Z.to_nat steps)
                          ((fun x0 => ufunc (of_int 0) x0 visc)
                             <$> samples (of_int 0) (2 * np_pi) points),
                        ua)
                end ->
            notebook np_pi np_empty ufunc np_alloc points steps visc = k).
  { intros k ->. unfold notebook. rewrite setup_ok by assumption.
    unfold march. rewrite run_ok.
    - reflexivity.
    - split; [exact Hov|exact Hz].
    - cbn [u]. rewrite length_fmap, samples_length by exact Hn. lia.
    - cbn [u nx]. rewrite length_fmap, samples_length by exact Hn. lia. }
  split; intros Hsteps; apply Hrun.
  - rewrite u_analytical_ok;
      [reflexivity|rewrite samples_length by exact Hn; lia|exact Hsteps].
  - rewrite u_analytical_overflow;
      [reflexivity|rewrite samples_length by exact Hn; lia|exact Hsteps].
Qed.

(** For at least two points and a valid spacing the notebook raises
    nothing and returns [fields]. *)
Lemma notebook_ok (points steps : Z) (visc : F) :
  (2 <= points)%Z ->
  int_overflows (points - 1) = false ->
  np_alloc points = None ->
  int_overflows steps = false ->
  pow2_overflows (2 * np_pi / of_int (points - 1)) = false ->
  is_zero (pow2 (2 * np_pi / of_int (points - 1))) = false ->
  notebook np_pi np_empty ufunc np_alloc points steps visc
    = Ok (fields np_pi ufunc points steps visc).
Proof.
  intros Hn Hpts Ha Hsteps Hov Hz.
  apply notebook_to_line_152; assumption.
Qed.

(** C8, as the code has it.  The setup validates nothing itself and there
    is no [ConfigurationError].  What decides is the first statement that
    fails, all before any time stepping: a point count so large in
    absolute value that [nx - 1] cannot be converted to a float fails in
    [dx = 2 * np.pi / (nx - 1)] ([OverflowError]); otherwise a negative
    point count fails in [np.linspace] ([ValueError]) and a point count of
    1 in the division by [nx - 1] ([ZeroDivisionError]); a point count of
    0 passes the setup with empty arrays, and the first time step raises
    [IndexError].  For a point count of at least 2 the grid construction
    fails only when numpy cannot build an array of [nx] entries, with
    numpy's exception; when it can, the setup returns the spacing
    [2 * pi / (nx - 1)] and [nx] coordinates, with an initial field of
    [nx] entries. *)
Theorem setup_outcomes (points steps : Z) (visc : F) :
  (int_overflows (points - 1) = true ->
     setup np_pi np_empty ufunc np_alloc points steps visc
       = Raise OverflowError) /\
  (int_overflows (points - 1) = false ->
     ((points < 0)%Z ->
        setup np_pi np_empty ufunc np_alloc points steps visc
          = Raise ValueError) /\
     (points = 1%Z ->
        setup np_pi np_empty ufunc np_alloc points steps visc
          = Raise ZeroDivisionError) /\
     (points = 0%Z -> np_alloc 0 = None ->
        exists (p : params F) (s : store F),
          setup np_pi np_empty ufunc np_alloc points steps visc
            = Ok (p, [], s) /\
          u s = [] /\
          ((1 <= steps)%Z -> march p s = Raise IndexError)) /\
     ((2 <= points)%Z -> np_alloc points = None ->
        exists (x : list F) (s : store F),
          setup np_pi np_empty ufunc np_alloc points steps visc
            = Ok (Params points steps
                    (2 * np_pi / of_int (points - 1)) visc
                    (2 * np_pi / of_int (points - 1) * visc), x, s) /\
          Z.of_nat (length x) = points /\
          Z.of_nat (length (u s)) = points /\
          last x = Some (2 * np_pi)) /\
     ((0 <= points)%Z -> points <> 1%Z ->
        forall e : exn, np_alloc points = Some e ->
          setup np_pi np_empty ufunc np_alloc points steps visc = Raise e)).
Proof.
  split; [intros Hov; unfold setup; rewrite Hov; reflexivity|].
  intros Hov. repeat split.
  - intros Hn. unfold setup. rewrite Hov.
    destruct (Z.eqb_spec (points - 1) 0); [lia|].
    rewrite linspace_negative by lia. reflexivity.
  - intros ->. unfold setup. rewrite Hov. reflexivity.
  - intros -> Ha. unfold setup, linspace, empty. rewrite Hov, Ha. cbn.
    eexists _, _. split; [reflexivity|]. split; [reflexivity|].
    intros Hsteps. apply march_empty_field; [reflexivity|exact Hsteps].
  - intros Hn Ha. rewrite setup_ok by assumption.
    eexists _, _. split; [reflexivity|].
    cbn [u]. rewrite length_fmap, samples_length by exact Hn.
    split; [lia|]. split; [lia|]. apply last_snoc.
  - intros Hn H1 e Ha. unfold setup. rewrite Hov.
    destruct (Z.eqb_spec (points - 1) 0); [lia|].
    rewrite (linspace_refused _ _ _ e) by assumption. reflexivity.
Qed.

End SetupFacts.

Lemma real_spacing_valid (points : Z) :
  (2 <= points)%Z ->
  is_zero (pow2 (2 * PI / IZR (points - 1))%R) = false.
Proof.
  intros Hn. cbn [is_zero pow2 real_arith].
  destruct (Req_dec_T ((2 * PI / IZR (points - 1)) ^ 2) 0) as [Hz|Hz];
    [|reflexivity].
  exfalso. pose proof PI_RGT_0 as Hpi.
  assert (Hp : (0 < IZR (points - 1))%R) by (apply (IZR_lt 0); lia).
  assert (Hd : (0 < 2 * PI / IZR (points - 1))%R).
  { apply Rdiv_lt_0_compat; lra. }
  assert (Hsq : (0 < (2 * PI / IZR (points - 1)) ^ 2)%R) by (apply pow_lt; exact Hd).
  lra.
Qed.

Lemma real_notebook_ok (points steps : Z) (visc : R) :
  (2 <= points)%Z ->
  real_notebook points steps visc
    = Ok ((fields PI analytical points steps visc).1.1,
          (fields PI analytical points steps visc).1.2,
          (fields PI analytical points steps visc).2) /\
  (fields PI analytical points steps visc).1.1 = samples 0%R (2 * PI)%R points.
Proof.
  intros Hn. unfold real_notebook.
  rewrite notebook_ok;
    [|exact Hn|reflexivity|reflexivity|reflexivity|reflexivity
     |exact (real_spacing_valid points Hn)].
  split; [|reflexivity].
  destruct (fields PI analytical points steps visc) as [[x uc] ua]. reflexivity.
Qed.

Lemma real_setup_ok (points steps : Z) (visc : R) :
  (2 <= points)%Z ->
  real_setup points steps visc =
    Ok (Params points steps
          (2 * PI / IZR (points - 1))%R visc
          (2 * PI / IZR (points - 1) * visc)%R,
        samples 0%R (2 * PI)%R points,
        Store ((fun x0 => analytical 0%R x0 visc)
                 <$> samples 0%R (2 * PI)%R points)
              (replicate (Z.to_nat points) 0%R) []).
Proof.
  intros Hn.
  exact (setup_ok PI (fun n => replicate n 0%R) analytical (fun _ => None)
           points steps visc Hn eq_refl eq_refl).
Qed.

(** C8, as the claim states it, fails: with a point count of 0 (below 2)
    the setup raises nothing. *)
Lemma setup_accepts_zero_points :
  ~ (forall points : Z, (points < 2)%Z ->
       exists e : exn, real_setup points 100 (7 / 100)%R = Raise e).
Proof.
  intros Hall. destruct (Hall 0%Z ltac:(lia)) as [e He].
  unfold real_setup, setup in He. cbn in He. discriminate He.
Qed.

(** * The analytical solution in real arithmetic *)

Section AnalyticalFacts.
Local Open Scope R_scope.

(** The derivative of [exp (- (x - a)^2 / D)]. *)
Lemma gaussian_derivative (a D x : R) :
  D <> 0 ->
  derivable_pt_lim (fun y => Rtrigo_def.exp (- (y - a) ^ 2 / D)) x
    (Rtrigo_def.exp (- (x - a) ^ 2 / D) * (- (2 * (x - a)) / D)).
Proof.
  intros HD.
  apply (derivable_pt_lim_comp (fun y => - (y - a) ^ 2 / D) Rtrigo_def.exp).
  - assert (Hq : derivable_pt_lim (fun y => (y - a) ^ 2) x (2 * (x - a))).
    { replace (2 * (x - a)) with (INR 2 * (x - a) ^ Nat.pred 2 * (1 - 0))
        by (simpl; ring).
      apply (derivable_pt_lim_comp (fun y => y - a) (fun y => y ^ 2)).
      - apply derivable_pt_lim_minus;
          [apply derivable_pt_lim_id|apply derivable_pt_lim_const].
      - apply derivable_pt_lim_pow. }
    replace (- (2 * (x - a)) / D) with ((- / D) * (2 * (x - a)))
      by (field; exact HD).
    apply (derivable_pt_lim_ext (mult_real_fct (- / D) (fun y => (y - a) ^ 2))).
    + intros y. unfold mult_real_fct. field. exact HD.
    + apply derivable_pt_lim_scal. exact Hq.
  - apply derivable_pt_lim_exp.
Qed.

(** X3. Cell 3: the displayed [phiprime] is the derivative of [phi] in
    [x]. *)
Lemma phiprime_is_derivative (t x v : R) :
  4 * v * (t + 1) <> 0 ->
  derivable_pt_lim (fun y => phi t y v) x (phiprime t x v).
Proof.
  intros HD. unfold phi, phiprime.
  cbn [add sub mul div pow2 of_int neg exp pi real_arith real_analytic].
  pose proof (gaussian_derivative (4 * t) (4 * v * (t + 1)) x HD) as H1.
  pose proof (gaussian_derivative (4 * t + 2 * PI) (4 * v * (t + 1)) x HD) as H2.
  pose proof (derivable_pt_lim_plus _ _ _ _ _ H1 H2) as H12.
  eapply derivable_pt_lim_ext; [|
    replace (_ - _) with
      (Rtrigo_def.exp (- (x - 4 * t) ^ 2 / (4 * v * (t + 1))) * (- (2 * (x - 4 * t)) / (4 * v * (t + 1)))
       + Rtrigo_def.exp (- (x - (4 * t + 2 * PI)) ^ 2 / (4 * v * (t + 1))) * (- (2 * (x - (4 * t + 2 * PI))) / (4 * v * (t + 1))));
    [exact H12|] ].
  - intros y. unfold plus_fct.
    replace (y - (4 * t + 2 * PI)) with (y - 4 * t - 2 * PI) by ring. reflexivity.
  - replace (x - (4 * t + 2 * PI)) with (-4 * t + x - 2 * PI) by ring.
    replace (x - 4 * t) with (-4 * t + x) by ring.
    field. split; intros Heq; apply HD; rewrite Heq; ring.
Qed.

End AnalyticalFacts.

(** * Further facts on the time loop *)

Section LoopFacts.
Context {F : Type} `{Arith F}.
Local Open Scope arith_scope.
Variable p : params F.

#[local] Existing Instance arith_inhabited.

Ltac read_through pos :=
  erewrite bind_ok by (apply (getitem_ok _ _ pos); cbn [sel log un u];
                       first [ apply resolve_nonneg; lia
                             | rewrite resolve_neg by lia; f_equal; lia ]);
  cbn [sel log un u].

Lemma resolve_beyond (len : nat) (i : Z) :
  (Z.of_nat len <= i)%Z -> resolve len i = None.
Proof.
  intros Hi. unfold resolve.
  destruct (Z.ltb_spec i 0); [lia|].
  destruct (Z.leb_spec 0 i); [|lia].
  destruct (Z.ltb_spec i (Z.of_nat len)); [lia|reflexivity].
Qed.

Lemma resolve_before (len : nat) (i : Z) :
  (i < - Z.of_nat len)%Z -> resolve len i = None.
Proof.
  intros Hi. unfold resolve.
  destruct (Z.ltb_spec i 0); [|lia].
  destruct (Z.leb_spec 0 (i + Z.of_nat len)); [lia|reflexivity].
Qed.

(** Line 147 at the last position of [un] reads one entry too far. *)
Lemma interior_beyond (i : Z) (s : store F) :
  valid_spacing p ->
  (1 <= i)%Z -> (i + 1 = Z.of_nat (length (un s)))%Z ->
  interior p i s = Raise IndexError.
Proof.
  intros Hv H1 H2. unfold interior.
  read_through (Z.to_nat i). read_through (Z.to_nat i). read_through (Z.to_nat i).
  read_through (Z.to_nat (i - 1)).
  rewrite py_coefficient_ok by exact Hv.
  apply bind_raise, getitem_raise. cbn [sel log un u].
  apply resolve_beyond. lia.
Qed.

(** Line 147 at position 1 of an array with at most one entry. *)
Lemma interior_short (i : Z) (s : store F) :
  (Z.of_nat (length (un s)) <= i)%Z -> interior p i s = Raise IndexError.
Proof.
  intros Hi. unfold interior.
  apply bind_raise, getitem_raise. cbn [sel]. apply resolve_beyond. exact Hi.
Qed.

(** Line 149 on arrays with at most one entry. *)
Lemma boundary_short (s : store F) :
  (length (un s) <= 1)%nat -> boundary p s = Raise IndexError.
Proof.
  intros Hn. unfold boundary.
  destruct (length (un s)) as [|[|n]] eqn:Hlen; [| |lia].
  - apply bind_raise, getitem_raise. cbn [sel]. rewrite Hlen.
    apply resolve_beyond. simpl. lia.
  - assert (Hlen' : length (un s) = 1%nat) by exact Hlen.
    read_through 0%nat. read_through 0%nat. read_through 0%nat.
    apply bind_raise, getitem_raise. cbn [sel log un u]. rewrite Hlen.
    apply resolve_before. simpl. lia.
Qed.

(** The loop body on a field with fewer entries than [nx]: the sweep, or
    for [nx <= 2] the boundary update, reads past the end of [un]. *)
Lemma time_step_short (s : store F) :
  valid_spacing p ->
  (Z.of_nat (length (u s)) < nx p)%Z ->
  time_step p s = Raise IndexError.
Proof.
  intros Hv Hn. unfold time_step, time_step_in.
  rewrite (bind_ok copy _ s (log Copy (upd UN (u s) s)) tt) by reflexivity.
  set (s1 := log Copy (upd UN (u s) s)).
  assert (Hun : un s1 = u s) by reflexivity.
  assert (Hu : u s1 = u s) by reflexivity.
  destruct (le_lt_dec 2 (length (u s))) as [Hlong|Hshort].
  - rewrite (range_split 1 (Z.of_nat (length (u s)) - 1) (nx p - 1)) by lia.
    unfold sweep. apply bind_raise. rewrite for_app.
    pose proof (sweep_ok p (range 1 (Z.of_nat (length (u s)) - 1)) s1 Hv) as Hsw.
    unfold sweep in Hsw. rewrite Hun, Hu in Hsw.
    specialize (Hsw (covers_interior _ _ (covers_range _)) eq_refl).
    erewrite bind_ok by exact Hsw.
    unfold range.
    replace (nx p - 1 - (Z.of_nat (length (u s)) - 1))%Z
      with (Z.succ (nx p - 1 - Z.of_nat (length (u s)))) by lia.
    rewrite seqZ_cons by lia. cbn [for_].
    apply bind_raise, interior_beyond; [exact Hv|lia|].
    cbn [un]. lia.
  - destruct (Z_lt_le_dec 2 (nx p)) as [Hnx|Hnx].
    + unfold sweep, range.
      replace (nx p - 1 - 1)%Z with (Z.succ (Z.pred (nx p - 1 - 1))) by lia.
      rewrite seqZ_cons by lia. cbn [for_].
      apply bind_raise, bind_raise, interior_short. rewrite Hun. lia.
    + unfold sweep, range. rewrite seqZ_nil by lia. cbn [for_].
      rewrite (bind_ok (ret tt) _ s1 s1 tt) by reflexivity.
      apply bind_raise, boundary_short. rewrite Hun. lia.
Qed.

(** A loop whose body ignores the loop variable depends on the number of
    iterations only. *)
Lemma for_const {A B} (l : list A) (l' : list B) (m : M F unit) :
  length l = length l' -> for_ l (fun _ => m) = for_ l' (fun _ => m).
Proof.
  revert l'. induction l as [|x l IH]; intros [|y l'] Hlen;
    try discriminate; [reflexivity|].
  cbn [for_]. rewrite (IH l') by (simpl in Hlen; lia). reflexivity.
Qed.

Lemma run_app (a b : Z) (s : store F) :
  (0 <= a)%Z -> (0 <= b)%Z ->
  run p (a + b) s = bind (run p a) (fun _ => run p b) s.
Proof.
  intros Ha Hb. rewrite (run_split p a (a + b)) by lia.
  unfold run at 3.
  rewrite (for_const (range a (a + b)) (range 0 b)); [reflexivity|].
  rewrite !range_length. lia.
Qed.

(** X4. The loop body on a field shorter than [nx], with a valid spacing,
    raises [IndexError]: the interior sweep runs up to [nx - 2] and reads
    [un[i+1]] past the end (for [nx <= 2] the boundary update reads a
    missing [un[0]] or [un[-2]]). *)
Theorem short_field_raises (s : store F) :
  valid_spacing p ->
  (Z.of_nat (length (u s)) < nx p)%Z ->
  time_step p s = Raise IndexError /\
  ((1 <= nt p)%Z -> march p s = Raise IndexError).
Proof.
  intros Hv Hn. split; [apply time_step_short; assumption|].
  intros Hnt. unfold march.
  replace (nt p) with (1 + (nt p - 1))%Z by lia.
  rewrite run_app by lia. apply bind_raise.
  unfold run, range. cbn [for_ seqZ]. 
  change (seqZ 0 (1 - 0)) with [0%Z]. cbn [for_].
  apply bind_raise, time_step_short; assumption.
Qed.

(** X5. Marching composes: [a + b] iterations of the loop are [a]
    iterations followed by [b] more from the store these leave, with the
    same arrays, the same accesses, and the same exception if a step
    raises. *)
Theorem run_compose (a b : Z) (s : store F) :
  (0 <= a)%Z -> (0 <= b)%Z ->
  run p (a + b) s = bind (run p a) (fun _ => run p b) s.
Proof. apply run_app. Qed.

(** X6. After a march of at least one step on a valid grid, [un] holds the
    field of the previous time level, [u] is its image under one step, and
    both arrays have kept their [nx] entries. *)
Theorem march_leaves_previous_level (s0 : store F) :
  valid_spacing p ->
  nx p = Z.of_nat (length (u s0)) ->
  (2 <= nx p)%Z ->
  (1 <= nt p)%Z ->
  exists s : store F,
    march p s0 = Ok (tt, s) /\
    un s = field_after p (Z.to_nat (nt p - 1)) (u s0) /\
    u s = next_field p (un s) /\
    Z.of_nat (length (u s)) = nx p /\
    Z.of_nat (length (un s)) = nx p.
Proof.
  intros Hv Hnx H2 Hnt. unfold march.
  rewrite run_ok by (assumption || lia).
  eexists. split; [reflexivity|]. cbn [u un].
  replace (Z.to_nat (nt p)) with (S (Z.to_nat (nt p - 1))) by lia.
  split; [reflexivity|]. split; [reflexivity|].
  change (next_field p (field_after p (Z.to_nat (nt p - 1)) (u s0)))
    with (field_after p (S (Z.to_nat (nt p - 1))) (u s0)).
  rewrite !field_after_length by lia. lia.
Qed.

(** X17. The loop body on a field with more entries than [nx] raises
    nothing and updates only part of it: positions [1 .. nx-2] by the
    sweep, position 0 with the last-but-one entry of the whole array as
    left neighbour, and the last position; the entries from [nx - 1] to
    the last but one are left as they were. *)
Theorem long_field_partly_updated (s : store F) :
  valid_spacing p ->
  (2 <= nx p)%Z ->
  (nx p < Z.of_nat (length (u s)))%Z ->
  exists s' : store F,
    time_step p s = Ok (tt, s') /\
    un s' = u s /\
    length (u s') = length (u s) /\
    u s' !! 0%nat = Some (boundary_value p (u s)) /\
    last (u s') = Some (boundary_value p (u s)) /\
    (forall i : nat,
       (1 <= i)%nat -> (Z.of_nat i <= nx p - 2)%Z ->
       u s' !! i = Some (interior_value p (u s) i)) /\
    (forall i : nat,
       (nx p - 1 <= Z.of_nat i)%Z -> (i + 1 < length (u s))%nat ->
       u s' !! i = u s !! i).
Proof.
  intros Hv Hnx Hlen. unfold time_step, time_step_in, bind, copy.
  assert (Horder : Forall (fun i => (1 <= i)%Z /\ (i + 1 < Z.of_nat (length (u s)))%Z)
                     (range 1 (nx p - 1))).
  { apply Forall_forall. intros i Hi. unfold range in Hi.
    apply elem_of_seqZ in Hi. lia. }
  assert (Hnn : Forall (fun i => (0 <= i)%Z) (range 1 (nx p - 1))).
  { eapply Forall_impl; [exact Horder|]. cbn. intros; lia. }
  simpl. rewrite sweep_ok; simpl; [|exact Hv|exact Horder|reflexivity].
  rewrite boundary_ok; simpl; [|exact Hv|lia|rewrite swept_length; lia].
  rewrite wrap_ok; simpl; [|rewrite length_insert, swept_length; lia].
  rewrite length_insert, swept_length.
  rewrite list_lookup_total_insert_eq by (rewrite swept_length; lia).
  eexists. split; [reflexivity|]. cbn [u un].
  set (bv := boundary_value p (u s)).
  set (sw := swept p (u s) (range 1 (nx p - 1)) (u s)).
  assert (Hsw : length sw = length (u s)) by apply swept_length.
  split; [reflexivity|].
  split; [rewrite !length_insert; exact Hsw|].
  split.
  { rewrite list_lookup_insert_ne by lia.
    apply list_lookup_insert_eq. lia. }
  split.
  { rewrite last_lookup, length_insert, length_insert, Hsw.
    replace (Nat.pred (length (u s))) with (length (u s) - 1)%nat by lia.
    apply list_lookup_insert_eq. rewrite length_insert. lia. }
  split.
  - intros i Hi1 Hi2. rewrite !list_lookup_insert_ne by lia.
    apply swept_lookup_in; [exact Hnn| |lia].
    unfold range. apply elem_of_seqZ. lia.
  - intros i Hi1 Hi2. rewrite !list_lookup_insert_ne by lia.
    apply swept_lookup_notin; [exact Hnn|].
    unfold range. rewrite elem_of_seqZ. lia.
Qed.

End LoopFacts.

(** * The step on the periodic ring *)

Section RingFacts.
Context {F : Type} `{Arith F}.
Variable p : params F.

#[local] Existing Instance arith_inhabited.

Lemma closed_length (v : list F) :
  (1 <= length v)%nat -> length (closed v) = S (length v).
Proof.
  intros Hv. unfold closed. rewrite length_app, length_take. lia.
Qed.

Lemma closed_lookup (v : list F) (j : nat) :
  (1 <= length v)%nat -> (j <= length v)%nat ->
  closed v !!! j = v !!! (j mod length v)%nat.
Proof.
  intros Hv Hj. unfold closed.
  destruct (decide (j = length v)) as [->|Hne].
  - rewrite Nat.Div0.mod_same.
    rewrite lookup_total_app_r by lia. rewrite Nat.sub_diag.
    destruct v as [|x v]; [simpl in Hv; lia|reflexivity].
  - rewrite Nat.mod_small by lia. apply lookup_total_app_l. lia.
Qed.

Lemma ring_closed (v : list F) : (1 <= length v)%nat -> ring (closed v) = v.
Proof.
  intros Hv. unfold ring. rewrite closed_length by exact Hv.
  unfold closed. replace (S (length v) - 1)%nat with (length v) by lia.
  apply take_app_length.
Qed.

(** A field whose two ends agree is the closed field of its ring. *)
Lemma closed_ring (w : list F) :
  (2 <= length w)%nat -> head w = last w -> closed (ring w) = w.
Proof.
  intros Hn Hends. unfold closed, ring.
  rewrite take_take. rewrite Nat.min_l by lia.
  destruct (last w) as [y|] eqn:Hlast.
  - apply last_Some in Hlast as [l' ->].
    rewrite length_app in *. cbn [length] in *.
    replace (length l' + 1 - 1)%nat with (length l') by lia.
    rewrite take_app_length. f_equal.
    destruct l' as [|x l']; [simpl in Hn; lia|].
    cbn [head app] in Hends. injection Hends as ->. reflexivity.
  - apply last_None in Hlast. subst w. simpl in Hn. lia.
Qed.

Lemma ring_step_length (v : list F) : length (ring_step p v) = length v.
Proof. unfold ring_step. rewrite length_fmap, length_seq. reflexivity. Qed.

Lemma ring_step_lookup (v : list F) (i : nat) :
  (i < length v)%nat ->
  ring_step p v !!! i =
    burgers p (v !!! ((i + length v - 1) mod length v)%nat) (v !!! i)
              (v !!! ((i + 1) mod length v)%nat).
Proof.
  intros Hi. apply list_lookup_total_correct. unfold ring_step.
  rewrite list_lookup_fmap, lookup_seq_lt by exact Hi. reflexivity.
Qed.

(** On a closed field the loop body is the ring stencil: the boundary
    update of line 149 is the stencil at the seam. *)
Lemma next_field_closed (v : list F) :
  (1 <= length v)%nat ->
  next_field p (closed v) = closed (ring_step p v).
Proof.
  intros Hv.
  assert (Hlen : length (closed v) = S (length v)) by (apply closed_length; exact Hv).
  assert (Hb : boundary_value p (closed v) = ring_step p v !!! 0%nat).
  { rewrite ring_step_lookup by lia. unfold boundary_value. rewrite Hlen.
    rewrite !closed_lookup by lia.
    replace (S (length v) - 2)%nat with (length v - 1)%nat by lia.
    rewrite (Nat.mod_small (length v - 1)) by lia.
    rewrite Nat.Div0.mod_0_l.
    replace (0 + length v - 1)%nat with (length v - 1)%nat by lia.
    rewrite (Nat.mod_small (length v - 1)) by lia. reflexivity. }
  apply list_eq_same_length with (S (length v)).
  - rewrite closed_length by (rewrite ring_step_length; exact Hv).
    rewrite ring_step_length. reflexivity.
  - rewrite next_field_length by lia. exact Hlen.
  - intros i x y Hi Hx Hy.
    assert (Hy' : closed (ring_step p v) !!! i = y)
      by (apply list_lookup_total_correct; exact Hy).
    rewrite closed_lookup in Hy' by (rewrite ring_step_length; lia).
    rewrite ring_step_length in Hy'.
    destruct (decide (i = 0%nat)) as [->|H0].
    { rewrite next_field_lookup_0 in Hx. rewrite Nat.Div0.mod_0_l in Hy'.
      congruence. }
    destruct (decide (i = length v)) as [->|HN].
    { replace (length v) with (length (closed v) - 1)%nat in Hx at 1 by lia.
      rewrite next_field_lookup_last in Hx by lia.
      rewrite Nat.Div0.mod_same in Hy'. congruence. }
    rewrite next_field_lookup_interior in Hx by lia.
    rewrite Nat.mod_small in Hy' by lia.
    rewrite ring_step_lookup in Hy' by lia.
    injection Hx as <-. subst y. unfold interior_value.
    rewrite !closed_lookup by lia.
    rewrite (Nat.mod_small i) by lia.
    replace (i + length v - 1)%nat with (i - 1 + 1 * length v)%nat by lia.
    rewrite Nat.Div0.mod_add. reflexivity.
Qed.

Lemma rotate_lookup_total (v : list F) (k i : nat) :
  (i < length v)%nat ->
  rotate k v !!! i = v !!! ((k + i) mod length v)%nat.
Proof.
  intros Hi. rewrite !list_lookup_total_alt. f_equal.
  rewrite lookup_rotate_r by exact Hi. f_equal.
  unfold rotate_nat_add.
  rewrite <- Nat2Z.inj_add, <- Nat2Z.inj_mod. apply Nat2Z.id.
Qed.

(** The ring stencil commutes with rotations of the ring. *)
Lemma ring_step_rotate (v : list F) (k : nat) :
  ring_step p (rotate k v) = rotate k (ring_step p v).
Proof.
  destruct (decide (length v = 0%nat)) as [H0|H0].
  { destruct v; [|discriminate].
    assert (Hnil : forall l : list F, l = [] -> rotate k l = []).
    { intros l ->. unfold rotate. rewrite drop_nil, take_nil. reflexivity. }
    rewrite (Hnil [] eq_refl). symmetry. apply Hnil. reflexivity. }
  assert (Hmod : forall a, (a mod length v < length v)%nat)
    by (intros a; apply Nat.mod_upper_bound; exact H0).
  apply list_eq_same_length with (length v).
  - rewrite length_rotate, ring_step_length. reflexivity.
  - rewrite ring_step_length, length_rotate. reflexivity.
  - intros i x y Hi Hx Hy.
    apply list_lookup_total_correct in Hx, Hy. subst x y.
    rewrite ring_step_lookup by (rewrite length_rotate; exact Hi).
    rewrite length_rotate.
    rewrite (rotate_lookup_total (ring_step p v))
      by (rewrite ring_step_length; exact Hi).
    rewrite ring_step_length.
    rewrite ring_step_lookup by apply Hmod.
    rewrite !rotate_lookup_total by (exact Hi || apply Hmod).
    f_equal; f_equal.
    + rewrite Nat.Div0.add_mod_idemp_r.
      replace ((k + i) mod length v + length v - 1)%nat
        with ((k + i) mod length v + (length v - 1))%nat by lia.
      rewrite Nat.Div0.add_mod_idemp_l. f_equal. lia.
    + rewrite Nat.Div0.add_mod_idemp_r, Nat.Div0.add_mod_idemp_l.
      f_equal. lia.
Qed.

Lemma ring_length (w : list F) : length (ring w) = (length w - 1)%nat.
Proof. unfold ring. rewrite length_take. lia. Qed.

Lemma ring_lookup_total (w : list F) (j : nat) :
  (j < length w - 1)%nat -> ring w !!! j = w !!! j.
Proof.
  intros Hj. unfold ring. rewrite !list_lookup_total_alt.
  rewrite lookup_take_lt by exact Hj. reflexivity.
Qed.

(** The ring of the new field is the ring stencil on the ring of the old
    one. *)
Lemma ring_next_field (w : list F) :
  (2 <= length w)%nat -> head w = last w ->
  next_field p w = closed (ring_step p (ring w)) /\
  ring (next_field p w) = ring_step p (ring w).
Proof.
  intros Hn Hends.
  assert (Hnext : next_field p w = closed (ring_step p (ring w))).
  { rewrite <- (closed_ring w Hn Hends) at 1.
    apply next_field_closed. rewrite ring_length. lia. }
  split; [exact Hnext|]. rewrite Hnext.
  apply ring_closed. rewrite ring_step_length, ring_length. lia.
Qed.

Lemma next_field_ring_stencil (w : list F) (i : nat) :
  (2 <= length w)%nat ->
  head w = last w ->
  (i < length w - 1)%nat ->
  next_field p w !! i =
    Some (burgers p (w !!! ((i + (length w - 1) - 1) mod (length w - 1))%nat)
                    (w !!! i)
                    (w !!! ((i + 1) mod (length w - 1))%nat)).
Proof.
  intros Hn Hends Hi.
  destruct (ring_next_field w Hn Hends) as [-> _].
  rewrite <- !(ring_lookup_total w) by (try apply Nat.mod_upper_bound; lia).
  rewrite <- (ring_length w), <- ring_step_lookup by (rewrite ring_length; lia).
  unfold closed.
  rewrite lookup_app_l by (rewrite ring_step_length, ring_length; lia).
  apply list_lookup_lookup_total_lt. rewrite ring_step_length, ring_length. lia.
Qed.

Lemma reseam_length (w : list F) (k : nat) :
  (2 <= length w)%nat -> length (reseam k w) = length w.
Proof.
  intros Hn. unfold reseam.
  rewrite closed_length; rewrite length_rotate, ring_length; lia.
Qed.

Lemma next_field_reseam (w : list F) (k : nat) :
  (2 <= length w)%nat ->
  head w = last w ->
  next_field p (reseam k w) = reseam k (next_field p w).
Proof.
  intros Hn Hends. unfold reseam.
  rewrite next_field_closed by (rewrite length_rotate, ring_length; lia).
  rewrite ring_step_rotate.
  destruct (ring_next_field w Hn Hends) as [_ ->]. reflexivity.
Qed.

(** X7. On a field whose two ends agree (as after every step), the loop
    body applies one and the same stencil at every point of the periodic
    ring, the seam included: entry [i] of the new field is the right-hand
    side of line 147 at [u[i]] with the neighbours taken around the ring
    of the [nx - 1] distinct points; and the new field ends as it
    begins. *)
Theorem step_is_ring_stencil (s : store F) :
  valid_spacing p ->
  nx p = Z.of_nat (length (u s)) ->
  (2 <= nx p)%Z ->
  head (u s) = last (u s) ->
  exists s' : store F,
    time_step p s = Ok (tt, s') /\
    (forall i : nat,
       (i < length (u s) - 1)%nat ->
       u s' !! i =
         Some (burgers p
                 (u s !!! ((i + (length (u s) - 1) - 1) mod (length (u s) - 1))%nat)
                 (u s !!! i)
                 (u s !!! ((i + 1) mod (length (u s) - 1))%nat))) /\
    last (u s') = head (u s').
Proof.
  intros Hv Hnx H2 Hends.
  rewrite time_step_ok by (assumption || lia).
  eexists. split; [reflexivity|]. cbn [u]. split.
  - intros i Hi. apply next_field_ring_stencil; (assumption || lia).
  - unfold next_field. rewrite app_comm_cons, last_snoc. reflexivity.
Qed.

(** X8. The loop body does not depend on where the periodic field is cut:
    the step from the field with its seam moved [k] grid points along the
    ring returns the stepped field with its seam moved by [k]. *)
Theorem step_commutes_with_reseam (s : store F) (k : nat) :
  valid_spacing p ->
  nx p = Z.of_nat (length (u s)) ->
  (2 <= nx p)%Z ->
  head (u s) = last (u s) ->
  exists s1 s2 : store F,
    time_step p s = Ok (tt, s1) /\
    time_step p (Store (reseam k (u s)) (un s) (trace s)) = Ok (tt, s2) /\
    u s2 = reseam k (u s1).
Proof.
  intros Hv Hnx H2 Hends.
  rewrite !time_step_ok;
    cbn [u]; rewrite ?reseam_length by lia; try (assumption || lia).
  eexists _, _. split; [reflexivity|]. split; [reflexivity|]. cbn [u].
  apply next_field_reseam; [lia|exact Hends].
Qed.

End RingFacts.

(** * Properties the step preserves *)

Section Preserved.
Context {F : Type} `{Arith F}.
Variable p : params F.
Variable P : F -> Prop.
Hypothesis burgers_preserves :
  forall l c r : F, P l -> P c -> P r -> P (burgers p l c r).

#[local] Existing Instance arith_inhabited.

Lemma Forall_lookup_total_lt (w : list F) (j : nat) :
  Forall P w -> (j < length w)%nat -> P (w !!! j).
Proof.
  intros Hw Hj. apply (Forall_lookup_1 P w j); [exact Hw|].
  apply list_lookup_lookup_total_lt. exact Hj.
Qed.

(** What the stencil preserves, the step preserves entry by entry. *)
Lemma next_field_Forall (w : list F) :
  (2 <= length w)%nat -> Forall P w -> Forall P (next_field p w).
Proof.
  intros Hn Hw.
  assert (Hb : P (boundary_value p w)).
  { unfold boundary_value.
    apply burgers_preserves; apply Forall_lookup_total_lt; (exact Hw || lia). }
  unfold next_field. apply Forall_cons. split; [exact Hb|].
  apply Forall_app. split; [|apply Forall_singleton; exact Hb].
  apply Forall_fmap, Forall_forall. intros i Hi.
  apply elem_of_seq in Hi. cbn. unfold interior_value.
  apply burgers_preserves; apply Forall_lookup_total_lt; (exact Hw || lia).
Qed.

Lemma field_after_Forall (k : nat) (w : list F) :
  (2 <= length w)%nat -> Forall P w -> Forall P (field_after p k w).
Proof.
  intros Hn Hw. induction k as [|k IH]; [exact Hw|].
  change (Forall P (next_field p (field_after p k w))).
  apply next_field_Forall; [|exact IH].
  rewrite field_after_length; exact Hn.
Qed.

End Preserved.

(** * The scheme in exact real arithmetic *)

Section RealScheme.
Local Open Scope R_scope.
Variable p : params R.

(** The right-hand side of line 147 as a weighted mean of the three
    values of the stencil; the weights add up to one. *)
Lemma burgers_mean (l c r : R) :
  burgers p l c r =
    (1 - (c * (dt p / dx p) + 2 * (nu p * dt p / dx p ^ 2))) * c
    + (c * (dt p / dx p) + nu p * dt p / dx p ^ 2) * l
    + nu p * dt p / dx p ^ 2 * r.
Proof.
  unfold burgers. cbn [add sub mul div pow2 of_int real_arith].
  unfold Rdiv. ring.
Qed.

Lemma burgers_constant (c : R) : burgers p c c c = c.
Proof. rewrite burgers_mean. ring. Qed.

Lemma burgers_between (m M l c r : R) :
  0 <= dt p / dx p ->
  0 <= nu p * dt p / dx p ^ 2 ->
  0 <= m * (dt p / dx p) + nu p * dt p / dx p ^ 2 ->
  M * (dt p / dx p) + 2 * (nu p * dt p / dx p ^ 2) <= 1 ->
  m <= l <= M -> m <= c <= M -> m <= r <= M ->
  m <= burgers p l c r <= M.
Proof.
  intros Hs Hk Hm HM [Hl1 Hl2] [Hc1 Hc2] [Hr1 Hr2]. rewrite burgers_mean.
  set (s := dt p / dx p) in *. set (k := nu p * dt p / dx p ^ 2) in *.
  assert (Hcm : m * s <= c * s) by (apply Rmult_le_compat_r; assumption).
  assert (HcM : c * s <= M * s) by (apply Rmult_le_compat_r; assumption).
  assert (HA : 0 <= 1 - (c * s + 2 * k)) by lra.
  assert (HB : 0 <= c * s + k) by lra.
  assert (Hpos : forall w x : R, 0 <= w -> 0 <= x -> 0 <= w * x)
    by (intros; apply Rmult_le_pos; assumption).
  split.
  - pose proof (Hpos _ (c - m) HA ltac:(lra)) as P1.
    pose proof (Hpos _ (l - m) HB ltac:(lra)) as P2.
    pose proof (Hpos _ (r - m) Hk ltac:(lra)) as P3.
    lra.
  - pose proof (Hpos _ (M - c) HA ltac:(lra)) as P1.
    pose proof (Hpos _ (M - l) HB ltac:(lra)) as P2.
    pose proof (Hpos _ (M - r) Hk ltac:(lra)) as P3.
    lra.
Qed.

(** In real arithmetic a spacing is valid when it is not zero. *)
Lemma real_valid_spacing : dx p <> 0 -> valid_spacing p.
Proof.
  intros Hdx. split; [reflexivity|].
  cbn [is_zero pow2 real_arith].
  destruct (Req_dec_T (dx p ^ 2) 0) as [Hz|Hz]; [|reflexivity].
  exfalso. apply Hdx. simpl in Hz. rewrite Rmult_1_r in Hz.
  apply Rmult_integral in Hz. destruct Hz; assumption.
Qed.

Lemma run_preserves (P : R -> Prop) (s : store R) (k : Z) :
  (forall l c r : R, P l -> P c -> P r -> P (burgers p l c r)) ->
  dx p <> 0 ->
  nx p = Z.of_nat (length (u s)) ->
  (2 <= nx p)%Z ->
  Forall P (u s) ->
  exists s' : store R,
    run p k s = Ok (tt, s') /\ Forall P (u s') /\ length (u s') = length (u s).
Proof.
  intros HP Hdx Hnx H2 Hall.
  rewrite run_ok by (try apply real_valid_spacing; assumption || lia).
  eexists. split; [reflexivity|]. cbn [u]. split.
  - apply field_after_Forall; [exact HP|lia|exact Hall].
  - apply field_after_length. lia.
Qed.

(** X9. In real arithmetic a uniform field is steady: whatever the
    parameters (with a spacing that is not zero), any number of time steps
    returns the field unchanged. *)
Theorem uniform_field_is_steady (s : store R) (k : Z) (c : R) :
  dx p <> 0 ->
  nx p = Z.of_nat (length (u s)) ->
  (2 <= nx p)%Z ->
  Forall (fun v => v = c) (u s) ->
  exists s' : store R, run p k s = Ok (tt, s') /\ u s' = u s.
Proof.
  intros Hdx Hnx H2 Hall.
  destruct (run_preserves (fun v => v = c) s k) as (s' & Hrun & Hall' & Hlen);
    try assumption.
  { intros l c0 r -> -> ->. apply burgers_constant. }
  exists s'. split; [exact Hrun|].
  transitivity (replicate (length (u s)) c).
  - symmetry. apply replicate_as_Forall. split; [exact Hlen|].
    eapply Forall_impl; [exact Hall'|]. intros v ->. reflexivity.
  - apply replicate_as_Forall. split; [reflexivity|].
    eapply Forall_impl; [exact Hall|]. intros v ->. reflexivity.
Qed.

(** X10. Discrete maximum principle, in real arithmetic.  With
    [s = dt / dx >= 0] and [k = nu * dt / dx^2 >= 0], a field whose
    entries lie in [[m, M]] with [m * s + k >= 0] and [M * s + 2 * k <= 1]
    stays in [[m, M]] through any number of time steps: every new entry
    is a weighted mean of three old ones. *)
Theorem maximum_principle (s : store R) (k : Z) (m M : R) :
  dx p <> 0 ->
  nx p = Z.of_nat (length (u s)) ->
  (2 <= nx p)%Z ->
  0 <= dt p / dx p ->
  0 <= nu p * dt p / dx p ^ 2 ->
  0 <= m * (dt p / dx p) + nu p * dt p / dx p ^ 2 ->
  M * (dt p / dx p) + 2 * (nu p * dt p / dx p ^ 2) <= 1 ->
  Forall (fun v => m <= v <= M) (u s) ->
  exists s' : store R,
    run p k s = Ok (tt, s') /\ Forall (fun v => m <= v <= M) (u s').
Proof.
  intros Hdx Hnx H2 Hs Hk Hm HM Hall.
  destruct (run_preserves (fun v => m <= v <= M) s k) as (s' & Hrun & Hall' & _);
    try assumption.
  { intros l c r. apply burgers_between; assumption. }
  exists s'. split; assumption.
Qed.

End RealScheme.

(** * The total of the field over a period *)

Section RealRing.
Local Open Scope R_scope.
Variable p : params R.

#[local] Existing Instance arith_inhabited.

Lemma total_app (l1 l2 : list R) : total (l1 ++ l2) = total l1 + total l2.
Proof.
  unfold total. induction l1 as [|x l1 IH]; simpl.
  - rewrite Rplus_0_l. reflexivity.
  - rewrite IH, Rplus_assoc. reflexivity.
Qed.

Lemma total_cons (x : R) (l : list R) : total (x :: l) = x + total l.
Proof. reflexivity. Qed.

Lemma total_rotate (k : nat) (l : list R) : total (rotate k l) = total l.
Proof.
  unfold rotate. rewrite total_app.
  transitivity (total (take (k mod length l) l ++ drop (k mod length l) l)).
  - rewrite total_app. apply Rplus_comm.
  - rewrite take_drop. reflexivity.
Qed.

Lemma total_nonneg (l : list R) : Forall (fun x => 0 <= x) l -> 0 <= total l.
Proof.
  unfold total. induction 1 as [|x l Hx _ IH]; simpl; lra.
Qed.

(** A sum around the ring does not depend on where it starts. *)
Lemma total_reindex (g : R -> R) (v : list R) (idx : nat -> nat) (a : nat) :
  (forall i, (i < length v)%nat -> idx i = ((a + i) mod length v)%nat) ->
  total ((fun i => g (v !!! idx i)) <$> seq 0 (length v)) = total (g <$> v).
Proof.
  intros Hidx.
  assert (Hlist : (fun i => g (v !!! idx i)) <$> seq 0 (length v)
                  = rotate a (g <$> v)).
  { apply list_eq_same_length with (length v).
    - rewrite length_rotate, length_fmap. reflexivity.
    - rewrite length_fmap, length_seq. reflexivity.
    - intros i x y Hi Hx Hy.
      rewrite list_lookup_fmap, lookup_seq_lt in Hx by exact Hi.
      injection Hx as <-.
      rewrite lookup_rotate_r in Hy by (rewrite length_fmap; exact Hi).
      rewrite list_lookup_fmap, length_fmap in Hy.
      assert (Hr : rotate_nat_add a i (length v) = ((a + i) mod length v)%nat).
      { unfold rotate_nat_add.
        rewrite <- Nat2Z.inj_add, <- Nat2Z.inj_mod. apply Nat2Z.id. }
      rewrite Hr, <- Hidx in Hy by exact Hi.
      rewrite (list_lookup_lookup_total_lt v (idx i)) in Hy.
      + injection Hy as <-. reflexivity.
      + rewrite Hidx by exact Hi. apply Nat.mod_upper_bound. lia. }
  rewrite Hlist. apply total_rotate.
Qed.

(** The sum of the right-hand sides of line 147 over any list of
    positions. *)
Lemma total_stencil (L C Rt : nat -> R) (l : list nat) :
  total ((fun i => burgers p (L i) (C i) (Rt i)) <$> l) =
    total (C <$> l)
    - dt p / dx p / 2 * total ((fun i => (C i - L i) ^ 2) <$> l)
    - dt p / dx p / 2
      * (total ((fun i => C i ^ 2) <$> l) - total ((fun i => L i ^ 2) <$> l))
    + nu p * dt p / dx p ^ 2
      * (total (Rt <$> l) - 2 * total (C <$> l) + total (L <$> l)).
Proof.
  induction l as [|i l IH].
  - rewrite !fmap_nil. change (total []) with 0. unfold Rdiv. ring.
  - rewrite !fmap_cons, !total_cons, IH, burgers_mean. unfold Rdiv.
    generalize (/ dx p) (/ dx p ^ 2). intros a b. field.
Qed.

Lemma total_ring_step (v : list R) :
  (1 <= length v)%nat ->
  total (ring_step p v) =
    total v
    - dt p / dx p / 2
      * total ((fun i => (v !!! i - v !!! ((i + length v - 1) mod length v)%nat) ^ 2)
                 <$> seq 0 (length v)).
Proof.
  intros Hv. unfold ring_step.
  rewrite (total_stencil
             (fun i => v !!! ((i + length v - 1) mod length v)%nat)
             (fun i => v !!! i)
             (fun i => v !!! ((i + 1) mod length v)%nat)).
  assert (Hc : forall g : R -> R,
            total ((fun i => g (v !!! i)) <$> seq 0 (length v)) = total (g <$> v)).
  { intros g. apply (total_reindex g v (fun i => i) 0).
    intros i Hi. rewrite Nat.add_0_l, Nat.mod_small by exact Hi. reflexivity. }
  assert (Hl : forall g : R -> R,
            total ((fun i => g (v !!! ((i + length v - 1) mod length v)%nat))
                     <$> seq 0 (length v)) = total (g <$> v)).
  { intros g.
    apply (total_reindex g v (fun i => ((i + length v - 1) mod length v)%nat)
             (length v - 1)).
    intros i Hi. f_equal. lia. }
  assert (Hr : forall g : R -> R,
            total ((fun i => g (v !!! ((i + 1) mod length v)%nat))
                     <$> seq 0 (length v)) = total (g <$> v)).
  { intros g.
    apply (total_reindex g v (fun i => ((i + 1) mod length v)%nat) 1).
    intros i Hi. f_equal. lia. }
  rewrite (Hc (fun x => x)), (Hl (fun x => x)), (Hr (fun x => x)).
  rewrite (Hc (fun x => x ^ 2)), (Hl (fun x => x ^ 2)).
  rewrite list_fmap_id. unfold Rdiv. ring.
Qed.

(** X20. The scheme is not conservative.  In real arithmetic, one time
    step on a periodic field changes the total of [u] over a period by
    exactly [- dt / dx / 2] times the sum of the squared differences of
    neighbouring entries around the ring; with [dt / dx >= 0] the total
    never increases. *)
Theorem total_over_period_decreases (s : store R) :
  dx p <> 0 ->
  nx p = Z.of_nat (length (u s)) ->
  (2 <= nx p)%Z ->
  head (u s) = last (u s) ->
  exists s' : store R,
    time_step p s = Ok (tt, s') /\
    total (ring (u s')) =
      total (ring (u s))
      - dt p / dx p / 2
        * total ((fun i => (ring (u s) !!! i
                            - ring (u s) !!! ((i + length (ring (u s)) - 1)
                                              mod length (ring (u s)))%nat) ^ 2)
                   <$> seq 0 (length (ring (u s)))) /\
    (0 <= dt p / dx p -> total (ring (u s')) <= total (ring (u s))).
Proof.
  intros Hdx Hnx H2 Hends.
  rewrite time_step_ok by (try apply real_valid_spacing; assumption || lia).
  eexists. split; [reflexivity|]. cbn [u].
  destruct (ring_next_field p (u s)) as [_ ->]; [lia|exact Hends|].
  rewrite total_ring_step by (rewrite ring_length; lia).
  split; [reflexivity|]. intros Hs.
  match goal with |- context [_ / 2 * ?t] => set (d := t) end.
  assert (Hd : 0 <= d).
  { apply total_nonneg, Forall_fmap, Forall_forall. intros i _. cbn.
    apply pow2_ge_0. }
  assert (Hsd : 0 <= dt p / dx p / 2 * d).
  { apply Rmult_le_pos; [lra|exact Hd]. }
  lra.
Qed.

End RealRing.

(** * The grid of cell 5 in real arithmetic *)

Section RealGrid.
Local Open Scope R_scope.

Lemma samples_lookup (points : Z) (i : nat) :
  (2 <= points)%Z -> (Z.of_nat i < points)%Z ->
  samples 0 (2 * PI) points !! i = Some (INR i * (2 * PI / IZR (points - 1))).
Proof.
  intros Hp Hi.
  assert (Hne : IZR (points - 1) <> 0) by (apply not_0_IZR; lia).
  unfold samples. cbn [add sub mul div of_int real_arith].
  destruct (decide (Z.of_nat i = points - 1)%Z) as [Hlast|Hbefore].
  - rewrite lookup_app_r; rewrite length_fmap, length_seqZ; [|lia].
    replace (i - Z.to_nat (points - 1))%nat with 0%nat by lia.
    cbn [lookup list_lookup]. f_equal.
    rewrite INR_IZR_INZ, Hlast. field. exact Hne.
  - rewrite lookup_app_l by (rewrite length_fmap, length_seqZ; lia).
    rewrite list_lookup_fmap, lookup_seqZ_lt by lia. cbn. f_equal.
    rewrite INR_IZR_INZ, Z.add_0_l. field. exact Hne.
Qed.

(** X11. In real arithmetic the grid of cell 5 is uniform with the
    spacing the scheme uses: [x[i] = i * dx] for every [i < nx], from
    [x[0] = 0] to [x[nx-1] = 2 * pi], with [dt = dx * nu]; and the initial
    field is the analytical profile at [t = 0] on these points. *)
Theorem grid_is_uniform (points steps : Z) (visc : R) (i : nat) :
  (2 <= points)%Z ->
  (Z.of_nat i < points)%Z ->
  exists (p : params R) (x : list R) (s : store R),
    real_setup points steps visc = Ok (p, x, s) /\
    x !! i = Some (INR i * dx p) /\
    IZR (points - 1) * dx p = 2 * PI /\
    dt p = dx p * nu p /\
    nu p = visc /\ nx p = points /\ nt p = steps /\
    u s !! i = Some (analytical 0 (INR i * dx p) visc).
Proof.
  intros Hp Hi. rewrite real_setup_ok by exact Hp.
  eexists _, _, _. split; [reflexivity|]. cbn [dx dt nu nx nt u].
  assert (Hne : IZR (points - 1) <> 0) by (apply not_0_IZR; lia).
  split; [apply samples_lookup; assumption|].
  split; [field; exact Hne|].
  repeat (split; [reflexivity|]).
  rewrite list_lookup_fmap, samples_lookup by assumption. reflexivity.
Qed.

End RealGrid.

(** * The analytical solution and Burgers' equation *)

Section AnalyticalSolves.
Local Open Scope R_scope.

Lemma gaussian_pos (a t x v : R) : 0 < gaussian a t x v.
Proof. apply exp_pos. Qed.

(** [ufunc] on the two Gaussian terms, as the notebook computes it. *)
Lemma analytical_gaussian (t x v : R) :
  analytical t x v =
    -2 * v *
      ((- (-8 * t + 2 * x) * gaussian 0 t x v / (4 * v * (t + 1))
        - (-8 * t + 2 * x - 4 * PI) * gaussian (2 * PI) t x v / (4 * v * (t + 1)))
       / (gaussian 0 t x v + gaussian (2 * PI) t x v)) + 4.
Proof.
  unfold analytical, phi, phiprime, gaussian.
  cbn [add sub mul div pow2 of_int neg exp pi real_arith real_analytic].
  replace (x - 4 * t - 0) with (x - 4 * t) by ring.
  replace (-4 * t + x - 2 * PI) with (x - 4 * t - 2 * PI) by ring.
  replace (-4 * t + x) with (x - 4 * t) by ring.
  reflexivity.
Qed.


Lemma derivable_pt_lim_value (f : R -> R) (x l l' : R) :
  derivable_pt_lim f x l' -> l' = l -> derivable_pt_lim f x l.
Proof. intros Hf <-. exact Hf. Qed.

Lemma gaussian_dx (a t v x : R) :
  4 * v * (t + 1) <> 0 ->
  derivable_pt_lim (fun y => gaussian a t y v) x
    (gaussian a t x v * (- (2 * (x - 4 * t - a)) / (4 * v * (t + 1)))).
Proof.
  intros HD. unfold gaussian.
  pose proof (gaussian_derivative (4 * t + a) (4 * v * (t + 1)) x HD) as Hg.
  replace (x - 4 * t - a) with (x - (4 * t + a)) by ring.
  eapply derivable_pt_lim_ext; [|exact Hg].
  intros y. cbn. replace (y - 4 * t - a) with (y - (4 * t + a)) by ring.
  reflexivity.
Qed.






(** Differentiation of an expression built from constants, the variable,
    the arithmetic operations and the Gaussian terms; [leaf] derives the
    Gaussian terms and [side] proves that the denominators are not zero. *)
Ltac derive_with leaf side :=
  lazymatch goal with
  | |- derivable_pt_lim (fun _ => ?c) _ _ => apply (derivable_pt_lim_const c)
  | |- derivable_pt_lim (fun x => x) _ _ => apply derivable_pt_lim_id
  | |- derivable_pt_lim (fun x => gaussian _ _ _ _) _ _ => leaf
  | |- derivable_pt_lim (fun x => @?f x + @?g x) _ _ =>
      eapply (derivable_pt_lim_plus f g); derive_with leaf side
  | |- derivable_pt_lim (fun x => @?f x - @?g x) _ _ =>
      eapply (derivable_pt_lim_minus f g); derive_with leaf side
  | |- derivable_pt_lim (fun x => @?f x * @?g x) _ _ =>
      eapply (derivable_pt_lim_mult f g); derive_with leaf side
  | |- derivable_pt_lim (fun x => @?f x / @?g x) _ _ =>
      eapply (derivable_pt_lim_div f g); [derive_with leaf side ..| cbv beta; side]
  | |- derivable_pt_lim (fun x => - @?f x) _ _ =>
      eapply (derivable_pt_lim_opp f); derive_with leaf side
  end.

Lemma gaussian_dt (a x v t : R) :
  4 * v * (t + 1) <> 0 ->
  derivable_pt_lim (fun s => gaussian a s x v) t
    (gaussian a t x v *
       ((8 * (x - 4 * t - a) * (4 * v * (t + 1)) + 4 * v * (x - 4 * t - a) ^ 2)
        / (4 * v * (t + 1)) ^ 2)).
Proof.
  intros HD.
  assert (Hin : derivable_pt_lim
                  (fun s => - ((x - 4 * s - a) * (x - 4 * s - a)) / (4 * v * (s + 1))) t
                  ((8 * (x - 4 * t - a) * (4 * v * (t + 1))
                    + 4 * v * (x - 4 * t - a) ^ 2) / (4 * v * (t + 1)) ^ 2)).
  { eapply derivable_pt_lim_value;
      [derive_with fail ltac:(exact HD) | unfold Rsqr; field].
    split; intros Heq; apply HD; rewrite Heq; ring. }
  pose proof (derivable_pt_lim_comp _ Rtrigo_def.exp _ _ _ Hin
                (derivable_pt_lim_exp _)) as Hc.
  eapply derivable_pt_lim_value; [eapply derivable_pt_lim_ext; [|exact Hc]|].
  - intros s. unfold comp, gaussian.
    replace ((x - 4 * s - a) * (x - 4 * s - a)) with ((x - 4 * s - a) ^ 2) by ring.
    reflexivity.
  - cbv beta. unfold gaussian.
    replace ((x - 4 * t - a) * (x - 4 * t - a)) with ((x - 4 * t - a) ^ 2) by ring.
    reflexivity.
Qed.

(** X13. [ufunc] solves Burgers' equation: for [nu <> 0] and [t <> -1]
    it has a derivative [ut] in [t], a derivative [ux] in [x] at every
    point, and [ux] has a derivative [uxx] in [x], with
    [ut + u * ux = nu * uxx]. *)
Theorem analytical_solves_burgers (t x v : R) :
  v <> 0 ->
  t + 1 <> 0 ->
  exists (ut uxx : R) (ux : R -> R),
    derivable_pt_lim (fun s => analytical s x v) t ut /\
    (forall y : R, derivable_pt_lim (fun z => analytical t z v) y (ux y)) /\
    derivable_pt_lim ux x uxx /\
    ut + analytical t x v * ux x = v * uxx.
Proof.
  intros Hv Ht.
  assert (HD : 4 * v * (t + 1) <> 0).
  { intros Heq. apply Rmult_integral in Heq as [Heq|Heq]; [|exact (Ht Heq)].
    apply Rmult_integral in Heq as [Heq|Heq]; [lra|exact (Hv Heq)]. }
  assert (Hsum : forall y, gaussian 0 t y v + gaussian (2 * PI) t y v <> 0).
  { intros y. pose proof (gaussian_pos 0 t y v).
    pose proof (gaussian_pos (2 * PI) t y v). lra. }
  pose (Ux := fun y : R =>
    (1 - 8 * (PI * PI) * (gaussian 0 t y v * gaussian (2 * PI) t y v)
         / (4 * v * (t + 1)
            * ((gaussian 0 t y v + gaussian (2 * PI) t y v)
               * (gaussian 0 t y v + gaussian (2 * PI) t y v))))
    / (t + 1)).
  eexists _, _, Ux. split; [|split; [|split]].
  - eapply derivable_pt_lim_ext;
      [intros s; symmetry; apply analytical_gaussian|].
    derive_with ltac:(apply gaussian_dt; exact HD)
                ltac:(first [exact HD | apply Hsum]).
  - intros y.
    eapply derivable_pt_lim_ext;
      [intros z; symmetry; apply analytical_gaussian|].
    eapply derivable_pt_lim_value.
    + derive_with ltac:(apply gaussian_dx; exact HD)
                  ltac:(first [exact HD | apply Hsum]).
    + unfold Ux, Rsqr. specialize (Hsum y).
      generalize dependent (gaussian 0 t y v).
      generalize dependent (gaussian (2 * PI) t y v).
      intros G1 G0 HG. field. repeat split; assumption.
  - unfold Ux.
    derive_with ltac:(apply gaussian_dx; exact HD)
                ltac:(first [exact HD | exact Ht | apply Hsum
                            | apply Rmult_integral_contrapositive_currified;
                              [exact HD|];
                              apply Rmult_integral_contrapositive_currified;
                              apply Hsum ]).
  - rewrite analytical_gaussian. unfold Ux, Rsqr. specialize (Hsum x).
    generalize dependent (gaussian 0 t x v).
    generalize dependent (gaussian (2 * PI) t x v).
    intros G1 G0 HG. field. repeat split; assumption.
Qed.

End AnalyticalSolves.

(** * Failure and success of the notebook *)

Section MoreFacts.
Context {F : Type} `{Arith F}.
Local Open Scope arith_scope.

(** X1. With a degenerate spacing ([dx**2] zero, or overflowing) a time
    step on a field of at least two entries raises [ZeroDivisionError] or
    [OverflowError]: the Python expression [nu * dt / dx**2] of lines 147
    and 149 fails, nothing catches it, and no entry is written. *)
Theorem degenerate_spacing_raises (p : params F) (s : store F) :
  ~ valid_spacing p ->
  (2 <= length (u s))%nat ->
  nx p = Z.of_nat (length (u s)) ->
  exists e : exn,
    time_step p s = Raise e /\ (e = OverflowError \/ e = ZeroDivisionError).
Proof. apply time_step_degenerate. Qed.

(** X2. For at least two grid points that numpy can hold ([nx - 1]
    converts to a float, arrays of [nx] entries can be built) and a valid
    spacing, cells 5 and 6 raise nothing up to line 150.  Line 152 then
    converts [nt]: when it converts, the notebook returns the
    coordinates, the [nt]-fold image of the initial field under the step
    function, and the analytical field; when it is too large, the
    notebook raises [OverflowError]. *)
Theorem notebook_returns_fields (np_pi : F) (np_empty : nat -> list F)
    (ufunc : F -> F -> F -> F) (np_alloc : Z -> option exn)
    (points steps : Z) (visc : F) :
  (2 <= points)%Z ->
  int_overflows (points - 1) = false ->
  np_alloc points = None ->
  pow2_overflows (of_int 2 * np_pi / of_int (points - 1)) = false ->
  is_zero (pow2 (of_int 2 * np_pi / of_int (points - 1))) = false ->
  (int_overflows steps = false ->
   notebook np_pi np_empty ufunc np_alloc points steps visc
     = Ok (fields np_pi ufunc points steps visc)) /\
  (int_overflows steps = true ->
   notebook np_pi np_empty ufunc np_alloc points steps visc
     = Raise OverflowError).
Proof. apply notebook_to_line_152. Qed.

End MoreFacts.

(** * The notebook end to end *)

Section NotebookFacts.
Context {F : Type} `{Arith F}.
Local Open Scope arith_scope.
Variable np_pi : F.
Variable np_empty : nat -> list F.
Variable ufunc : F -> F -> F -> F.
Variable np_alloc : Z -> option exn.


(** X16. For at least two points that numpy can hold, a step count that
    converts to a float and a valid spacing, the three arrays the
    notebook returns (coordinates, computed field, analytical field) have
    [nx] entries each. *)
Theorem notebook_shapes (points steps : Z) (visc : F) :
  (2 <= points)%Z ->
  int_overflows (points - 1) = false ->
  np_alloc points = None ->
  int_overflows steps = false ->
  pow2_overflows (of_int 2 * np_pi / of_int (points - 1)) = false ->
  is_zero (pow2 (of_int 2 * np_pi / of_int (points - 1))) = false ->
  exists x uc ua : list F,
    notebook np_pi np_empty ufunc np_alloc points steps visc = Ok (x, uc, ua) /\
    Z.of_nat (length x) = points /\
    Z.of_nat (length uc) = points /\
    Z.of_nat (length ua) = points.
Proof.
  intros Hn Hpts Ha Hsteps Hov Hz. rewrite notebook_ok by assumption.
  unfold fields, analytical_values. eexists _, _, _. split; [reflexivity|].
  rewrite field_after_length by (rewrite length_fmap, samples_length; lia).
  rewrite !length_fmap, samples_length by exact Hn. lia.
Qed.

End NotebookFacts.

(** * Worked instances

    The theorems above at the binary64 instance [demo_params],
    [demo_store]: five grid points, three time steps. *)

Local Open Scope arith_scope.

Example demo_time_step :
  time_step demo_params demo_store =
    Ok (tt, Store [1.5; 1.625; 1.5; 3.125; 1.5]%float
                  [1; 2; 4; 2; 1]%float
                  (step_trace 5)).
Proof. vm_compute. reflexivity. Qed.

(** A degenerate spacing: [dx**2] underflows to zero and the Python
    division raises. *)
Example demo_degenerate_spacing :
  time_step (Params 5 3 0x1p-600 0.25 0x1p-602)%float demo_store
  = Raise ZeroDivisionError.
Proof. vm_compute. reflexivity. Qed.

Example demo_short_field :
  time_step (Params 1 1 0.5 0.25 0.125)%float (Store [1%float] [] [])
  = Raise IndexError.
Proof. vm_compute. reflexivity. Qed.

(** The largest integer that converts to binary64, and the first that
    does not; small integers convert exactly. *)
Example demo_int_overflows :
  int_overflows (F := float) (2 ^ 1024 - 2 ^ 970 - 1) = false /\
  int_overflows (F := float) (2 ^ 1024 - 2 ^ 970) = true /\
  int_overflows (F := float) (- (2 ^ 1024 - 2 ^ 970 - 1)) = false /\
  int_overflows (F := float) (- (2 ^ 1024 - 2 ^ 970)) = true /\
  of_int (F := float) 100 = 100%float /\
  of_int (F := float) (2 ^ 53 + 1) = 9007199254740992%float.
Proof. vm_compute. repeat split; reflexivity. Qed.

(** A point count that binary64 cannot hold: line 126 raises. *)
Example demo_setup_overflow :
  setup 0x1.921fb54442d18p+1%float (fun n => replicate n 0%float)
        (fun _ x _ => x) (fun _ => None) (10 ^ 400) 3 0.25%float
  = Raise OverflowError.
Proof. vm_compute. reflexivity. Qed.

(** A step count that binary64 cannot hold, with no step to run: line 152
    raises. *)
Example demo_analytical_overflow :
  notebook 0x1.921fb54442d18p+1%float (fun n => replicate n 0%float)
           (fun _ x _ => x) (fun _ => None) 5 (- 10 ^ 400) 0.25%float
  = Raise OverflowError.
Proof. vm_compute. reflexivity. Qed.

(** A machine that cannot build five entries. *)
Example demo_setup_no_memory :
  setup 0x1.921fb54442d18p+1%float (fun n => replicate n 0%float)
        (fun _ x _ => x) (fun n => if (n <? 5)%Z then None else Some MemoryError)
        5 3 0.25%float
  = Raise MemoryError.
Proof. vm_compute. reflexivity. Qed.

(** C1 at the binary64 instance. *)
Lemma interior_update_formula_witness :
  exists s s' : store float,
    run demo_params (Z.of_nat 1) demo_store = Ok (tt, s) /\
    time_step demo_params s = Ok (tt, s') /\
    run demo_params (Z.of_nat 1 + 1) demo_store = Ok (tt, s') /\
    un s' = u s /\
    exists l c r : float,
      un s' !! (2 - 1)%nat = Some l /\
      un s' !! 2%nat = Some c /\
      un s' !! (2 + 1)%nat = Some r /\
      u s' !! 2%nat =
        Some (c - c * dt demo_params / dx demo_params * (c - l)
              + nu demo_params * dt demo_params / pow2 (dx demo_params)
                * (r - of_int 2 * c + l)) /\
      ((forall a b d : float, a * b / d = a * (b / d)) ->
       u s' !! 2%nat =
         Some (c - c * (dt demo_params / dx demo_params) * (c - l)
               + nu demo_params * (dt demo_params / pow2 (dx demo_params))
                 * (r - of_int 2 * c + l))).
Proof.
  apply (interior_update_formula demo_params demo_store 1 2);
    [split; reflexivity | reflexivity | cbn; lia].
Defined.

(** C2 at the binary64 instance. *)
Lemma periodic_boundary_update_witness :
  exists s s' : store float,
    run demo_params (Z.of_nat 1) demo_store = Ok (tt, s) /\
    time_step demo_params s = Ok (tt, s') /\
    run demo_params (Z.of_nat 1 + 1) demo_store = Ok (tt, s') /\
    un s' = u s /\
    exists a b c : float,
      un s' !! 0%nat = Some a /\
      un s' !! 1%nat = Some b /\
      un s' !! Z.to_nat (nx demo_params - 2) = Some c /\
      u s' !! 0%nat =
        Some (a - a * dt demo_params / dx demo_params * (a - c)
              + nu demo_params * dt demo_params / pow2 (dx demo_params)
                * (b - of_int 2 * a + c)) /\
      ((forall x y z : float, x * y / z = x * (y / z)) ->
       u s' !! 0%nat =
         Some (a - a * (dt demo_params / dx demo_params) * (a - c)
               + nu demo_params * (dt demo_params / pow2 (dx demo_params))
                 * (b - of_int 2 * a + c))) /\
      u s' !! Z.to_nat (nx demo_params - 1) = u s' !! 0%nat.
Proof.
  apply (periodic_boundary_update demo_params demo_store 1);
    [split; reflexivity | reflexivity | cbn; lia].
Defined.

(** C3 at the binary64 instance. *)
Lemma periodic_ends_equal_witness :
  exists (s : store float) (v : float),
    run demo_params (Z.of_nat 2) demo_store = Ok (tt, s) /\
    run demo_params (Z.of_nat 3) demo_store
      = for_ (range (Z.of_nat 2) (Z.of_nat 3))
             (fun _ => time_step demo_params) s /\
    head (u s) = Some v /\
    last (u s) = Some v.
Proof.
  apply (periodic_ends_equal demo_params demo_store 3 2);
    [split; reflexivity | reflexivity | cbn; lia | lia].
Defined.

(** C4 at the binary64 instance. *)
Lemma reads_previous_level_only_witness :
  exists (s' s'' : store float) (stencil : list event),
    time_step demo_params demo_store = Ok (tt, s') /\
    trace s' = trace demo_store ++ Copy :: stencil
                 ++ wrap_trace (length (u demo_store)) /\
    Forall (fun e => read_of e <> Some U /\ written_by e <> Some UN) stencil /\
    un s' = u demo_store /\
    u s' = next_field demo_params (un s') /\
    time_step_in demo_params [3; 1; 2]%Z demo_store = Ok (tt, s'') /\
    u s'' = u s' /\
    un s'' = un s'.
Proof.
  apply (reads_previous_level_only demo_params demo_store [3; 1; 2]%Z);
    [split; reflexivity | reflexivity | cbn; lia |].
  change (range 1 (nx demo_params - 1)) with [1; 2; 3]%Z.
  apply (Permutation_cons_append [1; 2]%Z 3%Z).
Defined.

(** C5 at the binary64 instance. *)
Lemma march_runs_nt_full_iterations_witness :
  exists s : store float,
    march demo_params demo_store = Ok (tt, s) /\
    trace s =
      trace demo_store
        ++ mjoin (replicate (Z.to_nat (nt demo_params))
                    (step_trace (length (u demo_store)))) /\
    Z.of_nat (iterations (drop (length (trace demo_store)) (trace s)))
      = nt demo_params /\
    u s = field_after demo_params (Z.to_nat (nt demo_params)) (u demo_store).
Proof.
  apply (march_runs_nt_full_iterations demo_params demo_store);
    [split; reflexivity | reflexivity | cbn; lia | cbn; lia].
Defined.

(** C6 at the binary64 instance. *)
Lemma zero_steps_identity_witness :
  march (Params 5 0 0.5 0.25 0.125)%float demo_store = Ok (tt, demo_store).
Proof.
  apply (zero_steps_identity (Params 5 0 0.5 0.25 0.125)%float demo_store).
  reflexivity.
Defined.

(** C10 at the binary64 instance. *)
Lemma time_step_in_bounds_witness :
  time_step demo_params demo_store <> Raise IndexError /\
  (valid_spacing demo_params ->
   exists (s' : store float) (sw bd : list event),
     time_step demo_params demo_store = Ok (tt, s') /\
     trace s' = trace demo_store ++ Copy :: sw ++ bd /\
     sw = sweep_trace (range 1 (nx demo_params - 1)) /\
     bd = boundary_trace (length (u demo_store))
            ++ wrap_trace (length (u demo_store)) /\
     Forall (fun e => exists (i : Z) (k : nat),
               (1 <= i <= nx demo_params - 2)%Z /\ position e = Some k /\
               (Z.of_nat k = i - 1 \/ Z.of_nat k = i \/ Z.of_nat k = i + 1)%Z /\
               (Z.of_nat k < nx demo_params)%Z) sw /\
     Forall (fun e => exists k : nat,
               position e = Some k /\
               (Z.of_nat k = 0 \/ Z.of_nat k = 1 \/
                Z.of_nat k = nx demo_params - 2 \/
                Z.of_nat k = nx demo_params - 1)%Z /\
               (Z.of_nat k < nx demo_params)%Z) bd).
Proof.
  apply (time_step_in_bounds demo_params demo_store);
    [reflexivity | cbn; lia].
Defined.

(** A spacing whose square underflows to zero. *)
Lemma degenerate_spacing_raises_witness :
  exists e : exn,
    time_step (Params 5 3 0x1p-600 0.25 0x1p-602)%float demo_store = Raise e /\
    (e = OverflowError \/ e = ZeroDivisionError).
Proof.
  apply (degenerate_spacing_raises
           (Params 5 3 0x1p-600 0.25 0x1p-602)%float demo_store);
    [intros [_ Hz]; vm_compute in Hz; discriminate Hz | cbn; lia | reflexivity].
Defined.

(** Five points and three steps in binary64 on a machine that can build
    every array, with the identity in [x] for [ufunc]. *)
Lemma notebook_returns_fields_witness :
  (int_overflows (F := float) 3 = false ->
   notebook 0x1.921fb54442d18p+1%float (fun n => replicate n 0%float)
            (fun _ x _ => x) (fun _ => None) 5 3 0.25%float
   = Ok (fields 0x1.921fb54442d18p+1%float (fun _ x _ => x) 5 3 0.25%float)) /\
  (int_overflows (F := float) 3 = true ->
   notebook 0x1.921fb54442d18p+1%float (fun n => replicate n 0%float)
            (fun _ x _ => x) (fun _ => None) 5 3 0.25%float
   = Raise OverflowError).
Proof.
  apply (notebook_returns_fields 0x1.921fb54442d18p+1%float
           (fun n => replicate n 0%float) (fun _ x _ => x) (fun _ => None)
           5 3 0.25%float);
    [lia | reflexivity | reflexivity | reflexivity | reflexivity].
Defined.

(** The derivative at [t = 0], [x = 1], [nu = 0.07]. *)
Lemma phiprime_is_derivative_witness :
  derivable_pt_lim (fun y => phi 0%R y (7 / 100)%R) 1%R
                   (phiprime 0%R 1%R (7 / 100)%R).
Proof.
  apply (phiprime_is_derivative 0%R 1%R (7 / 100)%R). lra.
Defined.

#[local] Existing Instance arith_inhabited.

(** A field of three entries where [nx = 5]. *)
Lemma short_field_raises_witness :
  time_step demo_params (Store [1; 2; 4]%float [] []) = Raise IndexError /\
  ((1 <= nt demo_params)%Z ->
   march demo_params (Store [1; 2; 4]%float [] []) = Raise IndexError).
Proof.
  apply (short_field_raises demo_params (Store [1; 2; 4]%float [] []));
    [split; reflexivity | cbn; lia].
Defined.

(** One step and two more, at the binary64 instance. *)
Lemma run_compose_witness :
  run demo_params (1 + 2) demo_store
  = bind (run demo_params 1) (fun _ => run demo_params 2) demo_store.
Proof.
  apply (run_compose demo_params 1 2 demo_store); lia.
Defined.

Lemma march_leaves_previous_level_witness :
  exists s : store float,
    march demo_params demo_store = Ok (tt, s) /\
    un s = field_after demo_params (Z.to_nat (nt demo_params - 1)) (u demo_store) /\
    u s = next_field demo_params (un s) /\
    Z.of_nat (length (u s)) = nx demo_params /\
    Z.of_nat (length (un s)) = nx demo_params.
Proof.
  apply (march_leaves_previous_level demo_params demo_store);
    [split; reflexivity | reflexivity | cbn; lia | cbn; lia].
Defined.

(** The binary64 field, whose two ends agree. *)
Lemma step_is_ring_stencil_witness :
  exists s' : store float,
    time_step demo_params demo_store = Ok (tt, s') /\
    (forall i : nat,
       (i < length (u demo_store) - 1)%nat ->
       u s' !! i =
         Some (burgers demo_params
                 (u demo_store !!! ((i + (length (u demo_store) - 1) - 1)
                                    mod (length (u demo_store) - 1))%nat)
                 (u demo_store !!! i)
                 (u demo_store !!! ((i + 1) mod (length (u demo_store) - 1))%nat))) /\
    last (u s') = head (u s').
Proof.
  apply (step_is_ring_stencil demo_params demo_store);
    [split; reflexivity | reflexivity | cbn; lia | reflexivity].
Defined.

(** The seam of the binary64 field moved by two points. *)
Lemma step_commutes_with_reseam_witness :
  exists s1 s2 : store float,
    time_step demo_params demo_store = Ok (tt, s1) /\
    time_step demo_params
      (Store (reseam 2 (u demo_store)) (un demo_store) (trace demo_store))
      = Ok (tt, s2) /\
    u s2 = reseam 2 (u s1).
Proof.
  apply (step_commutes_with_reseam demo_params demo_store 2);
    [split; reflexivity | reflexivity | cbn; lia | reflexivity].
Defined.

(** Three entries equal to 5, two steps. *)
Lemma uniform_field_is_steady_witness :
  exists s' : store R,
    run real_demo_params 2 (Store [5; 5; 5]%R [] []) = Ok (tt, s') /\
    u s' = [5; 5; 5]%R.
Proof.
  apply (uniform_field_is_steady real_demo_params
           (Store [5; 5; 5]%R [] []) 2 5%R);
    [cbn; lra | reflexivity | cbn; lia | repeat constructor].
Defined.

(** [dt / dx = 1/4] and [nu * dt / dx^2 = 1/16], with the field in
    [[0, 2]]. *)
Lemma maximum_principle_witness :
  exists s' : store R,
    run real_demo_params 2 real_demo_store = Ok (tt, s') /\
    Forall (fun v => (0 <= v <= 2)%R) (u s').
Proof.
  apply (maximum_principle real_demo_params real_demo_store 2 0%R 2%R);
    [cbn; lra | reflexivity | cbn; lia | cbn; lra | cbn; lra | cbn; lra
    | cbn; lra | repeat constructor; lra].
Defined.

(** The notebook's grid at its middle point. *)
Lemma grid_is_uniform_witness :
  exists (p : params R) (x : list R) (s : store R),
    real_setup 101 100 (7 / 100)%R = Ok (p, x, s) /\
    x !! 50%nat = Some (INR 50 * dx p)%R /\
    (IZR (101 - 1) * dx p = 2 * PI)%R /\
    dt p = (dx p * nu p)%R /\
    nu p = (7 / 100)%R /\ nx p = 101%Z /\ nt p = 100%Z /\
    u s !! 50%nat = Some (analytical 0%R (INR 50 * dx p)%R (7 / 100)%R).
Proof.
  apply (grid_is_uniform 101 100 (7 / 100)%R 50); lia.
Defined.


Lemma analytical_solves_burgers_witness :
  exists (ut uxx : R) (ux : R -> R),
    derivable_pt_lim (fun s => analytical s 1%R (7 / 100)%R) 0%R ut /\
    (forall y : R,
       derivable_pt_lim (fun z => analytical 0%R z (7 / 100)%R) y (ux y)) /\
    derivable_pt_lim ux 1%R uxx /\
    (ut + analytical 0 1 (7 / 100) * ux 1 = 7 / 100 * uxx)%R.
Proof.
  apply (analytical_solves_burgers 0%R 1%R (7 / 100)%R); lra.
Defined.


Lemma notebook_shapes_witness :
  exists x uc ua : list float,
    notebook 0x1.921fb54442d18p+1%float (fun n => replicate n 0%float)
             (fun _ x _ => x) (fun _ => None) 5 3 0.25%float = Ok (x, uc, ua) /\
    Z.of_nat (length x) = 5%Z /\
    Z.of_nat (length uc) = 5%Z /\
    Z.of_nat (length ua) = 5%Z.
Proof.
  apply (notebook_shapes 0x1.921fb54442d18p+1%float
           (fun n => replicate n 0%float) (fun _ x _ => x) (fun _ => None)
           5 3 0.25%float);
    [lia | reflexivity | reflexivity | reflexivity | reflexivity | reflexivity].
Defined.

(** A binary64 field of five entries where [nx = 3]. *)
Lemma long_field_partly_updated_witness :
  exists s' : store float,
    time_step (Params 3 3 0.5 0.25 0.125)%float demo_store = Ok (tt, s') /\
    un s' = u demo_store /\
    length (u s') = length (u demo_store) /\
    u s' !! 0%nat
      = Some (boundary_value (Params 3 3 0.5 0.25 0.125)%float (u demo_store)) /\
    last (u s')
      = Some (boundary_value (Params 3 3 0.5 0.25 0.125)%float (u demo_store)) /\
    (forall i : nat,
       (1 <= i)%nat ->
       (Z.of_nat i <= nx (Params 3 3 0.5 0.25 0.125)%float - 2)%Z ->
       u s' !! i
         = Some (interior_value (Params 3 3 0.5 0.25 0.125)%float (u demo_store) i)) /\
    (forall i : nat,
       (nx (Params 3 3 0.5 0.25 0.125)%float - 1 <= Z.of_nat i)%Z ->
       (i + 1 < length (u demo_store))%nat ->
       u s' !! i = u demo_store !! i).
Proof.
  apply (long_field_partly_updated (Params 3 3 0.5 0.25 0.125)%float demo_store);
    [split; reflexivity | cbn; lia | cbn; lia].
Defined.


(** The field [1, 2, 1] over a ring of two points. *)
Lemma total_over_period_decreases_witness :
  exists s' : store R,
    time_step real_demo_params real_demo_store = Ok (tt, s') /\
    total (ring (u s')) =
      (total (ring (u real_demo_store))
       - dt real_demo_params / dx real_demo_params / 2
         * total ((fun i =>
                     (ring (u real_demo_store) !!! i
                      - ring (u real_demo_store)
                          !!! ((i + length (ring (u real_demo_store)) - 1)
                               mod length (ring (u real_demo_store)))%nat) ^ 2)
                    <$> seq 0 (length (ring (u real_demo_store)))))%R /\
    ((0 <= dt real_demo_params / dx real_demo_params)%R ->
     (total (ring (u s')) <= total (ring (u real_demo_store)))%R).
Proof.
  apply (total_over_period_decreases real_demo_params real_demo_store);
    [cbn; lra | reflexivity | cbn; lia | reflexivity].
Defined.

(** * Soundness of the interval arithmetic *)

Section IntervalSoundness.
Local Open Scope R_scope.

Lemma scale_pos : 0 < IZR scale.
Proof. apply IZR_lt. reflexivity. Qed.

Lemma floor_div_le (n d : Z) : (0 < d)%Z -> IZR (n / d) <= IZR n / IZR d.
Proof.
  intros Hd. assert (Hd' : 0 < IZR d) by (apply IZR_lt; exact Hd).
  apply Rmult_le_reg_r with (IZR d); [exact Hd'|].
  unfold Rdiv. rewrite Rmult_assoc, Rinv_l, Rmult_1_r by lra.
  rewrite <- mult_IZR. apply IZR_le.
  rewrite Z.mul_comm. apply Z.mul_div_le. exact Hd.
Qed.

Lemma ceil_div_ge (n d : Z) : (0 < d)%Z -> IZR n / IZR d <= IZR (- (- n / d)).
Proof.
  intros Hd. pose proof (floor_div_le (- n) d Hd) as Hf.
  rewrite opp_IZR in *. unfold Rdiv in *. lra.
Qed.

Lemma to_Z_prec : BigZ.to_Z prec = 320%Z.
Proof. reflexivity. Qed.

Lemma to_Z_down (z : bigZ) : BigZ.to_Z (down z) = (BigZ.to_Z z / scale)%Z.
Proof.
  unfold down. rewrite BigZ.spec_shiftr, to_Z_prec.
  apply Z.shiftr_div_pow2. lia.
Qed.

Lemma to_Z_up (z : bigZ) : BigZ.to_Z (up z) = (- (- BigZ.to_Z z / scale))%Z.
Proof.
  unfold up. rewrite BigZ.spec_opp, BigZ.spec_shiftr, BigZ.spec_opp, to_Z_prec.
  f_equal. apply Z.shiftr_div_pow2. lia.
Qed.

Lemma to_Z_lift (z : bigZ) : BigZ.to_Z (lift z) = (BigZ.to_Z z * scale)%Z.
Proof.
  unfold lift. rewrite BigZ.spec_shiftl, to_Z_prec.
  apply Z.shiftl_mul_pow2. lia.
Qed.

Lemma val_add (a b : bigZ) : val (BigZ.add a b) = val a + val b.
Proof. unfold val. rewrite BigZ.spec_add, plus_IZR. unfold Rdiv. ring. Qed.

Lemma val_sub (a b : bigZ) : val (BigZ.sub a b) = val a - val b.
Proof. unfold val. rewrite BigZ.spec_sub, minus_IZR. unfold Rdiv. ring. Qed.

Lemma val_opp (a : bigZ) : val (BigZ.opp a) = - val a.
Proof. unfold val. rewrite BigZ.spec_opp, opp_IZR. unfold Rdiv. ring. Qed.

Lemma val_lift (z : bigZ) : val (lift z) = IZR (BigZ.to_Z z).
Proof.
  unfold val. rewrite to_Z_lift, mult_IZR. field.
  pose proof scale_pos. lra.
Qed.

Lemma val_0 : val 0%bigZ = 0.
Proof. unfold val. change (BigZ.to_Z 0) with 0%Z. unfold Rdiv. ring. Qed.

(** Rounding down the integer [z], which stands for [z / scale^2]. *)
Lemma val_down (z : bigZ) : val (down z) <= IZR (BigZ.to_Z z) / IZR scale / IZR scale.
Proof.
  unfold val. rewrite to_Z_down. pose proof scale_pos as Hs.
  apply Rmult_le_compat_r; [left; apply Rinv_0_lt_compat; exact Hs|].
  apply floor_div_le. reflexivity.
Qed.

Lemma val_up (z : bigZ) : IZR (BigZ.to_Z z) / IZR scale / IZR scale <= val (up z).
Proof.
  unfold val. rewrite to_Z_up. pose proof scale_pos as Hs.
  apply Rmult_le_compat_r; [left; apply Rinv_0_lt_compat; exact Hs|].
  apply ceil_div_ge. reflexivity.
Qed.

Lemma val_mul (a b : bigZ) :
  IZR (BigZ.to_Z (BigZ.mul a b)) / IZR scale / IZR scale = val a * val b.
Proof.
  unfold val. rewrite BigZ.spec_mul, mult_IZR. field.
  pose proof scale_pos. lra.
Qed.

Lemma contains_add (I J : itv) (x y : R) :
  contains I x -> contains J y -> contains (iadd I J) (x + y).
Proof.
  destruct I as [|a b], J as [|c d]; simpl; try easy.
  rewrite !val_add. lra.
Qed.

Lemma contains_sub (I J : itv) (x y : R) :
  contains I x -> contains J y -> contains (isub I J) (x - y).
Proof.
  destruct I as [|a b], J as [|c d]; simpl; try easy.
  rewrite !val_sub. lra.
Qed.

Lemma contains_neg (I : itv) (x : R) :
  contains I x -> contains (ineg I) (- x).
Proof.
  destruct I as [|a b]; simpl; try easy.
  rewrite !val_opp. lra.
Qed.

Lemma contains_of_int (z : Z) : contains (iof_int z) (IZR z).
Proof.
  unfold iof_int. simpl. rewrite val_lift, BigZ.spec_of_Z. lra.
Qed.

Lemma factor_bounds (a b x y : R) :
  a <= x <= b ->
  (0 <= y -> a * y <= x * y <= b * y) /\ (y <= 0 -> b * y <= x * y <= a * y).
Proof. intros Hx. split; intros Hy; split; nra. Qed.

(** A product lies between the products of the endpoints. *)
Lemma product_bounds (a b c d x y : R) :
  a <= x <= b -> c <= y <= d ->
  (a * c <= x * y \/ a * d <= x * y \/ b * c <= x * y \/ b * d <= x * y) /\
  (x * y <= a * c \/ x * y <= a * d \/ x * y <= b * c \/ x * y <= b * d).
Proof.
  intros Hx Hy.
  destruct (factor_bounds a b x y Hx) as [Hpos Hneg].
  destruct (factor_bounds c d y a Hy) as [Hapos Haneg].
  destruct (factor_bounds c d y b Hy) as [Hbpos Hbneg].
  rewrite !(Rmult_comm _ a) in Hapos, Haneg.
  rewrite !(Rmult_comm _ b) in Hbpos, Hbneg.
  destruct (Rle_dec 0 y) as [Hy0|Hy0];
    [specialize (Hpos Hy0); clear Hneg
    |specialize (Hneg ltac:(lra)); clear Hpos];
  (destruct (Rle_dec 0 a) as [Ha0|Ha0];
    [specialize (Hapos Ha0); clear Haneg
    |specialize (Haneg ltac:(lra)); clear Hapos]);
  (destruct (Rle_dec 0 b) as [Hb0|Hb0];
    [specialize (Hbpos Hb0); clear Hbneg
    |specialize (Hbneg ltac:(lra)); clear Hbpos]);
  split;
  first [ left; lra | right; left; lra | right; right; left; lra
        | right; right; right; lra ].
Qed.

Lemma min4_le (p q r t : bigZ) :
  let m := BigZ.to_Z (min4 p q r t) in
  (m <= BigZ.to_Z p /\ m <= BigZ.to_Z q /\ m <= BigZ.to_Z r /\ m <= BigZ.to_Z t)%Z.
Proof. unfold min4. rewrite !BigZ.spec_min. lia. Qed.

Lemma max4_ge (p q r t : bigZ) :
  let m := BigZ.to_Z (max4 p q r t) in
  (BigZ.to_Z p <= m /\ BigZ.to_Z q <= m /\ BigZ.to_Z r <= m /\ BigZ.to_Z t <= m)%Z.
Proof. unfold max4. rewrite !BigZ.spec_max. lia. Qed.

Lemma val2_le (p q : bigZ) : (BigZ.to_Z p <= BigZ.to_Z q)%Z -> val2 p <= val2 q.
Proof.
  intros Hle. unfold val2. pose proof scale_pos as Hs. apply IZR_le in Hle.
  assert (Hi : 0 < / IZR scale) by (apply Rinv_0_lt_compat; exact Hs).
  unfold Rdiv. nra.
Qed.

Lemma contains_mul (I J : itv) (x y : R) :
  contains I x -> contains J y -> contains (imul I J) (x * y).
Proof.
  destruct I as [|a b], J as [|c d]; simpl; try easy.
  intros Hx Hy.
  destruct (product_bounds _ _ _ _ _ _ Hx Hy) as [Hlo Hhi].
  rewrite <- !val_mul in Hlo, Hhi. fold (val2 (BigZ.mul a c)) in Hlo, Hhi.
  fold (val2 (BigZ.mul a d)) in Hlo, Hhi. fold (val2 (BigZ.mul b c)) in Hlo, Hhi.
  fold (val2 (BigZ.mul b d)) in Hlo, Hhi.
  destruct (min4_le (BigZ.mul a c) (BigZ.mul a d) (BigZ.mul b c) (BigZ.mul b d))
    as (H1 & H2 & H3 & H4).
  destruct (max4_ge (BigZ.mul a c) (BigZ.mul a d) (BigZ.mul b c) (BigZ.mul b d))
    as (G1 & G2 & G3 & G4).
  apply val2_le in H1, H2, H3, H4, G1, G2, G3, G4.
  pose proof (val_down (min4 (BigZ.mul a c) (BigZ.mul a d) (BigZ.mul b c) (BigZ.mul b d))) as Hd.
  pose proof (val_up (max4 (BigZ.mul a c) (BigZ.mul a d) (BigZ.mul b c) (BigZ.mul b d))) as Hu.
  fold (val2 (min4 (BigZ.mul a c) (BigZ.mul a d) (BigZ.mul b c) (BigZ.mul b d))) in Hd.
  fold (val2 (max4 (BigZ.mul a c) (BigZ.mul a d) (BigZ.mul b c) (BigZ.mul b d))) in Hu.
  split.
  - destruct Hlo as [?|[?|[?|?]]]; lra.
  - destruct Hhi as [?|[?|[?|?]]]; lra.
Qed.

Lemma to_Z_fdiv (x y : bigZ) :
  BigZ.to_Z (fdiv x y) = (BigZ.to_Z x / BigZ.to_Z y)%Z.
Proof. apply BigZ.spec_div. Qed.

Lemma to_Z_cdiv (x y : bigZ) :
  BigZ.to_Z (cdiv x y) = (- (- BigZ.to_Z x / BigZ.to_Z y))%Z.
Proof. unfold cdiv. rewrite BigZ.spec_opp, BigZ.spec_div, BigZ.spec_opp. reflexivity. Qed.

(** Quotients of fixed-point numbers, rounded down and up. *)
Lemma val_fdiv (a e : bigZ) :
  (0 < BigZ.to_Z e)%Z -> val (fdiv (lift a) e) <= val a / val e.
Proof.
  intros He. unfold val. rewrite to_Z_fdiv, to_Z_lift.
  pose proof scale_pos as Hs. pose proof (IZR_lt _ _ He) as He'.
  pose proof (floor_div_le (BigZ.to_Z a * scale) (BigZ.to_Z e) He) as Hf.
  rewrite mult_IZR in Hf.
  replace (IZR (BigZ.to_Z a) / IZR scale / (IZR (BigZ.to_Z e) / IZR scale))
    with (IZR (BigZ.to_Z a) * IZR scale / IZR (BigZ.to_Z e) / IZR scale)
    by (field; lra).
  apply Rmult_le_compat_r; [left; apply Rinv_0_lt_compat; exact Hs|exact Hf].
Qed.

Lemma val_cdiv (a e : bigZ) :
  (0 < BigZ.to_Z e)%Z -> val a / val e <= val (cdiv (lift a) e).
Proof.
  intros He. unfold val. rewrite to_Z_cdiv, to_Z_lift.
  pose proof scale_pos as Hs. pose proof (IZR_lt _ _ He) as He'.
  pose proof (ceil_div_ge (BigZ.to_Z a * scale) (BigZ.to_Z e) He) as Hf.
  rewrite mult_IZR in Hf.
  replace (IZR (BigZ.to_Z a) / IZR scale / (IZR (BigZ.to_Z e) / IZR scale))
    with (IZR (BigZ.to_Z a) * IZR scale / IZR (BigZ.to_Z e) / IZR scale)
    by (field; lra).
  apply Rmult_le_compat_r; [left; apply Rinv_0_lt_compat; exact Hs|exact Hf].
Qed.

Lemma val_pos (e : bigZ) : (0 < BigZ.to_Z e)%Z -> 0 < val e.
Proof.
  intros He. unfold val. apply Rdiv_lt_0_compat; [|apply scale_pos].
  apply (IZR_lt 0). exact He.
Qed.

Lemma val_le (p q : bigZ) : (BigZ.to_Z p <= BigZ.to_Z q)%Z -> val p <= val q.
Proof.
  intros Hle. unfold val. apply IZR_le in Hle. pose proof scale_pos as Hs.
  apply Rmult_le_compat_r; [left; apply Rinv_0_lt_compat; exact Hs|exact Hle].
Qed.

Lemma val_nonneg (a : bigZ) : (0 <= BigZ.to_Z a)%Z -> 0 <= val a.
Proof. intros Ha. rewrite <- val_0. apply val_le. exact Ha. Qed.

Lemma val_neg (a : bigZ) : (BigZ.to_Z a < 0)%Z -> val a <= 0.
Proof. intros Ha. rewrite <- val_0. apply val_le. change (BigZ.to_Z 0) with 0%Z. lia. Qed.

(** A quotient by a positive number lies above the quotient of a lower
    bound by the suitable end of the divisor's interval. *)
Lemma quotient_lower (a c d x y : R) :
  0 < c -> c <= y <= d -> a <= x ->
  (0 <= a -> a / d <= x / y) /\ (a <= 0 -> a / c <= x / y).
Proof.
  intros Hc Hy Hx.
  assert (Hiy : 0 < / y) by (apply Rinv_0_lt_compat; lra).
  assert (Hid : / d <= / y) by (apply Rinv_le_contravar; lra).
  assert (Hic : / y <= / c) by (apply Rinv_le_contravar; lra).
  unfold Rdiv. split; intros Ha; nra.
Qed.

Lemma quotient_upper (b c d x y : R) :
  0 < c -> c <= y <= d -> x <= b ->
  (0 <= b -> x / y <= b / c) /\ (b <= 0 -> x / y <= b / d).
Proof.
  intros Hc Hy Hx.
  assert (Hiy : 0 < / y) by (apply Rinv_0_lt_compat; lra).
  assert (Hid : / d <= / y) by (apply Rinv_le_contravar; lra).
  assert (Hic : / y <= / c) by (apply Rinv_le_contravar; lra).
  unfold Rdiv. split; intros Hb; nra.
Qed.

Lemma contains_div (I J : itv) (x y : R) :
  contains I x -> contains J y -> contains (idiv I J) (x / y).
Proof.
  destruct I as [|a b], J as [|c d]; simpl; try easy.
  intros Hx Hy. rewrite BigZ.spec_ltb. change (BigZ.to_Z 0) with 0%Z.
  destruct (Z.ltb_spec 0 (BigZ.to_Z c)) as [Hc|Hc]; [|exact I].
  pose proof (val_pos c Hc) as Hc'.
  assert (Hd : (0 < BigZ.to_Z d)%Z).
  { apply lt_IZR. apply Rmult_lt_reg_r with (/ IZR scale).
    - apply Rinv_0_lt_compat, scale_pos.
    - rewrite Rmult_0_l. fold (Rdiv (IZR (BigZ.to_Z d)) (IZR scale)).
      fold (val d). lra. }
  destruct (quotient_lower (val a) (val c) (val d) x y Hc' Hy ltac:(lra))
    as [Hlo1 Hlo2].
  destruct (quotient_upper (val b) (val c) (val d) x y Hc' Hy ltac:(lra))
    as [Hhi1 Hhi2].
  simpl. rewrite !BigZ.spec_leb. change (BigZ.to_Z 0) with 0%Z. split.
  - destruct (Z.leb_spec 0 (BigZ.to_Z a)) as [Ha|Ha].
    + eapply Rle_trans; [apply val_fdiv; exact Hd|].
      apply Hlo1, val_nonneg, Ha.
    + eapply Rle_trans; [apply val_fdiv; exact Hc|].
      apply Hlo2, val_neg, Ha.
  - destruct (Z.leb_spec 0 (BigZ.to_Z b)) as [Hb|Hb].
    + eapply Rle_trans; [|apply val_cdiv; exact Hc].
      apply Hhi1, val_nonneg, Hb.
    + eapply Rle_trans; [|apply val_cdiv; exact Hd].
      apply Hhi2, val_neg, Hb.
Qed.

Lemma val2_square (a : bigZ) : val2 (BigZ.square a) = val a * val a.
Proof.
  unfold val2, val. rewrite BigZ.spec_square, mult_IZR. field.
  pose proof scale_pos. lra.
Qed.

Lemma val_down2 (z : bigZ) : val (down z) <= val2 z.
Proof. apply val_down. Qed.

Lemma val_up2 (z : bigZ) : val2 z <= val (up z).
Proof. apply val_up. Qed.

Lemma contains_sqr (I : itv) (x : R) :
  contains I x -> contains (isqr I) (x ^ 2).
Proof.
  destruct I as [|a b]; simpl; try easy.
  intros Hx. rewrite !BigZ.spec_leb. change (BigZ.to_Z 0) with 0%Z.
  pose proof (val_down2 (BigZ.square a)) as Hda.
  pose proof (val_down2 (BigZ.square b)) as Hdb.
  pose proof (val_up2 (BigZ.square a)) as Hua.
  pose proof (val_up2 (BigZ.square b)) as Hub.
  rewrite val2_square in Hda, Hdb, Hua, Hub.
  destruct (Z.leb_spec 0 (BigZ.to_Z a)) as [Ha|Ha].
  - apply val_nonneg in Ha. simpl. split; nra.
  - destruct (Z.leb_spec (BigZ.to_Z b) 0) as [Hb|Hb].
    + assert (Hb' : val b <= 0).
      { rewrite <- val_0. apply val_le. exact Hb. }
      simpl. split; nra.
    + apply val_neg in Ha. simpl. rewrite val_0. split; [nra|].
      pose proof (val_up2 (BigZ.max (BigZ.square a) (BigZ.square b))) as Hum.
      assert (Hma : val2 (BigZ.square a)
                    <= val2 (BigZ.max (BigZ.square a) (BigZ.square b))).
      { apply val2_le. rewrite BigZ.spec_max. lia. }
      assert (Hmb : val2 (BigZ.square b)
                    <= val2 (BigZ.max (BigZ.square a) (BigZ.square b))).
      { apply val2_le. rewrite BigZ.spec_max. lia. }
      rewrite val2_square in Hma, Hmb.
      assert (Hb' : 0 <= val b).
      { apply val_nonneg. lia. }
      destruct (Rle_dec 0 x); nra.
Qed.

(** *** The exponential *)

Lemma exp_mult_nat (n : nat) (t : R) : Rtrigo_def.exp (INR n * t) = Rtrigo_def.exp t ^ n.
Proof.
  induction n as [|n IH].
  - simpl. rewrite Rmult_0_l. apply exp_0.
  - rewrite S_INR, Rmult_plus_distr_r, Rmult_1_l, exp_plus, IH. simpl. ring.
Qed.

Lemma exp_halving (k : nat) (t : R) :
  Rtrigo_def.exp t = Rtrigo_def.exp (t / 2 ^ k) ^ (2 ^ k).
Proof.
  rewrite <- exp_mult_nat, pow_INR. f_equal.
  replace (INR 2) with 2 by (simpl; lra).
  assert (Hq : 2 ^ k <> 0) by (apply pow_nonzero; lra).
  revert Hq. generalize (2 ^ k). intros q Hq. field. exact Hq.
Qed.

Lemma exp_le (x y : R) : x <= y -> Rtrigo_def.exp x <= Rtrigo_def.exp y.
Proof.
  intros [Hlt | ->]; [left; apply exp_increasing; exact Hlt|right; reflexivity].
Qed.

Lemma to_Z_square_down_nonneg (k : nat) (b : bigZ) :
  (0 <= BigZ.to_Z b)%Z -> (0 <= BigZ.to_Z (square_down k b))%Z.
Proof.
  revert b. induction k as [|k IH]; intros b Hb; [exact Hb|].
  simpl. apply IH. rewrite to_Z_down, BigZ.spec_square.
  apply Z.div_pos; [nia|reflexivity].
Qed.

Lemma square_down_le (k : nat) (b : bigZ) (r : R) :
  (0 <= BigZ.to_Z b)%Z -> val b <= r -> val (square_down k b) <= r ^ (2 ^ k).
Proof.
  revert b r. induction k as [|k IH]; intros b r Hb Hr.
  - simpl. lra.
  - cbn [square_down]. rewrite Nat.pow_succ_r', pow_mult.
    apply IH.
    + rewrite to_Z_down, BigZ.spec_square. apply Z.div_pos; [nia|reflexivity].
    + eapply Rle_trans; [apply val_down2|]. rewrite val2_square.
      pose proof (val_nonneg b Hb). simpl. nra.
Qed.

Lemma square_down_ge_scale (k : nat) (b : bigZ) :
  (scale <= BigZ.to_Z b)%Z -> (scale <= BigZ.to_Z (square_down k b))%Z.
Proof.
  revert b. induction k as [|k IH]; intros b Hb; [exact Hb|].
  cbn [square_down]. apply IH. rewrite to_Z_down, BigZ.spec_square.
  assert (Hs : (0 < scale)%Z) by reflexivity.
  apply Z.div_le_lower_bound; [exact Hs|]. nia.
Qed.

Lemma to_Z_halve (x : bigZ) :
  BigZ.to_Z (halve x) = (BigZ.to_Z x / 2 ^ Z.of_nat halvings)%Z.
Proof.
  unfold halve. rewrite BigZ.spec_shiftr, BigZ.spec_of_Z.
  apply Z.shiftr_div_pow2. lia.
Qed.

Lemma val_halve (x : bigZ) : val (halve x) <= val x / 2 ^ halvings.
Proof.
  unfold val. rewrite to_Z_halve. pose proof scale_pos as Hs.
  assert (Hp : (0 < 2 ^ Z.of_nat halvings)%Z) by (apply Z.pow_pos_nonneg; lia).
  pose proof (floor_div_le (BigZ.to_Z x) _ Hp) as Hf.
  rewrite <- pow_IZR in Hf.
  assert (Hq : 0 < 2 ^ halvings) by (apply pow_lt; lra).
  replace (IZR (BigZ.to_Z x) / IZR scale / 2 ^ halvings)
    with (IZR (BigZ.to_Z x) / 2 ^ halvings / IZR scale) by (field; lra).
  apply Rmult_le_compat_r; [left; apply Rinv_0_lt_compat; exact Hs|exact Hf].
Qed.

Lemma val_one : val (lift 1%bigZ) = 1.
Proof. rewrite val_lift. reflexivity. Qed.

Lemma exp_lower_sound (a : bigZ) (t : R) :
  val a <= t -> val (exp_lower a) <= Rtrigo_def.exp t.
Proof.
  intros Ht. unfold exp_lower. rewrite BigZ.spec_ltb. change (BigZ.to_Z 0) with 0%Z.
  destruct (Z.ltb_spec (BigZ.to_Z (BigZ.add (lift 1%bigZ) (halve a))) 0) as [Hneg|Hpos].
  - rewrite val_0. left. apply exp_pos.
  - eapply Rle_trans; [apply (square_down_le _ _ (Rtrigo_def.exp (val a / 2 ^ halvings)) Hpos)|].
    + rewrite val_add, val_one. pose proof (val_halve a).
      pose proof (exp_ineq1_le (val a / 2 ^ halvings)). lra.
    + rewrite <- exp_halving. apply exp_le. exact Ht.
Qed.

Lemma exp_upper_sound (b : bigZ) (t : R) :
  (BigZ.to_Z b <= 0)%Z -> t <= val b -> Rtrigo_def.exp t <= val (exp_upper b).
Proof.
  intros Hb Ht. unfold exp_upper.
  set (g := BigZ.add (lift 1%bigZ) (halve (BigZ.opp b))).
  assert (Hg : (scale <= BigZ.to_Z g)%Z).
  { subst g. rewrite BigZ.spec_add, to_Z_lift, to_Z_halve, BigZ.spec_opp.
    change (BigZ.to_Z 1) with 1%Z.
    assert (0 <= - BigZ.to_Z b / 2 ^ Z.of_nat halvings)%Z
      by (apply Z.div_pos; [lia|apply Z.pow_pos_nonneg; lia]).
    lia. }
  assert (Hs : (0 < scale)%Z) by reflexivity.
  pose proof (square_down_ge_scale halvings g Hg) as Hd.
  assert (Hd0 : (0 < BigZ.to_Z (square_down halvings g))%Z) by lia.
  assert (Hle : val (square_down halvings g) <= Rtrigo_def.exp (- val b)).
  { rewrite (exp_halving halvings (- val b)).
    apply square_down_le; [lia|].
    subst g. rewrite val_add, val_one.
    pose proof (val_halve (BigZ.opp b)) as Hh. rewrite val_opp in Hh.
    pose proof (exp_ineq1_le (- val b / 2 ^ halvings)). lra. }
  eapply Rle_trans; [|apply val_cdiv; exact Hd0].
  rewrite val_one. pose proof (val_pos _ Hd0) as Hp.
  eapply Rle_trans; [apply exp_le; exact Ht|].
  rewrite <- (Ropp_involutive (val b)) at 1. rewrite exp_Ropp.
  unfold Rdiv. rewrite Rmult_1_l. apply Rinv_le_contravar; assumption.
Qed.

Lemma contains_exp (I : itv) (x : R) :
  contains I x -> contains (iexp I) (Rtrigo_def.exp x).
Proof.
  destruct I as [|a b]; simpl; try easy.
  intros Hx. rewrite BigZ.spec_leb. change (BigZ.to_Z 0) with 0%Z.
  destruct (Z.leb_spec (BigZ.to_Z b) 0) as [Hb|Hb]; [|exact I].
  split; [apply exp_lower_sound|apply exp_upper_sound]; tauto.
Qed.

(** *** The constant pi *)

Lemma contains_pi_term (i : nat) : contains (pi_term i) (PI_2_3_7_tg i).
Proof.
  unfold pi_term, PI_2_3_7_tg, Ratan_seq.
  set (n := (2 * i + 1)%nat).
  replace (2 * ((/ 3) ^ n / INR n) + (/ 7) ^ n / INR n)
    with (IZR 2 / IZR (3 ^ Z.of_nat n * Z.of_nat n)
          + IZR 1 / IZR (7 ^ Z.of_nat n * Z.of_nat n)).
  - apply contains_add; apply contains_div; apply contains_of_int.
  - rewrite !mult_IZR, <- !pow_IZR, <- INR_IZR_INZ, !pow_inv.
    assert (H3 : 3 ^ n <> 0) by (apply pow_nonzero; lra).
    assert (H7 : 7 ^ n <> 0) by (apply pow_nonzero; lra).
    assert (Hn : INR n <> 0) by (apply not_0_INR; subst n; lia).
    revert H3 H7 Hn. generalize (3 ^ n) (7 ^ n) (INR n). intros p3 p7 q H3 H7 Hq.
    field. auto.
Qed.

Lemma pow_minus_one_even (n : nat) : Nat.even n = true -> (-1) ^ n = 1.
Proof.
  intros He. apply Nat.even_spec in He as [m ->]. apply pow_1_even.
Qed.

Lemma pow_minus_one_odd (n : nat) : Nat.even n = false -> (-1) ^ n = -1.
Proof.
  intros He. assert (Ho : Nat.odd n = true).
  { unfold Nat.odd. rewrite He. reflexivity. }
  apply Nat.odd_spec in Ho as [m ->].
  replace (2 * m + 1)%nat with (S (2 * m)) by lia. apply pow_1_odd.
Qed.

Lemma contains_pi_sum (n : nat) :
  contains (pi_sum n) (sum_f_R0 (tg_alt PI_2_3_7_tg) n).
Proof.
  induction n as [|n IH].
  - cbn [pi_sum sum_f_R0]. unfold tg_alt.
    replace ((-1) ^ 0 * PI_2_3_7_tg 0) with (PI_2_3_7_tg 0) by (simpl; ring).
    apply contains_pi_term.
  - cbn [pi_sum sum_f_R0]. unfold tg_alt at 2.
    destruct (Nat.even (S n)) eqn:He.
    + rewrite pow_minus_one_even by exact He. rewrite Rmult_1_l.
      apply contains_add; [exact IH|apply contains_pi_term].
    + rewrite pow_minus_one_odd by exact He.
      replace (sum_f_R0 (tg_alt PI_2_3_7_tg) n + -1 * PI_2_3_7_tg (S n))
        with (sum_f_R0 (tg_alt PI_2_3_7_tg) n - PI_2_3_7_tg (S n)) by ring.
      apply contains_sub; [exact IH|apply contains_pi_term].
Qed.

Lemma contains_from_to (I J : itv) (x y z : R) :
  contains I x -> contains J y -> x <= z <= y -> contains (from_to I J) z.
Proof.
  destruct I as [|a b], J as [|c d]; simpl; try easy. lra.
Qed.

Lemma contains_pi_bounds : contains pi_bounds PI.
Proof.
  unfold pi_bounds. replace PI with (IZR 4 * (PI / 4)) by field.
  apply contains_mul; [apply contains_of_int|].
  apply (contains_from_to _ _ _ _ _ (contains_pi_sum 105) (contains_pi_sum 104)).
  exact (PI_2_3_7_ineq 52).
Qed.

Lemma contains_pi : contains ipi PI.
Proof.
  assert (Hipi : ipi = pi_bounds) by (vm_compute; reflexivity).
  rewrite Hipi. apply contains_pi_bounds.
Qed.

End IntervalSoundness.

(** * Related arithmetics give related fields *)

Section Relational.
Context {F G : Type} `{Arith F} `{Arith G}.
Context (rel : F -> G -> Prop) `{!ArithRel rel}.

#[local] Existing Instance arith_inhabited.

Lemma burgers_rel (p : params F) (q : params G) (l c r : F) (l' c' r' : G) :
  params_rel rel p q -> rel l l' -> rel c c' -> rel r r' ->
  rel (burgers p l c r) (burgers q l' c' r').
Proof.
  intros (_ & _ & Hdx & Hnu & Hdt) Hl Hc Hr. unfold burgers.
  repeat first [ assumption | apply rel_add | apply rel_sub | apply rel_mul
               | apply rel_div | apply rel_pow2 | apply rel_of_int ].
Qed.

Lemma lookup_total_rel (w : list F) (w' : list G) (i : nat) :
  Forall2 rel w w' -> rel (w !!! i) (w' !!! i).
Proof.
  intros Hw. rewrite !list_lookup_total_alt.
  destruct (w !! i) as [x|] eqn:Hx.
  - destruct (Forall2_lookup_l _ _ _ _ _ Hw Hx) as (y & Hy & Hxy).
    rewrite Hy. exact Hxy.
  - apply lookup_ge_None in Hx. rewrite (Forall2_length _ _ _ Hw) in Hx.
    apply lookup_ge_None in Hx. rewrite Hx. simpl. apply rel_of_int.
Qed.

Lemma next_field_rel (p : params F) (q : params G) (w : list F) (w' : list G) :
  params_rel rel p q -> Forall2 rel w w' ->
  Forall2 rel (next_field p w) (next_field q w').
Proof.
  intros Hp Hw. unfold next_field.
  rewrite <- (Forall2_length _ _ _ Hw).
  assert (Hb : rel (boundary_value p w) (boundary_value q w')).
  { unfold boundary_value. rewrite <- (Forall2_length _ _ _ Hw).
    apply burgers_rel; try assumption; apply lookup_total_rel; exact Hw. }
  apply Forall2_cons; split; [exact Hb|].
  apply Forall2_app; [|apply Forall2_cons; split; [exact Hb|apply Forall2_nil_2]].
  apply Forall2_fmap, Forall_Forall2_diag, Forall_forall. intros i _.
  unfold interior_value.
  apply burgers_rel; try assumption; apply lookup_total_rel; exact Hw.
Qed.

Lemma field_after_rel (p : params F) (q : params G) (k : nat)
    (w : list F) (w' : list G) :
  params_rel rel p q -> Forall2 rel w w' ->
  Forall2 rel (field_after p k w) (field_after q k w').
Proof.
  intros Hp Hw. induction k as [|k IH]; [exact Hw|].
  unfold field_after in *. simpl. apply next_field_rel; assumption.
Qed.

Lemma samples_rel (a b : F) (a' b' : G) (num : Z) :
  rel a a' -> rel b b' -> Forall2 rel (samples a b num) (samples a' b' num).
Proof.
  intros Ha Hb. unfold samples.
  apply Forall2_app; [|apply Forall2_cons; split; [exact Hb|apply Forall2_nil_2]].
  apply Forall2_fmap, Forall_Forall2_diag, Forall_forall. intros k _.
  repeat first [ assumption | apply rel_add | apply rel_sub | apply rel_mul
               | apply rel_div | apply rel_of_int ].
Qed.

Lemma analytical_values_rel (ufunc : F -> F -> F -> F) (ufunc' : G -> G -> G -> G)
    (p : params F) (q : params G) (x : list F) (x' : list G) :
  (forall t t' y y' v v',
     rel t t' -> rel y y' -> rel v v' -> rel (ufunc t y v) (ufunc' t' y' v')) ->
  params_rel rel p q -> Forall2 rel x x' ->
  Forall2 rel (analytical_values ufunc p x) (analytical_values ufunc' q x').
Proof.
  intros Hf (_ & Hnt & _ & Hnu & Hdt) Hx. unfold analytical_values.
  apply Forall2_fmap. apply (Forall2_impl _ _ _ _ Hx). intros y y' Hy.
  apply Hf; [|exact Hy|exact Hnu].
  apply rel_mul; [rewrite Hnt; apply rel_of_int|exact Hdt].
Qed.

Lemma initial_field_rel (ufunc : F -> F -> F -> F) (ufunc' : G -> G -> G -> G)
    (v : F) (v' : G) (x : list F) (x' : list G) :
  (forall t t' y y' v v',
     rel t t' -> rel y y' -> rel v v' -> rel (ufunc t y v) (ufunc' t' y' v')) ->
  rel v v' -> Forall2 rel x x' ->
  Forall2 rel ((fun x0 => ufunc (of_int 0) x0 v) <$> x)
              ((fun x0 => ufunc' (of_int 0) x0 v') <$> x').
Proof.
  intros Hf Hv Hx.
  apply Forall2_fmap. apply (Forall2_impl _ _ _ _ Hx). intros y y' Hy.
  apply Hf; [apply rel_of_int|exact Hy|exact Hv].
Qed.

Lemma fields_rel (np_pi : F) (np_pi' : G)
    (ufunc : F -> F -> F -> F) (ufunc' : G -> G -> G -> G)
    (points steps : Z) (v : F) (v' : G) :
  rel np_pi np_pi' ->
  (forall t t' y y' v v',
     rel t t' -> rel y y' -> rel v v' -> rel (ufunc t y v) (ufunc' t' y' v')) ->
  rel v v' ->
  Forall2 rel (fields np_pi ufunc points steps v).1.1
              (fields np_pi' ufunc' points steps v').1.1 /\
  Forall2 rel (fields np_pi ufunc points steps v).1.2
              (fields np_pi' ufunc' points steps v').1.2 /\
  Forall2 rel (fields np_pi ufunc points steps v).2
              (fields np_pi' ufunc' points steps v').2.
Proof.
  intros Hpi Hf Hv. unfold fields. cbn [fst snd].
  assert (H2pi : rel (of_int 2 * np_pi)%A (of_int 2 * np_pi')%A)
    by (apply rel_mul; [apply rel_of_int|exact Hpi]).
  assert (Hdx : rel (of_int 2 * np_pi / of_int (points - 1))%A
                    (of_int 2 * np_pi' / of_int (points - 1))%A)
    by (apply rel_div; [exact H2pi|apply rel_of_int]).
  assert (Hx : Forall2 rel (samples (of_int 0) (of_int 2 * np_pi)%A points)
                           (samples (of_int 0) (of_int 2 * np_pi')%A points))
    by (apply samples_rel; [apply rel_of_int|exact H2pi]).
  assert (Hp : params_rel rel
            (Params points steps (of_int 2 * np_pi / of_int (points - 1))%A v
               (of_int 2 * np_pi / of_int (points - 1) * v)%A)
            (Params points steps (of_int 2 * np_pi' / of_int (points - 1))%A v'
               (of_int 2 * np_pi' / of_int (points - 1) * v')%A)).
  { unfold params_rel. cbn [nx nt dx nu dt].
    refine (conj eq_refl (conj eq_refl (conj Hdx (conj Hv _)))).
    apply rel_mul; assumption. }
  split; [exact Hx|]. split.
  - apply field_after_rel; [exact Hp|].
    apply initial_field_rel; assumption.
  - apply analytical_values_rel; assumption.
Qed.

Context `{Analytic F} `{Analytic G} `{!AnalyticRel rel}.

Lemma phi_rel (t x v : F) (t' x' v' : G) :
  rel t t' -> rel x x' -> rel v v' -> rel (phi t x v) (phi t' x' v').
Proof.
  intros Ht Hx Hv. unfold phi.
  repeat first [ assumption | apply rel_add | apply rel_sub | apply rel_mul
               | apply rel_div | apply rel_pow2 | apply rel_of_int
               | apply rel_neg | apply rel_exp | apply rel_pi ].
Qed.

Lemma phiprime_rel (t x v : F) (t' x' v' : G) :
  rel t t' -> rel x x' -> rel v v' -> rel (phiprime t x v) (phiprime t' x' v').
Proof.
  intros Ht Hx Hv. unfold phiprime.
  repeat first [ assumption | apply rel_add | apply rel_sub | apply rel_mul
               | apply rel_div | apply rel_pow2 | apply rel_of_int
               | apply rel_neg | apply rel_exp | apply rel_pi ].
Qed.

Lemma analytical_rel (t x v : F) (t' x' v' : G) :
  rel t t' -> rel x x' -> rel v v' ->
  rel (analytical t x v) (analytical t' x' v').
Proof.
  intros Ht Hx Hv. unfold analytical.
  apply rel_add; [|apply rel_of_int].
  apply rel_mul; [apply rel_mul; [apply rel_of_int|exact Hv]|].
  apply rel_div; [apply phiprime_rel|apply phi_rel]; assumption.
Qed.

End Relational.

(** * The end-to-end scenario of cell 5 *)

Section Scenario.
Local Open Scope R_scope.

#[local] Instance contains_arith_rel : ArithRel contains.
Proof.
  constructor.
  - intros a a' b b'. apply contains_add.
  - intros a a' b b'. apply contains_sub.
  - intros a a' b b'. apply contains_mul.
  - intros a a' b b'. apply contains_div.
  - intros a a'. apply contains_sqr.
  - apply contains_of_int.
Qed.

#[local] Instance contains_analytic_rel : AnalyticRel contains.
Proof.
  constructor.
  - intros a a'. apply contains_neg.
  - intros a a'. apply contains_exp.
  - apply contains_pi.
Qed.

Lemma val_lt (p q : bigZ) : (BigZ.to_Z p < BigZ.to_Z q)%Z -> val p < val q.
Proof.
  intros Hlt. unfold val. apply IZR_lt in Hlt. pose proof scale_pos as Hs.
  apply Rmult_lt_compat_r; [apply Rinv_0_lt_compat; exact Hs|exact Hlt].
Qed.

Lemma closer_than_sound (n d : Z) (I J : itv) (x y : R) :
  closer_than n d I J = true -> contains I x -> contains J y ->
  Rabs (x - y) < IZR n / IZR d.
Proof.
  unfold closer_than. intros Hc Hx Hy.
  pose proof (contains_sub I J x y Hx Hy) as Hs.
  pose proof (contains_div _ _ _ _ (contains_of_int n) (contains_of_int d)) as Hq.
  destruct (isub I J) as [|l h]; [discriminate|].
  destruct (idiv (iof_int n) (iof_int d)) as [|q q']; [discriminate|].
  apply andb_prop in Hc as [Hl Hh].
  rewrite BigZ.spec_ltb in Hl, Hh. apply Z.ltb_lt in Hl, Hh.
  apply val_lt in Hl, Hh. rewrite val_opp in Hl.
  simpl in Hs, Hq. apply Rabs_def1; lra.
Qed.

Lemma farther_than_sound (n d : Z) (I J : itv) (x y : R) :
  farther_than n d I J = true -> contains I x -> contains J y ->
  IZR n / IZR d < Rabs (x - y).
Proof.
  unfold farther_than. intros Hc Hx Hy.
  pose proof (contains_sub I J x y Hx Hy) as Hs.
  pose proof (contains_div _ _ _ _ (contains_of_int n) (contains_of_int d)) as Hq.
  destruct (isub I J) as [|l h]; [discriminate|].
  destruct (idiv (iof_int n) (iof_int d)) as [|q' q]; [discriminate|].
  simpl in Hs, Hq.
  apply orb_prop in Hc as [Hc|Hc];
    rewrite BigZ.spec_ltb in Hc; apply Z.ltb_lt in Hc; apply val_lt in Hc.
  - pose proof (Rle_abs (x - y)). lra.
  - rewrite val_opp in Hc. pose proof (Rle_abs (- (x - y))) as Habs.
    rewrite Rabs_Ropp in Habs. lra.
Qed.

Lemma all2_from_sound (P : nat -> R -> R -> Prop)
    (f : nat -> itv -> itv -> bool) :
  (forall i I J x y, f i I J = true -> contains I x -> contains J y -> P i x y) ->
  forall (Is Js : list itv) (xs ys : list R) (i0 : nat),
    all2_from f i0 Is Js = true ->
    Forall2 contains Is xs -> Forall2 contains Js ys ->
    forall (i : nat) (x y : R),
      xs !! i = Some x -> ys !! i = Some y -> P (i0 + i)%nat x y.
Proof.
  intros Hf Is. induction Is as [|I Is IH]; intros Js xs ys i0 Hall Hxs Hys.
  - inversion Hxs; subst. intros i x y Hx. discriminate Hx.
  - destruct Js as [|J Js]; [discriminate|]. simpl in Hall.
    apply andb_prop in Hall as [Hh Ht].
    inversion Hxs; inversion Hys; subst.
    intros [|i] a b Ha Hb; simpl in Ha, Hb.
    + injection Ha as <-. injection Hb as <-.
      rewrite Nat.add_0_r. eapply Hf; eassumption.
    + replace (i0 + S i)%nat with (S i0 + i)%nat by lia.
      eapply IH; eassumption.
Qed.

Lemma tolerance_at_sound (i : nat) (I J : itv) (x y : R) :
  tolerance_at i I J = true -> contains I x -> contains J y ->
  deviation_at i x y.
Proof.
  unfold tolerance_at, at_shock, deviation_at. intros Ht Hx Hy.
  destruct (Nat.leb_spec 72 i) as [H72|H72];
    destruct (Nat.leb_spec i 79) as [H79|H79]; cbn [andb] in Ht.
  - apply andb_prop in Ht as [Ht H76]. apply andb_prop in Ht as [Hfar Hnear].
    pose proof (farther_than_sound 50 100 I J x y Hfar Hx Hy) as Hf.
    pose proof (closer_than_sound 376 100 I J x y Hnear Hx Hy) as Hn.
    replace (IZR 50 / IZR 100) with (1 / 2) in Hf by lra.
    split; [intros; lia|]. split; [intros _; split; assumption|].
    intros ->. rewrite Nat.eqb_refl in H76.
    exact (farther_than_sound 375 100 I J x y H76 Hx Hy).
  - pose proof (closer_than_sound 50 100 I J x y Ht Hx Hy) as Hn.
    replace (IZR 50 / IZR 100) with (1 / 2) in Hn by lra.
    split; [intros _; exact Hn|]. split; intros; lia.
  - pose proof (closer_than_sound 50 100 I J x y Ht Hx Hy) as Hn.
    replace (IZR 50 / IZR 100) with (1 / 2) in Hn by lra.
    split; [intros _; exact Hn|]. split; intros; lia.
  - lia.
Qed.

(** What a positive verdict on enclosures says about the enclosed. *)
Lemma verdict_sound (r : list itv * list itv * list itv) (uc ua : list R) :
  verdict r = true ->
  Forall2 contains r.1.2 uc -> Forall2 contains r.2 ua ->
  length uc = 101%nat /\ length ua = 101%nat /\
  forall (i : nat) (a b : R),
    uc !! i = Some a -> ua !! i = Some b -> deviation_at i a b.
Proof.
  destruct r as [[xI ucI] uaI]. unfold verdict. cbn [fst snd].
  intros Hv Huc Hua. apply andb_prop in Hv as [Hlen Hall].
  apply andb_prop in Hlen as [Hlc Hla].
  apply Nat.eqb_eq in Hlc, Hla.
  split; [rewrite <- (Forall2_length _ _ _ Huc); exact Hlc|].
  split; [rewrite <- (Forall2_length _ _ _ Hua); exact Hla|].
  intros i a b Ha Hb.
  exact (all2_from_sound deviation_at tolerance_at tolerance_at_sound
           ucI uaI uc ua 0 Hall Huc Hua i a b Ha Hb).
Qed.

(** The verdict of the interval computation. *)
Lemma itv_verdict_true : verdict itv_fields = true.
Proof. vm_compute. reflexivity. Qed.

(** The intervals computed for the fields contain the real fields. *)
Lemma itv_fields_enclose :
  Forall2 contains itv_fields.1.2 (fields PI analytical 101 100 (7 / 100)).1.2 /\
  Forall2 contains itv_fields.2 (fields PI analytical 101 100 (7 / 100)).2.
Proof.
  assert (Hnu : contains (idiv (iof_int 7) (iof_int 100)) (7 / 100)).
  { apply contains_div; apply contains_of_int. }
  exact (proj2 (fields_rel contains ipi PI analytical analytical 101 100
                  (idiv (iof_int 7) (iof_int 100)) (7 / 100) contains_pi
                  (fun t t' y y' v v' Ht Hy Hv =>
                     analytical_rel contains t y v t' y' v' Ht Hy Hv) Hnu)).
Qed.

(** What the interval computation establishes about the real fields. *)
Lemma scenario_facts :
  exists (x uc ua : list R),
    real_notebook 101 100 (7 / 100) = Ok (x, uc, ua) /\
    real_setup 101 100 (7 / 100)
      = Ok (Params 101 100 (2 * PI / 100) (7 / 100) (2 * PI / 100 * (7 / 100)),
            x, Store ((fun x0 => analytical 0 x0 (7 / 100)) <$> x)
                     (replicate 101 0) []) /\
    length x = 101%nat /\ length uc = 101%nat /\ length ua = 101%nat /\
    forall (i : nat) (a b : R),
      uc !! i = Some a -> ua !! i = Some b -> deviation_at i a b.
Proof.
  assert (H101 : (2 <= 101)%Z) by lia.
  destruct (real_notebook_ok 101 100 (7 / 100) H101) as [Hnb Hx].
  pose proof (real_setup_ok 101 100 (7 / 100) H101) as Hsetup.
  pose proof (samples_length (F := R) 0 (2 * PI) 101 H101) as Hlen.
  destruct itv_fields_enclose as [Huc Hua].
  pose proof (verdict_sound itv_fields _ _ itv_verdict_true Huc Hua) as Hfacts.
  exists (samples (F := R) 0 (2 * PI) 101),
         (fields PI analytical 101 100 (7 / 100)).1.2,
         (fields PI analytical 101 100 (7 / 100)).2.
  rewrite Hx in Hnb.
  split; [exact Hnb|]. split; [exact Hsetup|]. split; [exact Hlen|].
  exact Hfacts.
Qed.

(** C9, as the code has it, in exact real arithmetic.  For the
    configuration of cell 5 ([nx = 101], [nt = 100], [dx = 2 * pi / 100],
    [nu = 0.07], [dt = dx * nu], initial field the analytical profile at
    [t = 0]), the field computed by the 100 steps deviates from the
    analytical profile at [t = 100 * dt] by less than 0.5 at every grid
    point except the eight grid points 72 to 79 at the shock; at these
    the deviation is more than 0.5 and less than 3.76, and at grid point
    76 it is more than 3.75. *)
Theorem burgers_scenario_deviation :
  exists (x uc ua : list R),
    real_notebook 101 100 (7 / 100) = Ok (x, uc, ua) /\
    real_setup 101 100 (7 / 100)
      = Ok (Params 101 100 (2 * PI / 100) (7 / 100) (2 * PI / 100 * (7 / 100)),
            x, Store ((fun x0 => analytical 0 x0 (7 / 100)) <$> x)
                     (replicate 101 0) []) /\
    length x = 101%nat /\ length uc = 101%nat /\ length ua = 101%nat /\
    forall (i : nat) (a b : R),
      uc !! i = Some a -> ua !! i = Some b ->
      ((i < 72 \/ 79 < i)%nat -> Rabs (a - b) < 1 / 2) /\
      ((72 <= i <= 79)%nat -> 1 / 2 < Rabs (a - b) < 376 / 100) /\
      (i = 76%nat -> 375 / 100 < Rabs (a - b)).
Proof. exact scenario_facts. Qed.

(** C9, as the claim states it, fails in exact real arithmetic: the
    deviation is not below the tolerance 0.5 at every grid point. *)
Lemma burgers_scenario_exceeds_tolerance :
  ~ (forall x uc ua : list R,
       real_notebook 101 100 (7 / 100) = Ok (x, uc, ua) ->
       Forall2 (fun a b => Rabs (a - b) < 1 / 2) uc ua).
Proof.
  intros Hall.
  destruct scenario_facts
    as (x & uc & ua & Hnb & _ & _ & Hluc & Hlua & Hdev).
  specialize (Hall x uc ua Hnb).
  destruct (lookup_lt_is_Some_2 uc 76) as [a Ha]; [lia|].
  destruct (lookup_lt_is_Some_2 ua 76) as [b Hb]; [lia|].
  pose proof (Forall2_lookup_lr _ _ _ _ _ _ Hall Ha Hb) as Hnear.
  destruct (Hdev 76%nat a b Ha Hb) as (_ & _ & Hfar).
  specialize (Hfar eq_refl). simpl in Hnear. lra.
Qed.

End Scenario.
